(** * models_manager: the persistence base of [base.py]

    A shallow embedding of [BaseModel], [BaseModelWithName] and
    [BaseModelSoftDelete]: the error classifier, the condition, search and
    sort builders, the query executor and the record lifecycle, together
    with the part of the relational backend the code talks to. *)

From Stdlib Require Import ZArith Ascii String List Bool Lia Sorted.
From stdpp Require Import base option list gmap strings pretty.

Open Scope string_scope.
Open Scope list_scope.

(** ** Python values

    The values that travel through [Dict[str, Any]] arguments and column
    attributes. [VNone] is Python's [None] and SQL's [NULL]. *)

Inductive value : Type :=
| VNone
| VBool (b : bool)
| VInt (n : Z)
| VStr (s : string).

#[global] Instance value_eq_dec : EqDecision value.
Proof. solve_decision. Defined.

(** Truth value testing, as [if x:] does it. *)
Definition truthy (v : value) : bool :=
  match v with
  | VNone => false
  | VBool b => b
  | VInt n => negb (n =? 0)%Z
  | VStr s => negb (String.eqb s "")
  end.

(** [str(x)], which is what an f-string placeholder inserts. *)
Definition py_str (v : value) : string :=
  match v with
  | VNone => "None"
  | VBool true => "True"
  | VBool false => "False"
  | VInt n => pretty n
  | VStr s => s
  end.

(** A [dict] with string keys: insertion ordered, keys unique. *)
Abbreviation pydict V := (list (string * V)).

Fixpoint dict_get {V} (d : pydict V) (k : string) : option V :=
  match d with
  | [] => None
  | (k', v) :: d' => if decide (k' = k) then Some v else dict_get d' k
  end.

Fixpoint dict_del {V} (d : pydict V) (k : string) : pydict V :=
  match d with
  | [] => []
  | (k', v) :: d' => if decide (k' = k) then dict_del d' k else (k', v) :: dict_del d' k
  end.

Definition dict_keys {V} (d : pydict V) : list string := d.*1.

(** ** Characters and text *)

Definition chars (s : string) : list ascii := list_ascii_of_string s.
Definition text (l : list ascii) : string := string_of_list_ascii l.

Definition newline : ascii := "010"%char.

(** ** The regular expressions of the classifier

    The fragment of Python's [re] that the two compiled patterns use:
    literals, the greedy [.*] (where [.] is any character but a newline),
    one capturing group, sequence, alternation and [$]. The matcher is a
    backtracking one, as [re] is: alternatives are tried left to right, a
    star takes as much as it can and gives back one character at a time. *)

Inductive regex : Type :=
| REps
| RLit (c : ascii)
| RDotStar
| RGroup (r : regex)
| RSeq (r1 r2 : regex)
| RAlt (r1 r2 : regex)
| REnd.

Fixpoint rstr (l : list ascii) : regex :=
  match l with
  | [] => REps
  | c :: l' => RSeq (RLit c) (rstr l')
  end.

(** [$] without [re.MULTILINE]: the end of the string, or just before a
    newline that ends the string. *)
Definition at_end (s : list ascii) : bool :=
  match s with
  | [] => true
  | [c] => bool_decide (c = newline)
  | _ => false
  end.

Section Matcher.
Context {X : Type}.

Fixpoint dot_star (k : list ascii → option X) (s : list ascii) : option X :=
  match s with
  | [] => k []
  | c :: t =>
      if decide (c = newline) then k s
      else match dot_star k t with
           | Some x => Some x
           | None => k s
           end
  end.

(** [rmatch r s g k]: match [r] at the head of [s] with group 1 currently
    [g], and hand the rest of the input and the group to [k]; when [k]
    refuses, backtrack. *)
Fixpoint rmatch (r : regex) (s : list ascii) (g : option (list ascii))
    (k : list ascii → option (list ascii) → option X) : option X :=
  match r with
  | REps => k s g
  | RLit c =>
      match s with
      | c' :: t => if decide (c' = c) then k t g else None
      | [] => None
      end
  | RDotStar => dot_star (λ s', k s' g) s
  | RGroup r1 =>
      rmatch r1 s g (λ s' _, k s' (Some (take (length s - length s') s)))
  | RSeq r1 r2 => rmatch r1 s g (λ s' g', rmatch r2 s' g' k)
  | RAlt r1 r2 =>
      match rmatch r1 s g k with
      | Some x => Some x
      | None => rmatch r2 s g k
      end
  | REnd => if at_end s then k s g else None
  end.
End Matcher.

(** One match attempt at the head of [s]: group 1 and the number of
    characters consumed. With [must_advance] an empty match is refused
    (and the matcher backtracks into the other alternatives). *)
Definition match_at (must_advance : bool) (re : regex) (s : list ascii)
  : option (option (list ascii) * nat) :=
  rmatch re s None
    (λ s' g, if must_advance && (length s' =? length s)%nat then None
             else Some (g, length s - length s')).

(** What [findall] reports for a pattern with one group: the group's text,
    or the empty string when the group took no part in the match. *)
Definition group_text (g : option (list ascii)) : string :=
  text (default [] g).

(** [re.findall]: all non-overlapping matches, left to right. After an
    empty match at a position, only a non-empty match may start there. *)
Fixpoint scan (re : regex) (skip : nat) (s : list ascii) : list string :=
  match skip with
  | S n => match s with [] => [] | _ :: t => scan re n t end
  | O =>
      match match_at false re s with
      | None => match s with [] => [] | _ :: t => scan re 0 t end
      | Some (g, S n) =>
          group_text g :: match s with [] => [] | _ :: t => scan re n t end
      | Some (g, O) =>
          group_text g ::
          match match_at true re s with
          | Some (g', S n') =>
              group_text g' :: match s with [] => [] | _ :: t => scan re n' t end
          | _ => match s with [] => [] | _ :: t => scan re 0 t end
          end
      end
  end.

Definition findall (re : regex) (s : string) : list string := scan re 0 (chars s).

(** The compiled pattern for a unique violation: the literal [Key (], the
    group (a greedy dot-star), the literal [)=(], a greedy dot-star and the
    literal [) already exists]; or else [$]. *)
Definition RE_ALREADY_EXIST_COMPILED : regex :=
  RAlt (RSeq (rstr (chars "Key ("))
       (RSeq (RGroup RDotStar)
       (RSeq (rstr (chars ")=("))
       (RSeq RDotStar
             (rstr (chars ") already exists"))))))
       REnd.

(** The compiled pattern for a foreign key violation: the same, ending in
    the literal [) is not present in table]; or else [$]. *)
Definition RE_NOT_PRESENT_COMPILED : regex :=
  RAlt (RSeq (rstr (chars "Key ("))
       (RSeq (RGroup RDotStar)
       (RSeq (rstr (chars ")=("))
       (RSeq RDotStar
             (rstr (chars ") is not present in table"))))))
       REnd.

(** ** Record types

    A concrete record type derives [BaseModel], and possibly
    [BaseModelWithName] and [BaseModelSoftDelete]; it declares its own
    columns and its set of search-like fields. *)

Record model : Type := {
  cls_name : string;
  cls_has_name : bool;
  cls_soft_delete : bool;
  cls_own_columns : list string;
  cls_search_like_fields : gset string
}.

Definition base_columns : list string :=
  ["id"; "creator_id"; "created_at"; "updated_at"].

(** The column attributes of the class, inherited ones first. *)
Definition columns (cls : model) : list string :=
  base_columns
  ++ (if cls_has_name cls then ["name"] else [])
  ++ (if cls_soft_delete cls then ["is_active"] else [])
  ++ cls_own_columns cls.

(** ** Failures *)

(** The backend's [IntegrityError]: the arguments of the driver's error
    ([exc.orig.args], texts, the first of which is the message) and the
    text [str(exc)]. *)
Record IntegrityError : Type := {
  orig_args : list string;
  exc_str : string
}.

(** What the code raises. Modelled from the spec: the error classes
    [DatabaseValidationError] and [DatabaseIntegrityError] of
    [app.exceptions] are not part of the source; the first carries a
    message with the record type name and the offending column list, the
    second a message with the record type name only. Both are raised
    [from exc], which is their cause. *)
Inductive exn : Type :=
| AttributeError (name : string)
| TypeError (msg : string)
| DatabaseValidationError (msg : string) (cols : string) (cause : IntegrityError)
| DatabaseIntegrityError (msg : string) (cause : IntegrityError)
| RawIntegrityError (exc : IntegrityError)
| InvalidRequestError (msg : string).

(** ** The backend: rows, predicates, queries *)

(** A row maps column names to values; a missing column reads as NULL. *)
Abbreviation row := (gmap string value).

Definition cell (r : row) (col : string) : value := default VNone (r !! col).

(** SQL's three truth values. *)
Inductive tv : Type := TTrue | TFalse | TUnknown.

Definition tv_of_bool (b : bool) : tv := if b then TTrue else TFalse.

Definition tv_and (a b : tv) : tv :=
  match a, b with
  | TFalse, _ | _, TFalse => TFalse
  | TTrue, TTrue => TTrue
  | _, _ => TUnknown
  end.

Definition tv_or (a b : tv) : tv :=
  match a, b with
  | TTrue, _ | _, TTrue => TTrue
  | TFalse, TFalse => TFalse
  | _, _ => TUnknown
  end.

(** The column expressions the code builds. *)
#[warnings="-register-all"]
Inductive clause : Type :=
| CEq (col : string) (v : value)
| CILike (col : string) (pat : string)
| CAnd (cs : list clause)
| COr (cs : list clause).

(** [column == value]: compared with [None] it renders [IS NULL]; otherwise
    it is SQL's [=], unknown on a NULL cell. *)
Definition sql_eq (x v : value) : tv :=
  match v with
  | VNone => tv_of_bool (bool_decide (x = VNone))
  | _ => match x with
         | VNone => TUnknown
         | _ => tv_of_bool (bool_decide (x = v))
         end
  end.

(** SQL [LIKE]: [%] stands for any text, [_] for any one character, and a
    backslash takes the next character literally. *)
Fixpoint like_match (p s : list ascii) : bool :=
  match p with
  | [] => match s with [] => true | _ => false end
  | c :: p' =>
      if decide (c = "%"%char) then
        (fix skip (s : list ascii) : bool :=
           like_match p' s || match s with [] => false | _ :: t => skip t end) s
      else if decide (c = "_"%char) then
        match s with [] => false | _ :: t => like_match p' t end
      else if decide (c = "\"%char) then
        match p' with
        | [] => false
        | e :: p'' =>
            match s with
            | [] => false
            | c' :: t => bool_decide (c' = e) && like_match p'' t
            end
        end
      else
        match s with
        | [] => false
        | c' :: t => bool_decide (c' = c) && like_match p' t
        end
  end.

Definition lower_char (c : ascii) : ascii :=
  let n := nat_of_ascii c in
  if (65 <=? n)%nat && (n <=? 90)%nat then ascii_of_nat (n + 32) else c.

Definition lower (l : list ascii) : list ascii := lower_char <$> l.

(** [ILIKE]: [LIKE] with case folded on both sides. *)
Definition ilike_match (pat s : string) : bool :=
  like_match (lower (chars pat)) (lower (chars s)).

(** [column.ilike(pat)] on a cell; the search-like fields are text
    columns, a cell of another type does not match. *)
Definition sql_ilike (x : value) (pat : string) : tv :=
  match x with
  | VNone => TUnknown
  | VStr s => tv_of_bool (ilike_match pat s)
  | _ => TFalse
  end.

(** The truth value of a clause on a row. [and_()] and [or_()] over no
    operand are empty clause lists: they render as no text at all and are
    left out of whatever contains them, which is [None] here. *)
Fixpoint eval_clause (r : row) (c : clause) : option tv :=
  match c with
  | CEq col v => Some (sql_eq (cell r col) v)
  | CILike col pat => Some (sql_ilike (cell r col) pat)
  | CAnd cs =>
      match omap (eval_clause r) cs with
      | [] => None
      | t :: ts => Some (foldl tv_and t ts)
      end
  | COr cs =>
      match omap (eval_clause r) cs with
      | [] => None
      | t :: ts => Some (foldl tv_or t ts)
      end
  end.

(** A criterion of a WHERE keeps the row when it is true, or when it
    renders as nothing. *)
Definition holds (r : row) (c : clause) : bool :=
  match eval_clause r c with
  | None | Some TTrue => true
  | Some _ => false
  end.

Inductive direction : Type := Asc | Desc.

(** An ORDER BY element: [column.asc()] or [column.desc()], with or
    without the [nulls_last()] modifier. *)
Record order_clause : Type := {
  oc_field : string;
  oc_dir : direction;
  oc_nulls_last : bool
}.

(** A [select(cls)] statement with what has been chained onto it. *)
Record Select : Type := {
  sel_where : list clause;
  sel_order : list order_clause;
  sel_limit : option nat;
  sel_offset : option nat
}.

Definition select_cls : Select :=
  {| sel_where := []; sel_order := []; sel_limit := None; sel_offset := None |}.

Definition where_ (q : Select) (c : clause) : Select :=
  {| sel_where := sel_where q ++ [c]; sel_order := sel_order q;
     sel_limit := sel_limit q; sel_offset := sel_offset q |}.

Definition order_by (q : Select) (ocs : list order_clause) : Select :=
  {| sel_where := sel_where q; sel_order := sel_order q ++ ocs;
     sel_limit := sel_limit q; sel_offset := sel_offset q |}.

Definition limit (q : Select) (n : nat) : Select :=
  {| sel_where := sel_where q; sel_order := sel_order q;
     sel_limit := Some n; sel_offset := sel_offset q |}.

Definition offset (q : Select) (n : nat) : Select :=
  {| sel_where := sel_where q; sel_order := sel_order q;
     sel_limit := sel_limit q; sel_offset := Some n |}.

(** The order of two non-NULL cells of one column. *)
Definition value_compare (x y : value) : comparison :=
  match x, y with
  | VInt a, VInt b => (a ?= b)%Z
  | VStr a, VStr b => String.compare a b
  | VBool a, VBool b => Bool.compare a b
  | VNone, VNone => Eq
  | VNone, _ => Lt
  | _, VNone => Gt
  | VBool _, _ => Lt
  | _, VBool _ => Gt
  | VInt _, _ => Lt
  | _, VInt _ => Gt
  end.

(** Where NULLs go: last with the modifier; without it the backend's
    default, which is last when ascending and first when descending. *)
Definition nulls_after (oc : order_clause) : bool :=
  oc_nulls_last oc || match oc_dir oc with Asc => true | Desc => false end.

Definition clause_compare (oc : order_clause) (r1 r2 : row) : comparison :=
  match cell r1 (oc_field oc), cell r2 (oc_field oc) with
  | VNone, VNone => Eq
  | VNone, _ => if nulls_after oc then Gt else Lt
  | _, VNone => if nulls_after oc then Lt else Gt
  | x, y => match oc_dir oc with
            | Asc => value_compare x y
            | Desc => value_compare y x
            end
  end.

(** Several ORDER BY elements: the first that tells two rows apart. *)
Fixpoint rows_compare (ocs : list order_clause) (r1 r2 : row) : comparison :=
  match ocs with
  | [] => Eq
  | oc :: ocs' =>
      match clause_compare oc r1 r2 with
      | Eq => rows_compare ocs' r1 r2
      | c => c
      end
  end.

Fixpoint insert_row (ocs : list order_clause) (r : row) (l : list row) : list row :=
  match l with
  | [] => [r]
  | y :: l' =>
      match rows_compare ocs r y with
      | Gt => y :: insert_row ocs r l'
      | _ => r :: l
      end
  end.

(** A stable sort: rows the ORDER BY does not tell apart keep the order
    of the table. *)
Definition sort_rows (ocs : list order_clause) (l : list row) : list row :=
  foldr (insert_row ocs) [] l.

Definition matching (q : Select) (rows : list row) : list row :=
  List.filter (λ r, forallb (holds r) (sel_where q)) rows.

(** What the backend returns for a statement: WHERE, ORDER BY, OFFSET,
    LIMIT, in this order. *)
Definition run_query (q : Select) (rows : list row) : list row :=
  let sorted := sort_rows (sel_order q) (matching q rows) in
  let skipped := match sel_offset q with Some o => drop o sorted | None => sorted end in
  match sel_limit q with Some n => take n skipped | None => skipped end.

(** [select(func.count()).select_from(q.subquery())] *)
Definition count_query (q : Select) (rows : list row) : nat :=
  length (run_query q rows).

(** [result.scalars().unique()]: one object per identity, which for a
    mapped row is its primary key; the first occurrence stays. *)
Fixpoint unique_from (seen : list value) (l : list row) : list row :=
  match l with
  | [] => []
  | r :: l' =>
      if bool_decide (cell r "id" ∈ seen) then unique_from seen l'
      else r :: unique_from (cell r "id" :: seen) l'
  end.

Definition unique (l : list row) : list row := unique_from [] l.

(** ** Objects, the session and the world

    The caller's dictionaries and lists and the mapped instances are
    mutable objects: they live in a heap and are passed by reference. *)

(** A mapped instance: its attribute dictionary, and whether the session
    holds it as a persistent object (one that has a row). *)
Record instance : Type := {
  inst_attrs : gmap string value;
  inst_persistent : bool
}.

Inductive pyobj : Type :=
| ODict (d : pydict value)
| OList (l : list clause)
| OInst (o : instance).

Abbreviation loc := nat.

Inductive level : Type := DEBUG | INFO | ERROR.

Record LogRecord : Type := {
  log_level : level;
  log_msg : string
}.

(** Everything the code reads and writes: the heap, the table of the
    record type behind the session, the sequence that hands out
    identifiers, the time [utcnow] returns ([app.service.utils] is not
    part of the source, the time is a parameter of the world), the
    constraints the backend enforces at flush time (from the old and the
    new table it tells the violation, if any), and what [logger] has
    recorded. *)
Record World : Type := {
  w_heap : list pyobj;
  w_rows : list row;
  w_seq : Z;
  w_clock : Z;
  w_check : list row → list row → option IntegrityError;
  w_log : list LogRecord
}.

Definition set_heap (h : list pyobj) (w : World) : World :=
  {| w_heap := h; w_rows := w_rows w; w_seq := w_seq w; w_clock := w_clock w;
     w_check := w_check w; w_log := w_log w |}.

Definition set_rows (rs : list row) (w : World) : World :=
  {| w_heap := w_heap w; w_rows := rs; w_seq := w_seq w; w_clock := w_clock w;
     w_check := w_check w; w_log := w_log w |}.

Definition set_seq (n : Z) (w : World) : World :=
  {| w_heap := w_heap w; w_rows := w_rows w; w_seq := n; w_clock := w_clock w;
     w_check := w_check w; w_log := w_log w |}.

Definition add_log (r : LogRecord) (w : World) : World :=
  {| w_heap := w_heap w; w_rows := w_rows w; w_seq := w_seq w; w_clock := w_clock w;
     w_check := w_check w; w_log := w_log w ++ [r] |}.

(** Computations that read and write the world and may raise. A raise
    keeps the world as it was at that point. *)
Definition M (A : Type) : Type := World → (exn + A) * World.

#[global] Instance M_ret : MRet M := λ A x w, (inr x, w).

#[global] Instance M_bind : MBind M := λ A B f m w,
  match m w with
  | (inr x, w') => f x w'
  | (inl e, w') => (inl e, w')
  end.

Definition raise {A} (e : exn) : M A := λ w, (inl e, w).
Definition get_world : M World := λ w, (inr w, w).
Definition modify (f : World → World) : M () := λ w, (inr (), f w).

Definition logger (lv : level) (msg : string) : M () :=
  modify (add_log {| log_level := lv; log_msg := msg |}).

(** A new object on the heap. *)
Definition alloc (o : pyobj) : M loc := λ w,
  (inr (length (w_heap w)), set_heap (w_heap w ++ [o]) w).

Definition store (l : loc) (o : pyobj) : M () :=
  modify (λ w, set_heap (<[l := o]> (w_heap w)) w).

(** Dereferencing as a dictionary, a list or an instance; an object of
    another kind has none of the attributes asked of it. *)
Definition read_dict (l : loc) : M (pydict value) := λ w,
  match w_heap w !! l with
  | Some (ODict d) => (inr d, w)
  | _ => (inl (AttributeError "get"), w)
  end.

Definition read_list (l : loc) : M (list clause) := λ w,
  match w_heap w !! l with
  | Some (OList cs) => (inr cs, w)
  | _ => (inl (AttributeError "extend"), w)
  end.

Definition read_inst (l : loc) : M instance := λ w,
  match w_heap w !! l with
  | Some (OInst o) => (inr o, w)
  | _ => (inl (AttributeError "id"), w)
  end.

(** ** The error classifier *)

(** [info and (match := re.findall(re, info[0])) and match[0]]: this
    conjunction is truthy exactly when it ends in a non-empty [match[0]],
    and that string is then its value. *)
Definition first_group (re : regex) (info : list string) : option string :=
  match info with
  | [] => None
  | msg :: _ =>
      match findall re msg with
      | [] => None
      | g :: _ => if decide (g = "") then None else Some g
      end
  end.

Definition _raise_validation_exception {A} (cls : model) (exc : IntegrityError) : M A :=
  let info := orig_args exc in
  match first_group RE_ALREADY_EXIST_COMPILED info with
  | Some m =>
      raise (DatabaseValidationError
               ("Unique constraint violated for " +:+ cls_name cls) m exc)
  | None =>
      match first_group RE_NOT_PRESENT_COMPILED info with
      | Some m =>
          raise (DatabaseValidationError
                   ("Foreign key constraint violated for " +:+ cls_name cls) m exc)
      | None =>
          _ ← logger ERROR
                ("Integrity error for " +:+ cls_name cls +:+ ": " +:+ exc_str exc);
          raise (DatabaseIntegrityError ("Integrity error for " +:+ cls_name cls) exc)
      end
  end.

(** ** Attribute access *)

(** [getattr(cls, name)]: the column attribute of that name. Of the
    namespace of the class only its columns are modelled; any other name
    is an unknown attribute. *)
Definition getattr_cls (cls : model) (name : string) : M string :=
  if decide (name ∈ columns cls) then mret name else raise (AttributeError name).

(** [self.name]: a column attribute that was never set reads [None]. *)
Definition attr (o : instance) (name : string) : value :=
  default VNone (inst_attrs o !! name).

(** [setattr(self, k, v)]: an entry of the instance's attribute
    dictionary, whether or not [k] names a column. *)
Definition setattr (self : loc) (k : string) (v : value) : M () :=
  o ← read_inst self;
  store self (OInst {| inst_attrs := <[k := v]> (inst_attrs o);
                       inst_persistent := inst_persistent o |}).


Fixpoint map_m {A B} (f : A → M B) (l : list A) : M (list B) :=
  match l with
  | [] => mret []
  | x :: l' => y ← f x; ys ← map_m f l'; mret (y :: ys)
  end.

(** ** The text of a record *)

Definition hex_digit (n : nat) : ascii :=
  nth n (chars "0123456789abcdef") "0"%char.

Definition single_quote : ascii := ascii_of_nat 39.
Definition double_quote : ascii := ascii_of_nat 34.
Definition backslash : ascii := ascii_of_nat 92.

(** One character of a text inside the quotes [q] of its [repr]. The
    characters of a text are read as code points below 256. *)
Definition repr_char (q c : ascii) : list ascii :=
  let n := nat_of_ascii c in
  if decide (c = q) then [backslash; c]
  else if decide (c = backslash) then [backslash; backslash]
  else if (n =? 9)%nat then [backslash; "t"%char]
  else if (n =? 10)%nat then [backslash; "n"%char]
  else if (n =? 13)%nat then [backslash; "r"%char]
  else if (n <? 32)%nat || ((127 <=? n)%nat && (n <=? 160)%nat) || (n =? 173)%nat
  then [backslash; "x"%char; hex_digit (n / 16); hex_digit (n mod 16)]
  else [c].

(** [repr(x)]: a text is quoted, in double quotes when it holds a single
    quote and no double quote, and escaped. *)
Definition py_repr (v : value) : string :=
  match v with
  | VStr s =>
      let l := chars s in
      let q := if bool_decide (single_quote ∈ l) && negb (bool_decide (double_quote ∈ l))
               then double_quote else single_quote in
      text (q :: concat (repr_char q <$> l) ++ [q])
  | _ => py_str v
  end.

(** [BaseModel.__str__]: the [=] form of the placeholder inserts the
    text of the expression, an equals sign and the [repr] of its value. *)
Definition __str__ (cls : model) (o : instance) : string :=
  "<" +:+ cls_name cls +:+ "(" +:+ "self.id=" +:+ py_repr (attr o "id") +:+ ")>".

(** ** The session: flush, refresh, delete *)

(** The cells an instance writes: its attributes that are columns. *)
Definition column_values (cls : model) (o : instance) : row :=
  filter (λ kv, kv.1 ∈ columns cls) (inst_attrs o).

Definition with_default (col : string) (v : value) (r : row) : row :=
  match r !! col with
  | Some _ => r
  | None => <[col := v]> r
  end.

(** The row an INSERT writes: the identifier comes from the sequence when
    the instance has none, and the declared defaults fill the columns the
    instance has not set ([created_at], [updated_at], [is_active]). *)
Definition insert_values (cls : model) (o : instance) (seq now : Z) : row :=
  let r := column_values cls o in
  let r := match attr o "id" with VNone => <["id" := VInt seq]> r | _ => r end in
  let r := with_default "created_at" (VInt now) r in
  let r := with_default "updated_at" (VInt now) r in
  if cls_soft_delete cls then with_default "is_active" (VBool true) r else r.

(** The row an UPDATE leaves behind: the changed cells, and [updated_at]
    from the clock unless the instance changed it itself. Nothing is
    written when no cell changed. *)
Definition update_values (cls : model) (o : instance) (old : row) (now : Z) : row :=
  let r := column_values cls o ∪ old in
  if decide (r = old) then old
  else if decide (r !! "updated_at" = old !! "updated_at")
       then <["updated_at" := VInt now]> r else r.

Definition has_id (i : value) (r : row) : bool := bool_decide (cell r "id" = i).

(** The table after the flush of one instance. A persistent instance is
    updated in place, found by the identifier it was loaded under (which
    [db.refresh] keeps in its [id] attribute); any other is inserted. *)
Definition flushed_rows (cls : model) (o : instance) (w : World) : list row :=
  if inst_persistent o then
    (λ r, if has_id (attr o "id") r then update_values cls o r (w_clock w) else r)
      <$> w_rows w
  else w_rows w ++ [insert_values cls o (w_seq w) (w_clock w)].

(** [db.add(self); await db.flush()], with the [IntegrityError] of the
    backend as a result rather than a raise. *)
Definition flush (cls : model) (self : loc) : M (option IntegrityError) :=
  o ← read_inst self;
  w ← get_world;
  let rows' := flushed_rows cls o w in
  match w_check w (w_rows w) rows' with
  | Some exc => mret (Some exc)
  | None =>
      _ ← modify (set_rows rows');
      _ ← (if inst_persistent o then mret ()
           else
             let r := insert_values cls o (w_seq w) (w_clock w) in
             _ ← modify (set_seq (w_seq w + 1));
             store self (OInst {| inst_attrs := r ∪ inst_attrs o;
                                  inst_persistent := true |}));
      mret None
  end.

(** [await db.refresh(self)]: the attributes are read back from the row. *)
Definition refresh (self : loc) : M () :=
  o ← read_inst self;
  w ← get_world;
  match List.find (has_id (attr o "id")) (w_rows w) with
  | Some r => store self (OInst {| inst_attrs := r ∪ inst_attrs o;
                                   inst_persistent := true |})
  | None => raise (InvalidRequestError "Could not refresh instance")
  end.

(** ** BaseModel: the record lifecycle *)

Definition save (cls : model) (self : loc) : M () :=
  o ← read_inst self;
  let obj_id := attr o "id" in
  let class_name := cls_name cls in
  r ← flush cls self;
  _ ← match r with
      | Some exc => _raise_validation_exception cls exc
      | None => mret ()
      end;
  o' ← read_inst self;
  _ ← (if decide (obj_id = VNone)
       then logger INFO (class_name +:+ " with id=" +:+ py_str (attr o' "id") +:+ " is created")
       else logger INFO (class_name +:+ " with id=" +:+ py_str obj_id +:+ " is updated"));
  refresh self.



(** [BaseModel.create]: the constructor is called with the entries of
    [data] whose key is in the namespace of the class (of which the
    columns are modelled, as for [getattr_cls]), and assigns each as an
    attribute of the new instance; the instance is saved and returned. *)
Definition create (cls : model) (data : pydict value) : M loc :=
  let kwargs := List.filter (λ kv, bool_decide (kv.1 ∈ columns cls)) data in
  new_item ← alloc (OInst {| inst_attrs := foldl (λ a kv, <[kv.1 := kv.2]> a) ∅ kwargs;
                              inst_persistent := false |});
  _ ← save cls new_item;
  mret new_item.

(** [BaseModel.delete]: the row is removed. *)
Definition delete (cls : model) (self : loc) : M () :=
  o ← read_inst self;
  w ← get_world;
  _ ← (if inst_persistent o then mret ()
       else raise (InvalidRequestError "Instance is not persisted"));
  let rows' := List.filter (λ r, negb (has_id (attr o "id") r)) (w_rows w) in
  _ ← match w_check w (w_rows w) rows' with
      | Some exc => raise (RawIntegrityError exc)
      | None => modify (set_rows rows')
      end;
  _ ← store self (OInst {| inst_attrs := inst_attrs o; inst_persistent := false |});
  logger DEBUG (cls_name cls +:+ " with id=" +:+ py_str (attr o "id") +:+ " was deleted").

Definition execute (q : Select) : M (list row) :=
  w ← get_world; mret (run_query q (w_rows w)).

Definition scalar_count (q : Select) : M nat :=
  w ← get_world; mret (count_query q (w_rows w)).

Definition get_one_by_filter (cls : model) (conditions : list clause) : M (option row) :=
  let query := where_ select_cls (CAnd conditions) in
  result ← execute query;
  mret (head (unique result)).

Definition get_by_id (cls : model) (item_id : value) : M (option row) :=
  get_one_by_filter cls [CEq "id" item_id].

(** ** The condition, search and sort builders *)

Definition _build_conditions (cls : model) (filters : pydict value) : M (list clause) :=
  map_m (λ kv, field ← getattr_cls cls kv.1; mret (CEq field kv.2)) filters.

(** [s.replace(a, b)] for one-character [a] and [b]. *)
Definition replace_char (a b : ascii) (s : string) : string :=
  text ((λ c, if decide (c = a) then b else c) <$> chars s).

Definition _build_search_like_string_stmt (cls : model) (stmt : Select)
    (search_like_string : value) : M Select :=
  fields ← map_m (getattr_cls cls) (elements (cls_search_like_fields cls));
  let sls_stmt := replace_char " " "%" ("%" +:+ py_str search_like_string +:+ "%") in
  let ilikes := (λ field, CILike field sls_stmt) <$> fields in
  mret (where_ stmt (COr ilikes)).

(** Modelled from the spec: the sorting request schema [BaseSorting] is
    not part of the source; the spec gives it as an ordered mapping from
    field name to direction, which [sort_dict()] hands out. *)
Record BaseSorting : Type := { sort_dict : pydict string }.

(** Modelled from the spec: the pagination request schema [Pagination] is
    not part of the source; the spec gives it as a limit and an offset. *)
Record Pagination : Type := { pg_limit : nat; pg_offset : nat }.

Inductive sorting_arg : Type :=
| SortingObj (b : BaseSorting)
| SortingDict (d : pydict string).

(** [getattr(field, direction)()]: of the methods of a column attribute
    the two ordering ones, [asc] and [desc]. *)
Definition column_ordering (field direction : string) : M order_clause :=
  if decide (direction = "asc")
  then mret {| oc_field := field; oc_dir := Asc; oc_nulls_last := false |}
  else if decide (direction = "desc")
  then mret {| oc_field := field; oc_dir := Desc; oc_nulls_last := false |}
  else raise (AttributeError direction).

Definition nulls_last (oc : order_clause) : order_clause :=
  {| oc_field := oc_field oc; oc_dir := oc_dir oc; oc_nulls_last := true |}.

Definition _build_sorting (cls : model) (sorting : sorting_arg) : M (list order_clause) :=
  let sort_fields :=
    match sorting with
    | SortingObj b => sort_dict b
    | SortingDict d => d
    end in
  map_m (λ kv, field ← getattr_cls cls kv.1;
               oc ← column_ordering field kv.2;
               mret (nulls_last oc)) sort_fields.

(** ** The query executor *)

Inductive filter_result : Type :=
| Results (rows : list row)
| Page (rows : list row) (total : nat).

(** [conditions or []]: the caller's list when it is given and not empty,
    a new list otherwise. *)
Definition conditions_or_new (conditions : option loc) : M loc :=
  match conditions with
  | None => alloc (OList [])
  | Some l =>
      cs ← read_list l;
      match cs with
      | [] => alloc (OList [])
      | _ => mret l
      end
  end.

(** [d.pop(k, None)] *)
Definition dict_pop (l : loc) (k : string) : M value :=
  d ← read_dict l;
  _ ← store l (ODict (dict_del d k));
  mret (default VNone (dict_get d k)).

(** [d.get(k)] *)
Definition dict_get_none (l : loc) (k : string) : M value :=
  d ← read_dict l; mret (default VNone (dict_get d k)).

(** [l.extend(xs)] *)
Definition list_extend (l : loc) (xs : list clause) : M () :=
  cs ← read_list l; store l (OList (cs ++ xs)).

Definition sorting_truthy (s : sorting_arg) : bool :=
  match s with
  | SortingObj _ => true
  | SortingDict d => match d with [] => false | _ => true end
  end.

Definition filter (cls : model) (filters conditions : option loc)
    (pagination : option Pagination) (sorting : option sorting_arg) : M filter_result :=
  conditions ← conditions_or_new conditions;
  let total := 0 in
  let stmt := select_cls in
  stmt ← match filters with
         | None => mret stmt
         | Some fl =>
             d ← read_dict fl;
             match d with
             | [] => mret stmt
             | _ =>
                 v ← dict_get_none fl "search_like_string";
                 stmt ← (if truthy v then
                           search_like_string ← dict_pop fl "search_like_string";
                           if truthy search_like_string
                           then _build_search_like_string_stmt cls stmt search_like_string
                           else mret stmt
                         else mret stmt);
                 d' ← read_dict fl;
                 cs ← _build_conditions cls d';
                 _ ← list_extend conditions cs;
                 mret stmt
             end
         end;
  stmt ← match sorting with
         | Some s =>
             if sorting_truthy s then
               ocs ← _build_sorting cls s; mret (order_by stmt ocs)
             else mret stmt
         | None => mret stmt
         end;
  cs ← read_list conditions;
  let query := where_ stmt (CAnd cs) in
  tq ← match pagination with
       | Some p =>
           n ← scalar_count query;
           mret (match n with O => 0 | _ => n end,
                 offset (limit query (pg_limit p)) (pg_offset p))
       | None => mret (total, query)
       end;
  result ← execute tq.2;
  let serialised_result := unique result in
  match pagination with
  | Some _ => mret (Page serialised_result tq.1)
  | None => mret (Results serialised_result)
  end.

(** ** BaseModelWithName *)

Module BaseModelWithName.
(** Only a class that derives [BaseModelWithName] has the method. *)
Definition get_by_name (cls : model) (name : string) : M (option row) :=
  if cls_has_name cls then get_one_by_filter cls [CEq "name" (VStr name)]
  else raise (AttributeError "get_by_name").
End BaseModelWithName.

(** ** BaseModelSoftDelete *)

Module BaseModelSoftDelete.
Definition delete (cls : model) (self : loc) : M () :=
  _ ← setattr self "is_active" (VBool false);
  save cls self.

Definition undelete (cls : model) (self : loc) : M () :=
  _ ← setattr self "is_active" (VBool true);
  save cls self.
End BaseModelSoftDelete.

(** * Properties *)

(** ** Sample data

    A named, soft-deletable record type with one column of its own and
    one search-like field, a record type without search-like fields, a
    small table, and some requests. *)

Definition Team : model :=
  {| cls_name := "Team"; cls_has_name := true; cls_soft_delete := true;
     cls_own_columns := ["status"]; cls_search_like_fields := {[ "name" ]} |}.


Definition no_constraints (old new : list row) : option IntegrityError := None.

Definition empty_world : World :=
  {| w_heap := []; w_rows := []; w_seq := 1; w_clock := 0;
     w_check := no_constraints; w_log := [] |}.

Definition team_row (i : Z) (name : string) (status : value) (active : bool) : row :=
  <["id" := VInt i]> (<["name" := VStr name]>
    (<["status" := status]> (<["is_active" := VBool active]> ∅))).

Definition team_rows : list row :=
  [team_row 1 "Alpha Team" (VStr "open") true;
   team_row 2 "Beta Squad" (VStr "open") true;
   team_row 3 "Gamma" VNone true].

(** The backend of the samples enforces the uniqueness of [name]. *)
Definition unique_names (old new : list row) : option IntegrityError :=
  if bool_decide (NoDup ((λ r, cell r "name") <$> new)) then None
  else Some {| orig_args := ["duplicate key value violates unique constraint: Key (name)=(Alpha Team) already exists."];
               exc_str := "(IntegrityError) duplicate key value violates unique constraint" |}.

Definition team_world (heap : list pyobj) : World :=
  {| w_heap := heap; w_rows := team_rows; w_seq := 4; w_clock := 100;
     w_check := unique_names; w_log := [] |}.

Definition alpha : instance :=
  {| inst_attrs := team_row 1 "Alpha Team" (VStr "open") true; inst_persistent := true |}.

Definition AuditEntry : model :=
  {| cls_name := "AuditEntry"; cls_has_name := false; cls_soft_delete := false;
     cls_own_columns := ["status"]; cls_search_like_fields := ∅ |}.

Definition status_open : pydict value := [("status", VStr "open")].

Definition search_alpha_open : pydict value :=
  [("search_like_string", VStr "alpha team"); ("status", VStr "open")].

Definition search_empty : pydict value := [("search_like_string", VStr "")].

Definition name_is_alpha : list clause := [CEq "name" (VStr "Alpha Team")].

(** ** What a match is

    The declarative reading of the patterns: [matches r s g s' g'] says
    that [r] takes a prefix off [s], leaving [s'], and turns group 1 from
    [g] into [g']. *)

Definition no_newline (a : list ascii) : Prop := Forall (λ c, c ≠ newline) a.

Inductive matches : regex → list ascii → option (list ascii) →
                    list ascii → option (list ascii) → Prop :=
| M_eps s g : matches REps s g s g
| M_lit c s g : matches (RLit c) (c :: s) g s g
| M_star a s g : no_newline a → matches RDotStar (a ++ s) g s g
| M_group r a s g g' :
    matches r (a ++ s) g s g' → matches (RGroup r) (a ++ s) g s (Some a)
| M_seq r1 r2 s g s1 g1 s2 g2 :
    matches r1 s g s1 g1 → matches r2 s1 g1 s2 g2 → matches (RSeq r1 r2) s g s2 g2
| M_alt_l r1 r2 s g s' g' : matches r1 s g s' g' → matches (RAlt r1 r2) s g s' g'
| M_alt_r r1 r2 s g s' g' : matches r2 s g s' g' → matches (RAlt r1 r2) s g s' g'
| M_end s g : at_end s = true → matches REnd s g s g.

Lemma matches_suffix r s g s' g' :
  matches r s g s' g' → ∃ a, s = a ++ s'.
Proof.
  induction 1 as [s g|c s g|a s g _|r a s g g' _ _|r1 r2 s g s1 g1 s2 g2 _ [a ->] _ [b ->]
                 | | |s g _].
  - by exists [].
  - by exists [c].
  - by exists a.
  - by exists a.
  - exists (a ++ b). by rewrite <- app_assoc.
  - done.
  - done.
  - by exists [].
Qed.

Lemma take_app_suffix (a s : list ascii) :
  take (length (a ++ s) - length s) (a ++ s) = a.
Proof.
  rewrite length_app.
  replace (length a + length s - length s) with (length a) by lia.
  by rewrite take_app_length.
Qed.

Section MatcherFacts.
Context {X : Type}.
Implicit Types (k : list ascii → option (list ascii) → option X).

Lemma dot_star_sound (k1 : list ascii → option X) s x :
  dot_star k1 s = Some x →
  ∃ a s', s = a ++ s' ∧ no_newline a ∧ k1 s' = Some x.
Proof.
  induction s as [|c t IH]; simpl; intros H.
  - exists [], []. by repeat split; [constructor|].
  - destruct (decide (c = newline)) as [->|Hc].
    + exists [], (newline :: t). by repeat split; [constructor|].
    + destruct (dot_star k1 t) as [y|] eqn:Ht.
      * injection H as ->. destruct (IH eq_refl) as (a & s' & -> & Ha & Hk).
        exists (c :: a), s'. repeat split; [by constructor|done].
      * exists [], (c :: t). by repeat split; [constructor|].
Qed.

Lemma dot_star_total (k1 : list ascii → option X) s x :
  k1 s = Some x → is_Some (dot_star k1 s).
Proof.
  destruct s as [|c t]; simpl; intros Hk; [by eauto|].
  destruct (decide (c = newline)); [by eauto|].
  destruct (dot_star k1 t); by eauto.
Qed.

(** The star is greedy: when the continuation accepts after [a], the
    result comes from a split at least as far to the right. *)
Lemma dot_star_greedy (k1 : list ascii → option X) a s' x :
  no_newline a → k1 s' = Some x →
  ∃ b s'' y, a ++ s' = b ++ s'' ∧ (length a ≤ length b)%nat ∧ no_newline b ∧
             k1 s'' = Some y ∧ dot_star k1 (a ++ s') = Some y.
Proof.
  intros Ha Hk. induction Ha as [|c a Hc Ha IH].
  - destruct (dot_star_total k1 s' x Hk) as [y Hy].
    destruct (dot_star_sound k1 s' y Hy) as (b & s'' & -> & Hb & Hk').
    exists b, s'', y. repeat split; simpl; [lia|done..].
  - destruct IH as (b & s'' & y & E & Hl & Hb & Hk' & Hd).
    exists (c :: b), s'', y. simpl. rewrite Hd, E.
    destruct (decide (c = newline)); [done|].
    repeat split; [lia|by constructor|done].
Qed.

Lemma rmatch_sound r s g k x :
  rmatch r s g k = Some x →
  ∃ s' g', matches r s g s' g' ∧ k s' g' = Some x.
Proof.
  revert s g k.
  induction r as [|c| |r IH|r1 IH1 r2 IH2|r1 IH1 r2 IH2|]; intros s g k; simpl; intros H.
  - exists s, g. split; [constructor|done].
  - destruct s as [|c' t]; [done|]. destruct (decide (c' = c)) as [->|]; [|done].
    exists t, g. split; [constructor|done].
  - destruct (dot_star_sound _ _ _ H) as (a & s' & -> & Ha & Hk).
    exists s', g. split; [by constructor|done].
  - destruct (IH _ _ _ H) as (s' & g' & Hm & Hk).
    destruct (matches_suffix _ _ _ _ _ Hm) as [a ->].
    rewrite take_app_suffix in Hk.
    exists s', (Some a). split; [by econstructor|done].
  - destruct (IH1 _ _ _ H) as (s1 & g1 & Hm1 & H1).
    destruct (IH2 _ _ _ H1) as (s2 & g2 & Hm2 & H2).
    exists s2, g2. split; [by econstructor|done].
  - destruct (rmatch r1 s g k) as [y|] eqn:E1.
    + injection H as ->. destruct (IH1 _ _ _ E1) as (s' & g' & Hm & Hk).
      exists s', g'. split; [by apply M_alt_l|done].
    + destruct (IH2 _ _ _ H) as (s' & g' & Hm & Hk).
      exists s', g'. split; [by apply M_alt_r|done].
  - destruct (at_end s) eqn:E; [|done].
    exists s, g. split; [by constructor|done].
Qed.

Lemma rmatch_complete r s g s' g' :
  matches r s g s' g' →
  ∀ k x, k s' g' = Some x → is_Some (rmatch r s g k).
Proof.
  induction 1 as [s g|c s g|a s g Ha|r a s g g' Hm IH
                 |r1 r2 s g s1 g1 s2 g2 _ IH1 _ IH2
                 |r1 r2 s g s' g' _ IH|r1 r2 s g s' g' _ IH|s g He];
    intros k x Hk; simpl.
  - by eauto.
  - by rewrite decide_True.
  - destruct (dot_star_greedy (λ s', k s' g) a s x Ha Hk) as (?&?&y&?&?&?&?&->).
    by eauto.
  - apply (IH _ x). by rewrite take_app_suffix.
  - destruct (IH2 k x Hk) as [y Hy]. by apply (IH1 _ y).
  - destruct (IH k x Hk) as [y ->]. by eauto.
  - destruct (rmatch r1 s g k); [by eauto|]. by apply (IH k x).
  - rewrite He. by eauto.
Qed.
End MatcherFacts.

(** The part of both patterns before the alternation: the literal
    [Key (], the group, [)=(], any text and the closing words [tail]. *)
Definition key_re (tail : string) : regex :=
  RSeq (rstr (chars "Key ("))
  (RSeq (RGroup RDotStar)
  (RSeq (rstr (chars ")=("))
  (RSeq RDotStar
        (rstr (chars tail))))).

Lemma RE_ALREADY_EXIST_COMPILED_eq :
  RE_ALREADY_EXIST_COMPILED = RAlt (key_re ") already exists") REnd.
Proof. reflexivity. Qed.

Lemma RE_NOT_PRESENT_COMPILED_eq :
  RE_NOT_PRESENT_COMPILED = RAlt (key_re ") is not present in table") REnd.
Proof. reflexivity. Qed.

Lemma matches_rstr l s g s' g' :
  matches (rstr l) s g s' g' ↔ s = l ++ s' ∧ g' = g.
Proof.
  revert s. induction l as [|c l IH]; intros s; simpl; split.
  - by inversion 1.
  - intros [-> ->]. constructor.
  - inversion 1 as [| | | |? ? ? ? s1 g1 ? ? H1 H2| | |]; subst.
    inversion H1; subst. apply IH in H2 as [-> ->]. done.
  - intros [-> ->]. eapply M_seq; [constructor|]. by apply IH.
Qed.

Lemma matches_seq_inv r1 r2 s g s' g' :
  matches (RSeq r1 r2) s g s' g' →
  ∃ s1 g1, matches r1 s g s1 g1 ∧ matches r2 s1 g1 s' g'.
Proof. inversion 1; subst; eauto. Qed.

Lemma matches_star_inv s g s' g' :
  matches RDotStar s g s' g' → ∃ a, s = a ++ s' ∧ no_newline a ∧ g' = g.
Proof. inversion 1; subst; eauto. Qed.

Lemma matches_group_star_inv s g s' g' :
  matches (RGroup RDotStar) s g s' g' →
  ∃ a, s = a ++ s' ∧ no_newline a ∧ g' = Some a.
Proof.
  inversion 1 as [| | |? a ? ? g1 Hm| | | |]; subst.
  apply matches_star_inv in Hm as (a' & E & Ha & _).
  apply app_inv_tail in E as <-. eauto.
Qed.

Lemma matches_key_shape l1 l2 l3 s g s' g' :
  matches (RSeq (rstr l1) (RSeq (RGroup RDotStar)
            (RSeq (rstr l2) (RSeq RDotStar (rstr l3))))) s g s' g' ↔
  ∃ a v, s = l1 ++ a ++ l2 ++ v ++ l3 ++ s' ∧
         no_newline a ∧ no_newline v ∧ g' = Some a.
Proof.
  split.
  - intros H.
    apply matches_seq_inv in H as (s1 & g1 & H1 & H).
    apply matches_rstr in H1 as [-> ->].
    apply matches_seq_inv in H as (s2 & g2 & H2 & H).
    apply matches_group_star_inv in H2 as (a & -> & Ha & ->).
    apply matches_seq_inv in H as (s3 & g3 & H3 & H).
    apply matches_rstr in H3 as [-> ->].
    apply matches_seq_inv in H as (s4 & g4 & H4 & H).
    apply matches_star_inv in H4 as (v & -> & Hv & ->).
    apply matches_rstr in H as [-> ->].
    by exists a, v.
  - intros (a & v & -> & Ha & Hv & ->).
    eapply M_seq; [by apply matches_rstr|].
    eapply M_seq; [apply M_group with (g' := g); by constructor|].
    eapply M_seq; [by apply matches_rstr|].
    eapply M_seq; [by constructor|]. by apply matches_rstr.
Qed.

Lemma matches_key_re tail s g s' g' :
  matches (key_re tail) s g s' g' ↔
  ∃ a v, s = chars "Key (" ++ a ++ chars ")=(" ++ v ++ chars tail ++ s' ∧
         no_newline a ∧ no_newline v ∧ g' = Some a.
Proof. apply matches_key_shape. Qed.

(** ** Text and characters *)

Lemma text_chars s : text (chars s) = s.
Proof. apply string_of_list_ascii_of_string. Qed.

Lemma chars_text l : chars (text l) = l.
Proof. apply list_ascii_of_string_of_list_ascii. Qed.

Lemma text_app a b : text (a ++ b) = text a +:+ text b.
Proof. unfold text. induction a as [|c a IH]; simpl; [done|]. by rewrite IH. Qed.

Lemma chars_app s t : chars (s +:+ t) = chars s ++ chars t.
Proof. unfold chars. induction s as [|c s IH]; simpl; [done|]. by rewrite IH. Qed.

(** ** The first element of [findall] *)

(** The leftmost position at which the pattern matches, and group 1 of
    the match the backtracking finds there. *)
Fixpoint search (re : regex) (s : list ascii) : option (option (list ascii)) :=
  match match_at false re s with
  | Some (g, _) => Some g
  | None => match s with [] => None | _ :: t => search re t end
  end.

Lemma head_scan re s : head (scan re 0 s) = group_text <$> search re s.
Proof.
  induction s as [|c t IH]; simpl.
  - by destruct (match_at false re []) as [[g [|n]]|].
  - by destruct (match_at false re (c :: t)) as [[g [|n]]|].
Qed.

Lemma search_sound re s og :
  search re s = Some og →
  ∃ pre s1 n, s = pre ++ s1 ∧ match_at false re s1 = Some (og, n).
Proof.
  induction s as [|c t IH]; simpl.
  - destruct (match_at false re []) as [[g n]|] eqn:E; [|done].
    intros [= ->]. by exists [], [], n.
  - destruct (match_at false re (c :: t)) as [[g n]|] eqn:E.
    + intros [= ->]. by exists [], (c :: t), n.
    + intros H. destruct (IH H) as (pre & s1 & n & -> & Hm).
      by exists (c :: pre), s1, n.
Qed.

Lemma search_skip re pre s1 :
  (∀ p q, pre = p ++ q → q ≠ [] → match_at false re (q ++ s1) = None) →
  search re (pre ++ s1) = search re s1.
Proof.
  induction pre as [|c pre IH]; intros H; [done|].
  pose proof (H [] (c :: pre) eq_refl ltac:(done)) as H0.
  simpl in *. rewrite H0.
  apply IH. intros p q -> Hq. by apply (H (c :: p) q).
Qed.

(** What one attempt of either pattern can yield: the key detail with its
    group, or the empty match of [$], whose group is unset. *)
Lemma match_at_key_inv b tail s og n :
  match_at b (RAlt (key_re tail) REnd) s = Some (og, n) →
  (∃ a v post, s = chars "Key (" ++ a ++ chars ")=(" ++ v ++ chars tail ++ post ∧
               no_newline a ∧ no_newline v ∧ og = Some a)
  ∨ (og = None ∧ at_end s = true).
Proof.
  unfold match_at. intros H.
  apply rmatch_sound in H as (s' & g' & Hm & Hk).
  assert (g' = og) as ->.
  { destruct (b && (length s' =? length s)%nat); by simplify_eq. }
  inversion Hm as [| | | | |? ? ? ? ? ? Hl|? ? ? ? ? ? Hr|]; subst.
  - apply matches_key_re in Hl as (a & v & -> & Ha & Hv & ->).
    left. by exists a, v, s'.
  - inversion Hr; subst. by right.
Qed.

(** The message carries the detail [Key (cols)=(v)] followed by the
    closing words [tail]; neither [cols] nor [v] spans a line break. *)
Definition key_detail (tail msg cols : string) : Prop :=
  ∃ pre v post : string,
    msg = pre +:+ "Key (" +:+ cols +:+ ")=(" +:+ v +:+ tail +:+ post ∧
    no_newline (chars cols) ∧ no_newline (chars v).

Lemma first_group_sound tail info cols :
  first_group (RAlt (key_re tail) REnd) info = Some cols →
  ∃ msg rest, info = msg :: rest ∧ key_detail tail msg cols ∧ cols ≠ "".
Proof.
  unfold first_group. destruct info as [|msg rest]; [done|].
  destruct (findall _ msg) as [|g gs] eqn:E; [done|].
  destruct (decide (g = "")) as [|Hg]; [done|]. intros [= <-].
  exists msg, rest. split; [done|]. split; [|done].
  assert (head (findall (RAlt (key_re tail) REnd) msg) = Some g) as Hh by by rewrite E.
  unfold findall in Hh. rewrite head_scan in Hh.
  destruct (search _ (chars msg)) as [og|] eqn:Es; [|done].
  injection Hh as <-.
  apply search_sound in Es as (pre & s1 & n & Hs & Hm).
  apply match_at_key_inv in Hm as [(a & v & post & -> & Ha & Hv & ->)|[-> _]]; [|done].
  exists (text pre), (text v), (text post).
  change (group_text (Some a)) with (text a).
  rewrite !chars_text. split; [|done].
  rewrite <- (text_chars msg) at 1. rewrite Hs.
  rewrite !text_app. by rewrite !text_chars.
Qed.

Lemma rmatch_rstr {X} l s g (k : list ascii → option (list ascii) → option X) :
  rmatch (rstr l) (l ++ s) g k = k s g.
Proof. induction l as [|c l IH]; simpl; [done|]. by rewrite decide_True. Qed.

Lemma matches_key_tail l2 l3 s g s' g' :
  matches (RSeq (rstr l2) (RSeq RDotStar (rstr l3))) s g s' g' ↔
  ∃ v, s = l2 ++ v ++ l3 ++ s' ∧ no_newline v ∧ g' = g.
Proof.
  split.
  - intros H.
    apply matches_seq_inv in H as (s1 & g1 & H1 & H).
    apply matches_rstr in H1 as [-> ->].
    apply matches_seq_inv in H as (s2 & g2 & H2 & H).
    apply matches_star_inv in H2 as (v & -> & Hv & ->).
    apply matches_rstr in H as [-> ->]. by exists v.
  - intros (v & -> & Hv & ->).
    eapply M_seq; [by apply matches_rstr|].
    eapply M_seq; [by constructor|]. by apply matches_rstr.
Qed.

Lemma rmatch_group_star_greedy {X} (k : list ascii → option (list ascii) → option X)
    a s' g x :
  no_newline a → k s' (Some a) = Some x →
  ∃ more s'' y, a ++ s' = (a ++ more) ++ s'' ∧ no_newline (a ++ more) ∧
                k s'' (Some (a ++ more)) = Some y ∧
                rmatch (RGroup RDotStar) (a ++ s') g k = Some y.
Proof.
  intros Ha Hk. cbn [rmatch].
  set (K := λ s1, k s1 (Some (take (length (a ++ s') - length s1) (a ++ s')))).
  assert (K s' = Some x) as HK by (unfold K; by rewrite take_app_suffix).
  destruct (dot_star_greedy K a s' x Ha HK) as (b & s'' & y & E & Hl & Hb & Hy & Hd).
  assert (b = a ++ take (length b - length a) s') as Eb.
  { rewrite <- (take_app_length b s'') at 1. rewrite <- E, take_app.
    f_equal. by rewrite take_ge. }
  exists (take (length b - length a) s'), s'', y.
  rewrite <- Eb. repeat split; [done..| |done].
  unfold K in Hy. by rewrite E, take_app_suffix in Hy.
Qed.


Lemma chars_length s : length (chars s) = String.length s.
Proof. unfold chars. induction s as [|c s IH]; simpl; [done|]. by rewrite IH. Qed.

Lemma search_here re s g n :
  match_at false re s = Some (g, n) → search re s = Some g.
Proof. intros H. destruct s; simpl; by rewrite H. Qed.

(** No place of the message before the end of [pre] starts with the
    literal [Key (]. *)
Definition leftmost_key (pre msg : string) : Prop :=
  ∀ p z : string, msg = p +:+ "Key (" +:+ z →
                  (String.length pre ≤ String.length p)%nat.


(** ** The error classifier *)

Definition unique_violation (cls : model) (cols : string) (exc : IntegrityError) : exn :=
  DatabaseValidationError ("Unique constraint violated for " +:+ cls_name cls) cols exc.


Definition integrity_violation (cls : model) (exc : IntegrityError) : exn :=
  DatabaseIntegrityError ("Integrity error for " +:+ cls_name cls) exc.

Definition integrity_log (cls : model) (exc : IntegrityError) : LogRecord :=
  {| log_level := ERROR;
     log_msg := "Integrity error for " +:+ cls_name cls +:+ ": " +:+ exc_str exc |}.

(** ** Running computations *)

Lemma bind_run {A B} (m : M A) (f : A → M B) w :
  (x ← m; f x) w =
  match m w with
  | (inr x, w') => f x w'
  | (inl e, w') => (inl e, w')
  end.
Proof. reflexivity. Qed.

Lemma bind_ok {A B} (m : M A) (f : A → M B) w x w' :
  m w = (inr x, w') → (x ← m; f x) w = f x w'.
Proof. intros H. by rewrite bind_run, H. Qed.

Lemma bind_raise {A B} (m : M A) (f : A → M B) w e w' :
  m w = (inl e, w') → (x ← m; f x) w = (inl e, w').
Proof. intros H. by rewrite bind_run, H. Qed.

Lemma ret_bind {A B} (a : A) (f : A → M B) w : (x ← mret a; f x) w = f a w.
Proof. reflexivity. Qed.

Lemma logger_run lv msg w :
  logger lv msg w = (inr (), add_log {| log_level := lv; log_msg := msg |} w).
Proof. reflexivity. Qed.

Lemma read_dict_ok l d w :
  w_heap w !! l = Some (ODict d) → read_dict l w = (inr d, w).
Proof. unfold read_dict. by intros ->. Qed.

Lemma read_list_ok l cs w :
  w_heap w !! l = Some (OList cs) → read_list l w = (inr cs, w).
Proof. unfold read_list. by intros ->. Qed.

Lemma read_inst_ok l o w :
  w_heap w !! l = Some (OInst o) → read_inst l w = (inr o, w).
Proof. unfold read_inst. by intros ->. Qed.

(** A computation that only reads: it returns [g x] and leaves the
    world alone. *)
Lemma map_m_ok {A B} (f : A → M B) (g : A → B) (l : list A) w :
  Forall (λ x, f x w = (inr (g x), w)) l →
  map_m f l w = (inr (g <$> l), w).
Proof.
  induction 1 as [|x l Hx _ IH]; simpl; [done|].
  rewrite (bind_ok _ _ _ _ _ Hx). by rewrite (bind_ok _ _ _ _ _ IH).
Qed.

Lemma map_m_raise {A B} (f : A → M B) (g : A → B) (l1 l2 : list A) x e w :
  Forall (λ x, f x w = (inr (g x), w)) l1 →
  f x w = (inl e, w) →
  map_m f (l1 ++ x :: l2) w = (inl e, w).
Proof.
  intros H Hx. induction H as [|y l1 Hy _ IH]; simpl.
  - by rewrite (bind_raise _ _ _ _ _ Hx).
  - rewrite (bind_ok _ _ _ _ _ Hy). by rewrite (bind_raise _ _ _ _ _ IH).
Qed.

Lemma getattr_cls_ok cls name w :
  name ∈ columns cls → getattr_cls cls name w = (inr name, w).
Proof. intros H. unfold getattr_cls. by rewrite decide_True. Qed.

Lemma getattr_cls_raise cls name w :
  name ∉ columns cls → getattr_cls cls name w = (inl (AttributeError name), w).
Proof. intros H. unfold getattr_cls. by rewrite decide_False. Qed.

(** The first element of a list that fails a decidable test, with the
    elements before it, which all pass. *)
Lemma first_failure {A} (P : A → Prop) `{!∀ x, Decision (P x)} (l : list A) :
  ¬ Forall P l → ∃ l1 x l2, l = l1 ++ x :: l2 ∧ Forall P l1 ∧ ¬ P x.
Proof.
  induction l as [|y l IH]; intros Hnot; [by destruct Hnot|].
  destruct (decide (P y)) as [Hy|Hy].
  - destruct IH as (l1 & x & l2 & -> & H1 & Hx).
    { intros Hl. apply Hnot. by constructor. }
    exists (y :: l1), x, l2. repeat split; [by constructor|done].
  - exists [], y, l. by repeat split.
Qed.

(** ** The sort builder *)

Definition sort_entries (s : sorting_arg) : pydict string :=
  match s with
  | SortingObj b => sort_dict b
  | SortingDict d => d
  end.

Definition direction_of (d : string) : option direction :=
  if decide (d = "asc") then Some Asc
  else if decide (d = "desc") then Some Desc
  else None.

(** The ordering element the builder makes of one valid entry. *)
Definition ordering_of (kv : string * string) : order_clause :=
  {| oc_field := kv.1;
     oc_dir := default Asc (direction_of kv.2);
     oc_nulls_last := true |}.

Lemma build_one_ordering cls (kv : string * string) w :
  kv.1 ∈ columns cls → is_Some (direction_of kv.2) →
  (field ← getattr_cls cls kv.1; oc ← column_ordering field kv.2; mret (nulls_last oc)) w
  = (inr (ordering_of kv), w).
Proof.
  intros Hc [d Hd]. rewrite (bind_ok _ _ _ _ _ (getattr_cls_ok _ _ _ Hc)).
  unfold column_ordering, ordering_of, direction_of in *.
  destruct (decide (kv.2 = "asc")); [done|].
  destruct (decide (kv.2 = "desc")); [done|]. done.
Qed.

Lemma _build_sorting_ok cls sorting w :
  Forall (λ kv, kv.1 ∈ columns cls ∧ is_Some (direction_of kv.2)) (sort_entries sorting) →
  _build_sorting cls sorting w = (inr (ordering_of <$> sort_entries sorting), w).
Proof.
  intros H. unfold _build_sorting. fold (sort_entries sorting).
  apply map_m_ok. eapply Forall_impl; [done|].
  intros kv [? ?]. by apply build_one_ordering.
Qed.

(** A NULL cell sorts after a non-NULL one under a clause with the
    [nulls_last] modifier, whichever the direction. *)
Lemma nulls_last_compare oc r1 r2 :
  oc_nulls_last oc = true →
  cell r1 (oc_field oc) = VNone → cell r2 (oc_field oc) ≠ VNone →
  clause_compare oc r1 r2 = Gt ∧ clause_compare oc r2 r1 = Lt.
Proof.
  intros Hn H1 H2. unfold clause_compare, nulls_after. rewrite H1, Hn. simpl.
  by destruct (cell r2 (oc_field oc)).
Qed.

(** C7: for an ordered mapping of field name to direction (asc or desc),
    the sort builder makes exactly one ordering clause per entry, in the
    order of the mapping, each on the entry's field and in its direction,
    and each placing a NULL cell after a non-NULL one whichever the
    direction; when an entry names no attribute of the class the builder
    fails with the attribute lookup error of the first such name. *)
Theorem sort_builder_clauses (cls : model) (sorting : sorting_arg) (w : World) :
  let entries := sort_entries sorting in
  Forall (λ kv, kv.2 = "asc" ∨ kv.2 = "desc") entries →
  (Forall (λ kv, kv.1 ∈ columns cls) entries →
   ∃ ocs, _build_sorting cls sorting w = (inr ocs, w) ∧
          length ocs = length entries ∧
          ∀ i kv, entries !! i = Some kv →
            ∃ oc, ocs !! i = Some oc ∧
                  oc_field oc = kv.1 ∧
                  direction_of kv.2 = Some (oc_dir oc) ∧
                  ∀ r1 r2, cell r1 (kv.1) = VNone → cell r2 (kv.1) ≠ VNone →
                           clause_compare oc r1 r2 = Gt ∧ clause_compare oc r2 r1 = Lt)
  ∧ (¬ Forall (λ kv, kv.1 ∈ columns cls) entries →
     ∃ name, name ∈ dict_keys entries ∧ (name ∉ columns cls) ∧
             _build_sorting cls sorting w = (inl (AttributeError name), w)).
Proof.
  intros entries Hdir. subst entries.
  set (entries := sort_entries sorting) in *.
  assert (Forall (λ kv : string * string, is_Some (direction_of kv.2)) entries) as Hd.
  { eapply Forall_impl; [apply Hdir|]. intros kv [->| ->]; (by eexists). }
  split.
  - intros Hcols. exists (ordering_of <$> entries). split; [|split].
    + apply _build_sorting_ok. by apply Forall_and.
    + by rewrite length_fmap.
    + intros i kv Hi. exists (ordering_of kv).
      split; [by rewrite list_lookup_fmap, Hi|]. split; [done|]. split.
      * rewrite Forall_lookup in Hd. destruct (Hd i kv Hi) as [d Hk].
        simpl. by rewrite Hk.
      * intros r1 r2 Hn1 Hn2. by apply nulls_last_compare.
  - intros Hnot.
    destruct (first_failure _ _ Hnot) as (l1 & x & l2 & E & H1 & Hx).
    exists x.1. split; [|split; [done|]].
    + unfold dict_keys. rewrite E, fmap_app, fmap_cons. set_solver.
    + unfold _build_sorting. fold (sort_entries sorting). fold entries. rewrite E.
      apply (map_m_raise _ ordering_of).
      * rewrite E in Hd. apply Forall_app in Hd as [Hd1 _].
        pose proof (conj H1 Hd1) as H. apply Forall_and in H.
        eapply Forall_impl; [apply H|].
        intros kv [? ?]. by apply build_one_ordering.
      * by rewrite (bind_raise _ _ _ _ _ (getattr_cls_raise _ _ _ Hx)).
Qed.

Lemma sort_builder_clauses_witness :
  ∃ ocs, _build_sorting Team (SortingDict [("created_at", "desc"); ("name", "asc")]) empty_world
         = (inr ocs, empty_world) ∧ length ocs = 2.
Proof.
  destruct (sort_builder_clauses Team
              (SortingDict [("created_at", "desc"); ("name", "asc")]) empty_world)
    as [Hok _].
  { simpl. repeat (apply List.Forall_cons; [simpl; auto|]). apply List.Forall_nil. }
  destruct Hok as (ocs & H & Hl & _).
  { simpl. repeat (apply List.Forall_cons; [apply (bool_decide_unpack _); by vm_compute|]).
    apply List.Forall_nil. }
  by exists ocs.
Defined.

(** ** Predicates on rows *)

Definition is_ttrue (t : tv) : bool :=
  match t with TTrue => true | _ => false end.

Lemma sql_eq_true x v : sql_eq x v = TTrue ↔ x = v.
Proof.
  unfold sql_eq, tv_of_bool.
  destruct v; destruct x; try case_bool_decide; naive_solver.
Qed.

Lemma is_ttrue_sql_eq x v : is_ttrue (sql_eq x v) = bool_decide (x = v).
Proof.
  case_bool_decide as H.
  - apply sql_eq_true in H. by rewrite H.
  - destruct (sql_eq x v) eqn:E; [|done..]. by apply sql_eq_true in E.
Qed.

Lemma foldl_and_true t ts :
  is_ttrue (foldl tv_and t ts) = is_ttrue t && forallb is_ttrue ts.
Proof.
  revert t. induction ts as [|u ts IH]; intros t; simpl.
  - by rewrite andb_true_r.
  - rewrite IH. by destruct t, u.
Qed.


Lemma holds_eq r col v : holds r (CEq col v) = bool_decide (cell r col = v).
Proof. unfold holds. simpl. rewrite <- is_ttrue_sql_eq. by destruct (sql_eq _ _). Qed.

(** A conjunction keeps the row when each of its operands does. *)
Lemma holds_and r cs : holds r (CAnd cs) = forallb (holds r) cs.
Proof.
  unfold holds at 1. simpl.
  transitivity (forallb is_ttrue (omap (eval_clause r) cs)).
  - destruct (omap (eval_clause r) cs) as [|t ts]; [done|].
    simpl. rewrite <- foldl_and_true. by destruct (foldl tv_and t ts).
  - induction cs as [|c cs IH]; [done|]. simpl. unfold holds at 1.
    destruct (eval_clause r c) as [t|]; simpl;
      change (list_omap clause tv (eval_clause r) cs) with (omap (eval_clause r) cs);
      rewrite IH; [by destruct t|done].
Qed.


Lemma insert_row_nil r l : insert_row [] r l = r :: l.
Proof. by destruct l. Qed.

Lemma sort_rows_nil l : sort_rows [] l = l.
Proof.
  unfold sort_rows. induction l as [|r l IH]; [done|].
  simpl. by rewrite IH, insert_row_nil.
Qed.

Lemma length_insert_row ocs r l : length (insert_row ocs r l) = S (length l).
Proof.
  induction l as [|y l IH]; [done|]. simpl.
  destruct (rows_compare ocs r y); simpl; by rewrite ?IH.
Qed.

(** Sorting neither drops nor adds a row. *)
Lemma length_sort_rows ocs l : length (sort_rows ocs l) = length l.
Proof.
  unfold sort_rows. induction l as [|r l IH]; [done|].
  simpl. by rewrite length_insert_row, IH.
Qed.

Lemma insert_row_perm ocs r l : insert_row ocs r l ≡ₚ r :: l.
Proof.
  induction l as [|y l IH]; [done|]. simpl.
  destruct (rows_compare ocs r y); [done..|].
  rewrite IH. apply Permutation_swap.
Qed.

Lemma sort_rows_perm ocs l : sort_rows ocs l ≡ₚ l.
Proof.
  unfold sort_rows. induction l as [|r l IH]; [done|].
  simpl. by rewrite insert_row_perm, IH.
Qed.

Lemma find_some_filter {A} (f : A → bool) l :
  List.find f l = head (List.filter f l).
Proof. induction l as [|x l IH]; [done|]. simpl. by destruct (f x). Qed.

Lemma unique_from_head seen (l : list row) :
  head (unique_from seen l) = List.find (λ r, negb (bool_decide (cell r "id" ∈ seen))) l.
Proof.
  induction l as [|r l IH]; [done|]. simpl.
  destruct (bool_decide (cell r "id" ∈ seen)); simpl; [done|done].
Qed.

Lemma head_unique (l : list row) : head (unique l) = head l.
Proof.
  unfold unique. rewrite unique_from_head. by destruct l as [|r l].
Qed.

Lemma get_one_by_filter_run cls conditions w :
  get_one_by_filter cls conditions w
  = (inr (List.find (λ r, forallb (holds r) conditions) (w_rows w)), w).
Proof.
  unfold get_one_by_filter, execute, run_query, matching. simpl.
  rewrite bind_run. simpl. unfold mret, M_ret. f_equal. f_equal.
  rewrite sort_rows_nil, head_unique, find_some_filter. f_equal.
  apply filter_ext. intros r. by rewrite holds_and, andb_true_r.
Qed.

(** ** Single-row lookups *)


Lemma find_some_elem {A} (f : A → bool) (l : list A) x :
  List.find f l = Some x → x ∈ l ∧ f x = true.
Proof.
  induction l as [|y l IH]; [done|]. simpl.
  destruct (f y) eqn:E.
  - intros [= ->]. split; [apply list_elem_of_here|done].
  - intros H. destruct (IH H). split; [by apply list_elem_of_further|done].
Qed.



(** ** Attribute assignment and update *)

Lemma set_heap_same w : set_heap (w_heap w) w = w.
Proof. by destruct w. Qed.

Lemma store_run l o w : store l o w = (inr (), set_heap (<[l := o]> (w_heap w)) w).
Proof. done. Qed.

Definition with_attrs (o : instance) (attrs : gmap string value) : instance :=
  {| inst_attrs := attrs; inst_persistent := inst_persistent o |}.

(** The attribute dictionary after the assignments of [data], in order. *)
Definition assign_all (data : pydict value) (attrs : gmap string value)
  : gmap string value :=
  foldl (λ a kv, <[kv.1 := kv.2]> a) attrs data.

Lemma setattr_run self k v o w :
  w_heap w !! self = Some (OInst o) →
  setattr self k v w
  = (inr (), set_heap (<[self := OInst (with_attrs o (<[k := v]> (inst_attrs o)))]> (w_heap w)) w).
Proof.
  intros H. unfold setattr. by rewrite (bind_ok _ _ _ _ _ (read_inst_ok _ _ _ H)).
Qed.


Lemma assign_all_lookup_other data attrs k :
  k ∉ dict_keys data → assign_all data attrs !! k = attrs !! k.
Proof.
  revert attrs. induction data as [|[k' v] data IH]; intros attrs Hk; [done|].
  simpl. rewrite IH.
  - apply lookup_insert_ne. intros ->. apply Hk. apply list_elem_of_here.
  - intros H. apply Hk. by apply list_elem_of_further.
Qed.

Lemma assign_all_lookup data attrs k v :
  NoDup (dict_keys data) → (k, v) ∈ data → assign_all data attrs !! k = Some v.
Proof.
  revert attrs. induction data as [|[k' v'] data IH]; intros attrs Hnd Hin.
  - by apply elem_of_nil in Hin.
  - apply NoDup_cons in Hnd as [Hk' Hnd]. simpl.
    apply elem_of_cons in Hin as [[= -> ->]|Hin].
    + rewrite assign_all_lookup_other by done. apply lookup_insert_eq.
    + by apply IH.
Qed.




(** ** Saving a persistent instance *)

(** The classifier always raises, whatever is sequenced after it, and it
    touches nothing but the log. *)
Lemma raise_validation_bind {A B} cls exc (f : A → M B) w :
  (x ← _raise_validation_exception cls exc; f x) w
  = _raise_validation_exception cls exc w.
Proof.
  rewrite bind_run. unfold _raise_validation_exception.
  destruct (first_group RE_ALREADY_EXIST_COMPILED _); [done|].
  destruct (first_group RE_NOT_PRESENT_COMPILED _); done.
Qed.

Lemma raise_validation_raises {A} cls exc w :
  ∃ e w', _raise_validation_exception (A := A) cls exc w = (inl e, w') ∧
          w_rows w' = w_rows w ∧ w_heap w' = w_heap w.
Proof.
  unfold _raise_validation_exception.
  destruct (first_group RE_ALREADY_EXIST_COMPILED _); [by eexists _, _|].
  destruct (first_group RE_NOT_PRESENT_COMPILED _); by eexists _, _.
Qed.

(** The world after a successful save of a persistent instance whose row
    the flush left as [r]. *)
Definition saved_world (cls : model) (self : loc) (o : instance)
    (rows' : list row) (r : row) (w : World) : World :=
  {| w_heap := <[self := OInst {| inst_attrs := r ∪ inst_attrs o;
                                  inst_persistent := true |}]> (w_heap w);
     w_rows := rows';
     w_seq := w_seq w; w_clock := w_clock w; w_check := w_check w;
     w_log := w_log w ++ [{| log_level := INFO;
                             log_msg := cls_name cls +:+ " with id=" +:+
                                        py_str (attr o "id") +:+ " is updated" |}] |}.

Lemma save_persistent_run cls self o w :
  w_heap w !! self = Some (OInst o) →
  inst_persistent o = true →
  attr o "id" ≠ VNone →
  save cls self w =
  match w_check w (w_rows w) (flushed_rows cls o w) with
  | Some exc => _raise_validation_exception cls exc w
  | None =>
      match List.find (has_id (attr o "id")) (flushed_rows cls o w) with
      | Some r => (inr (), saved_world cls self o (flushed_rows cls o w) r w)
      | None => (inl (InvalidRequestError "Could not refresh instance"),
                 add_log {| log_level := INFO;
                            log_msg := cls_name cls +:+ " with id=" +:+
                                       py_str (attr o "id") +:+ " is updated" |}
                   (set_rows (flushed_rows cls o w) w))
      end
  end.
Proof.
  intros Hself Hp Hid. unfold save.
  rewrite (bind_ok _ _ _ _ _ (read_inst_ok _ _ _ Hself)).
  rewrite bind_run. unfold flush.
  rewrite (bind_ok _ _ _ _ _ (read_inst_ok _ _ _ Hself)).
  rewrite bind_run. unfold get_world at 1.
  destruct (w_check w (w_rows w) (flushed_rows cls o w)) as [exc|] eqn:Hc.
  - unfold mret at 1, M_ret at 1.
    apply (raise_validation_bind cls exc).
  - rewrite Hp. simpl. rewrite ret_bind.
    rewrite (bind_ok _ _ _ _ _ (read_inst_ok self o (set_rows _ w) Hself)).
    rewrite decide_False by done.
    rewrite (bind_ok _ _ _ _ _ (logger_run _ _ _)).
    unfold refresh.
    rewrite (bind_ok _ _ _ _ _ (read_inst_ok self o (add_log _ (set_rows _ w)) Hself)).
    rewrite bind_run. unfold get_world. simpl.
    by destruct (List.find _ _).
Qed.

(** A constraint violation at the flush of any record, new or
    persistent, hands the failure to the classifier. *)
Lemma save_violation cls self o exc w :
  w_heap w !! self = Some (OInst o) →
  w_check w (w_rows w) (flushed_rows cls o w) = Some exc →
  save cls self w = _raise_validation_exception cls exc w.
Proof.
  intros Hself Hc. unfold save.
  rewrite (bind_ok _ _ _ _ _ (read_inst_ok _ _ _ Hself)).
  rewrite bind_run. unfold flush.
  rewrite (bind_ok _ _ _ _ _ (read_inst_ok _ _ _ Hself)).
  rewrite bind_run. unfold get_world at 1. rewrite Hc.
  unfold mret at 1, M_ret at 1.
  apply (raise_validation_bind cls exc).
Qed.



Lemma column_values_lookup cls o k :
  k ∈ columns cls → column_values cls o !! k = inst_attrs o !! k.
Proof.
  intros Hk. unfold column_values. apply option_eq. intros v.
  rewrite map_lookup_filter_Some. split; [by intros [? _]|by intros ?].
Qed.

Lemma cell_union_l (m1 m2 : row) k v : m1 !! k = Some v → cell (m1 ∪ m2) k = v.
Proof. intros H. unfold cell. by rewrite (lookup_union_Some_l _ _ _ _ H). Qed.

Lemma cell_union_r (m1 m2 : row) k : m1 !! k = None → cell (m1 ∪ m2) k = cell m2 k.
Proof. intros H. unfold cell. by rewrite lookup_union_r. Qed.

Lemma update_values_cell cls o old now k :
  k ≠ "updated_at" →
  cell (update_values cls o old now) k = cell (column_values cls o ∪ old) k.
Proof.
  intros Hk. unfold update_values.
  destruct (decide (column_values cls o ∪ old = old)) as [E|_]; [by rewrite E|].
  destruct (decide _); [|done].
  unfold cell. by rewrite lookup_insert_ne.
Qed.

Lemma id_column cls : "id" ∈ columns cls.
Proof. unfold columns, base_columns. apply elem_of_app. left. apply list_elem_of_here. Qed.

Lemma is_active_column cls : cls_soft_delete cls = true → "is_active" ∈ columns cls.
Proof.
  intros H. unfold columns. rewrite H.
  apply elem_of_app. right. apply elem_of_app. right. apply list_elem_of_here.
Qed.

(** An UPDATE leaves the identifier of the row it writes as it was. *)
Lemma update_values_id cls o old now :
  has_id (attr o "id") old = true →
  has_id (attr o "id") (update_values cls o old now) = true.
Proof.
  unfold has_id. intros H. apply bool_decide_eq_true_1 in H.
  apply bool_decide_eq_true_2.
  rewrite update_values_cell by done.
  destruct (inst_attrs o !! "id") as [v|] eqn:E.
  - rewrite (cell_union_l _ _ _ v); [|by rewrite column_values_lookup by apply id_column].
    unfold attr. by rewrite E.
  - rewrite cell_union_r; [done|]. by rewrite column_values_lookup by apply id_column.
Qed.

Lemma find_fmap_preserved {A} (p : A → bool) (f : A → A) (l : list A) :
  (∀ x, p (f x) = p x) → List.find p (f <$> l) = f <$> List.find p l.
Proof.
  intros H. induction l as [|x l IH]; [done|]. simpl.
  rewrite H. by destruct (p x).
Qed.

Lemma find_ext {A} (p q : A → bool) (l : list A) :
  (∀ x, p x = q x) → List.find p l = List.find q l.
Proof. intros H. induction l as [|x l IH]; [done|]. simpl. by rewrite H, IH. Qed.

Lemma find_is_some {A} (p : A → bool) (l : list A) x :
  x ∈ l → p x = true → ∃ y, List.find p l = Some y ∧ p y = true.
Proof.
  induction 1 as [x l|x z l _ IH]; intros Hp; simpl.
  - rewrite Hp. by exists x.
  - destruct (p z) eqn:E; [by exists z|]. by apply IH.
Qed.

(** The rows a flush of a persistent instance writes: one for one. *)
Lemma flushed_rows_persistent cls o w :
  inst_persistent o = true →
  flushed_rows cls o w
  = (λ r, if has_id (attr o "id") r then update_values cls o r (w_clock w) else r)
      <$> w_rows w.
Proof. unfold flushed_rows. by intros ->. Qed.

(** ** Soft delete *)

Definition updated_log (cls : model) (o : instance) : LogRecord :=
  {| log_level := INFO;
     log_msg := cls_name cls +:+ " with id=" +:+ py_str (attr o "id") +:+ " is updated" |}.

(** What setting the active flag of a persisted record to [b] and saving
    it amounts to, [res] being the outcome and the world it leaves. *)
Definition flag_saved (cls : model) (self : loc) (o : instance) (w : World)
    (b : bool) (res : (exn + ()) * World) : Prop :=
  let o1 := with_attrs o (<["is_active" := VBool b]> (inst_attrs o)) in
  let w1 := set_heap (<[self := OInst o1]> (w_heap w)) w in
  res = save cls self w1 ∧
  length (w_rows res.2) = length (w_rows w) ∧
  match w_check w (w_rows w) (flushed_rows cls o1 w1) with
  | Some exc =>
      res = _raise_validation_exception cls exc w1 ∧ w_rows res.2 = w_rows w
  | None =>
      res.1 = inr () ∧
      (∃ r, get_by_id cls (attr o "id") res.2 = (inr (Some r), res.2) ∧
            cell r "is_active" = VBool b) ∧
      w_log res.2 = w_log w ++ [updated_log cls o]
  end.

Lemma set_flag_and_save cls self o w b :
  cls_soft_delete cls = true →
  w_heap w !! self = Some (OInst o) →
  inst_persistent o = true →
  attr o "id" ≠ VNone →
  (∃ r, r ∈ w_rows w ∧ cell r "id" = attr o "id") →
  flag_saved cls self o w b
    ((_ ← setattr self "is_active" (VBool b); save cls self) w).
Proof.
  intros Hsoft Hself Hp Hid (r0 & Hr0 & Hr0id).
  unfold flag_saved.
  set (o1 := with_attrs o (<["is_active" := VBool b]> (inst_attrs o))).
  set (w1 := set_heap (<[self := OInst o1]> (w_heap w)) w).
  rewrite (bind_ok _ _ _ _ _ (setattr_run _ _ _ _ _ Hself)). fold o1 w1.
  assert (w_heap w1 !! self = Some (OInst o1)) as Hself1.
  { apply list_lookup_insert_eq. by eapply lookup_lt_Some. }
  assert (attr o1 "id" = attr o "id") as Hid1.
  { unfold attr, o1. simpl. by rewrite lookup_insert_ne. }
  assert (inst_persistent o1 = true) as Hp1 by done.
  rewrite (save_persistent_run cls self o1 w1 Hself1 Hp1) by by rewrite Hid1.
  split; [done|].
  change (w_check w1) with (w_check w). change (w_rows w1) with (w_rows w).
  rewrite (flushed_rows_persistent cls o1 w1 Hp1).
  change (w_rows w1) with (w_rows w). change (w_clock w1) with (w_clock w).
  set (f := λ r, if has_id (attr o1 "id") r
                 then update_values cls o1 r (w_clock w) else r).
  assert (∀ r, has_id (attr o1 "id") (f r) = has_id (attr o1 "id") r) as Hf.
  { intros r. unfold f. destruct (has_id (attr o1 "id") r) eqn:E; [|done].
    by apply update_values_id. }
  destruct (find_is_some (has_id (attr o1 "id")) (w_rows w) r0 Hr0) as (r1 & Hfind & Hr1).
  { unfold has_id. apply bool_decide_eq_true_2. by rewrite Hid1. }
  rewrite (find_fmap_preserved _ f _ Hf), Hfind. simpl.
  destruct (w_check w (w_rows w) (f <$> w_rows w)) as [exc|] eqn:Hc.
  - destruct (raise_validation_raises (A := ()) cls exc w1) as (e & w' & E & Hrows & _).
    rewrite E. simpl. rewrite Hrows. by repeat split.
  - simpl. rewrite length_fmap. split; [done|]. split; [done|].
    split; [|unfold updated_log; by rewrite Hid1].
    exists (f r1). split.
    + unfold get_by_id. rewrite get_one_by_filter_run. simpl. f_equal. f_equal.
      rewrite (find_ext _ (has_id (attr o1 "id"))).
      * by rewrite (find_fmap_preserved _ f _ Hf), Hfind.
      * intros r. rewrite holds_eq, andb_true_r. unfold has_id. by rewrite Hid1.
    + unfold f. rewrite Hr1. rewrite update_values_cell by done.
      apply cell_union_l. rewrite column_values_lookup by by apply is_active_column.
      apply lookup_insert_eq.
Qed.

(** C8: on a persisted soft-deletable record, delete sets the active flag
    to false and saves: the table keeps its number of rows, and when the
    flush succeeds the record is still found by its identifier, with the
    flag false. Undelete does the same with the flag true. Both go through
    the base save: a constraint violation at the flush is classified by
    the same classifier (the table then being left as it was), and a
    success is logged by save as an update. *)
Theorem soft_delete_keeps_row (cls : model) (self : loc) (o : instance) (w : World) :
  cls_soft_delete cls = true →
  w_heap w !! self = Some (OInst o) →
  inst_persistent o = true →
  attr o "id" ≠ VNone →
  (∃ r, r ∈ w_rows w ∧ cell r "id" = attr o "id") →
  flag_saved cls self o w false (BaseModelSoftDelete.delete cls self w)
  ∧ flag_saved cls self o w true (BaseModelSoftDelete.undelete cls self w).
Proof.
  intros. split; by apply set_flag_and_save.
Qed.

Lemma soft_delete_keeps_row_witness :
  flag_saved Team 0 alpha (team_world [OInst alpha]) false
    (BaseModelSoftDelete.delete Team 0 (team_world [OInst alpha]))
  ∧ flag_saved Team 0 alpha (team_world [OInst alpha]) true
      (BaseModelSoftDelete.undelete Team 0 (team_world [OInst alpha])).
Proof.
  apply (soft_delete_keeps_row Team 0 alpha (team_world [OInst alpha])).
  - reflexivity.
  - reflexivity.
  - reflexivity.
  - by vm_compute.
  - exists (team_row 1 "Alpha Team" (VStr "open") true).
    split; [apply list_elem_of_here|by vm_compute].
Defined.

(** ** The search pattern *)

(** A character that [LIKE] reads literally. *)
Definition literal_char (c : ascii) : Prop :=
  c ≠ "%"%char ∧ c ≠ "_"%char ∧ c ≠ "\"%char.
















#[global] Instance literal_char_dec c : Decision (literal_char c).
Proof. unfold literal_char. apply _. Defined.




(** The [ILIKE] pattern the search step makes of a token. *)
Definition search_pattern (tok : value) : string :=
  replace_char " " "%" ("%" +:+ py_str tok +:+ "%").








Lemma _build_search_like_string_stmt_run cls stmt tok w :
  Forall (λ f, f ∈ columns cls) (elements (cls_search_like_fields cls)) →
  _build_search_like_string_stmt cls stmt tok w
  = (inr (where_ stmt (COr ((λ f, CILike f (search_pattern tok))
                              <$> elements (cls_search_like_fields cls)))), w).
Proof.
  intros H. unfold _build_search_like_string_stmt.
  rewrite (bind_ok _ _ _ _ _ (map_m_ok (getattr_cls cls) id _ w
             (Forall_impl _ _ _ H (λ f Hf, getattr_cls_ok cls f w Hf)))).
  by rewrite list_fmap_id.
Qed.

Lemma forallb_snoc {A} (p : A → bool) l x :
  forallb p (l ++ [x]) = forallb p l && p x.
Proof. rewrite forallb_app. simpl. by rewrite andb_true_r. Qed.


Lemma matching_ext q1 q2 rows :
  (∀ r, forallb (holds r) (sel_where q1) = forallb (holds r) (sel_where q2)) →
  matching q1 rows = matching q2 rows.
Proof. intros H. unfold matching. by apply filter_ext. Qed.

Lemma run_query_ext q1 q2 rows :
  (∀ r, forallb (holds r) (sel_where q1) = forallb (holds r) (sel_where q2)) →
  sel_order q1 = sel_order q2 → sel_limit q1 = sel_limit q2 →
  sel_offset q1 = sel_offset q2 →
  run_query q1 rows = run_query q2 rows.
Proof.
  intros H Ho Hl Hf. unfold run_query.
  by rewrite (matching_ext q1 q2 rows H), Ho, Hl, Hf.
Qed.




(** C3: on a record type that declares no search-like fields the search
    step, with any token, leaves the result set of the query as it was.
    The OR over no field is an empty clause list, which every row passes
    (it is never always-false); the WHERE, the ordering, the limit and
    the offset are otherwise those of the base query, so the rows returned
    and their count are the same on every table. *)
Theorem empty_search_group_is_noop (cls : model) (stmt : Select) (tok : value) (w : World) :
  cls_search_like_fields cls = ∅ →
  ∃ stmt', _build_search_like_string_stmt cls stmt tok w = (inr stmt', w) ∧
           sel_where stmt' = sel_where stmt ++ [COr []] ∧
           (∀ r, holds r (COr []) = true) ∧
           (∀ r, forallb (holds r) (sel_where stmt') = forallb (holds r) (sel_where stmt)) ∧
           (∀ rows, run_query stmt' rows = run_query stmt rows) ∧
           (∀ rows, count_query stmt' rows = count_query stmt rows).
Proof.
  intros Hempty.
  assert (elements (cls_search_like_fields cls) = []) as E.
  { rewrite Hempty. apply elements_empty. }
  assert (∀ r, forallb (holds r) (sel_where (where_ stmt (COr [])))
               = forallb (holds r) (sel_where stmt)) as Hw.
  { intros r. cbn [sel_where where_]. rewrite forallb_snoc.
    change (holds r (COr [])) with true. apply andb_true_r. }
  exists (where_ stmt (COr [])). split; [|split; [done|split; [done|split; [done|split]]]].
  - rewrite _build_search_like_string_stmt_run by (rewrite E; constructor).
    by rewrite E.
  - intros rows. by apply run_query_ext.
  - intros rows. unfold count_query. f_equal. by apply run_query_ext.
Qed.

Lemma empty_search_group_is_noop_witness :
  ∃ stmt',
    _build_search_like_string_stmt AuditEntry select_cls (VStr "alpha") (team_world [])
    = (inr stmt', team_world []) ∧
    run_query stmt' team_rows = team_rows.
Proof.
  destruct (empty_search_group_is_noop AuditEntry select_cls (VStr "alpha") (team_world []))
    as (stmt' & Hrun & _ & _ & _ & Hq & _).
  - reflexivity.
  - exists stmt'. split; [done|]. rewrite Hq. by vm_compute.
Defined.

(** ** The query executor, step by step *)

(** The token a filters mapping asks to search for: the value under the
    reserved key when it is truthy. *)
Definition search_token (d : pydict value) : option value :=
  match dict_get d "search_like_string" with
  | Some v => if truthy v then Some v else None
  | None => None
  end.

(** The entries of the filters mapping that become equality conditions. *)
Definition equality_filters (d : pydict value) : pydict value :=
  match search_token d with
  | Some _ => dict_del d "search_like_string"
  | None => d
  end.

Definition eq_clauses (d : pydict value) : list clause :=
  (λ kv, CEq kv.1 kv.2) <$> equality_filters d.

(** The statement after the filters of the request have been looked at. *)
Definition search_stmt (cls : model) (d : pydict value) : Select :=
  match search_token d with
  | Some tok =>
      where_ select_cls
        (COr ((λ f, CILike f (search_pattern tok)) <$> elements (cls_search_like_fields cls)))
  | None => select_cls
  end.

Definition sort_clauses (sorting : option sorting_arg) : list order_clause :=
  match sorting with
  | Some s => ordering_of <$> sort_entries s
  | None => []
  end.

(** The three parts of [filter] after the choice of the conditions list. *)
Definition filters_block (cls : model) (filters : option loc) (conditions : loc)
  : M Select :=
  match filters with
  | None => mret select_cls
  | Some fl =>
      d ← read_dict fl;
      match d with
      | [] => mret select_cls
      | _ =>
          v ← dict_get_none fl "search_like_string";
          stmt ← (if truthy v then
                    search_like_string ← dict_pop fl "search_like_string";
                    if truthy search_like_string
                    then _build_search_like_string_stmt cls select_cls search_like_string
                    else mret select_cls
                  else mret select_cls);
          d' ← read_dict fl;
          cs ← _build_conditions cls d';
          _ ← list_extend conditions cs;
          mret stmt
      end
  end.

Definition sorting_block (cls : model) (sorting : option sorting_arg) (stmt : Select)
  : M Select :=
  match sorting with
  | Some s =>
      if sorting_truthy s then
        ocs ← _build_sorting cls s; mret (order_by stmt ocs)
      else mret stmt
  | None => mret stmt
  end.

Definition run_block (pagination : option Pagination) (stmt : Select) (conditions : loc)
  : M filter_result :=
  cs ← read_list conditions;
  let query := where_ stmt (CAnd cs) in
  tq ← match pagination with
       | Some p =>
           n ← scalar_count query;
           mret (match n with O => 0 | _ => n end,
                 offset (limit query (pg_limit p)) (pg_offset p))
       | None => mret (0, query)
       end;
  result ← execute tq.2;
  let serialised_result := unique result in
  match pagination with
  | Some _ => mret (Page serialised_result tq.1)
  | None => mret (Results serialised_result)
  end.

Lemma filter_blocks cls filters conditions pagination sorting :
  filter cls filters conditions pagination sorting
  = (c ← conditions_or_new conditions;
     stmt ← filters_block cls filters c;
     stmt ← sorting_block cls sorting stmt;
     run_block pagination stmt c).
Proof. reflexivity. Qed.

Lemma dict_get_none_run l k d w :
  w_heap w !! l = Some (ODict d) →
  dict_get_none l k w = (inr (default VNone (dict_get d k)), w).
Proof.
  intros H. unfold dict_get_none. by rewrite (bind_ok _ _ _ _ _ (read_dict_ok _ _ _ H)).
Qed.

Lemma dict_pop_run l k d w :
  w_heap w !! l = Some (ODict d) →
  dict_pop l k w
  = (inr (default VNone (dict_get d k)),
     set_heap (<[l := ODict (dict_del d k)]> (w_heap w)) w).
Proof.
  intros H. unfold dict_pop. by rewrite (bind_ok _ _ _ _ _ (read_dict_ok _ _ _ H)).
Qed.

Lemma list_extend_run l xs cs w :
  w_heap w !! l = Some (OList cs) →
  list_extend l xs w = (inr (), set_heap (<[l := OList (cs ++ xs)]> (w_heap w)) w).
Proof.
  intros H. unfold list_extend. by rewrite (bind_ok _ _ _ _ _ (read_list_ok _ _ _ H)).
Qed.

Lemma _build_conditions_ok cls d w :
  Forall (λ kv, kv.1 ∈ columns cls) d →
  _build_conditions cls d w = (inr ((λ kv, CEq kv.1 kv.2) <$> d), w).
Proof.
  intros H. unfold _build_conditions. apply map_m_ok.
  eapply Forall_impl; [apply H|]. intros kv Hkv.
  by rewrite (bind_ok _ _ _ _ _ (getattr_cls_ok _ _ _ Hkv)).
Qed.

(** The list the conditions are gathered in, and the heap once it is
    chosen: the caller's list when it is given and not empty, a new one
    otherwise. *)
Definition working_list (h : list pyobj) (conditions : option loc) (cs : list clause)
  : loc * list pyobj :=
  match conditions, cs with
  | Some cl, _ :: _ => (cl, h)
  | _, _ => (length h, h ++ [OList []])
  end.

Lemma conditions_or_new_run conditions cs w :
  match conditions with
  | Some cl => w_heap w !! cl = Some (OList cs)
  | None => cs = []
  end →
  conditions_or_new conditions w
  = (inr (working_list (w_heap w) conditions cs).1,
     set_heap (working_list (w_heap w) conditions cs).2 w)
  ∧ (working_list (w_heap w) conditions cs).2
    !! (working_list (w_heap w) conditions cs).1 = Some (OList cs).
Proof.
  unfold conditions_or_new, working_list.
  destruct conditions as [cl|]; intros H.
  - rewrite (bind_ok _ _ _ _ _ (read_list_ok _ _ _ H)).
    destruct cs as [|c cs]; simpl.
    + split; [done|]. by rewrite lookup_app_r, Nat.sub_diag.
    + split; [|done]. unfold mret, M_ret. by rewrite set_heap_same.
  - subst cs. simpl. split; [done|]. by rewrite lookup_app_r, Nat.sub_diag.
Qed.

(** The heap after the reserved key has been popped, when it is. *)
Definition popped (h : list pyobj) (fl : loc) (d : pydict value) : list pyobj :=
  match search_token d with
  | Some _ => <[fl := ODict (dict_del d "search_like_string")]> h
  | None => h
  end.

Lemma filters_block_run cls fl c d cs w :
  w_heap w !! fl = Some (ODict d) →
  w_heap w !! c = Some (OList cs) →
  Forall (λ kv, kv.1 ∈ columns cls) (equality_filters d) →
  (is_Some (search_token d) →
   Forall (λ f, f ∈ columns cls) (elements (cls_search_like_fields cls))) →
  filters_block cls (Some fl) c w
  = (inr (search_stmt cls d),
     set_heap (<[c := OList (cs ++ eq_clauses d)]> (popped (w_heap w) fl d)) w).
Proof.
  intros Hfl Hc Hcols Hsearch.
  assert (fl ≠ c) as Hne by (intros ->; congruence).
  assert (fl < length (w_heap w))%nat as Hlt by by eapply lookup_lt_Some.
  unfold filters_block. rewrite (bind_ok _ _ _ _ _ (read_dict_ok _ _ _ Hfl)).
  destruct d as [|kv d0] eqn:Ed.
  { unfold eq_clauses, popped, search_stmt. simpl.
    rewrite app_nil_r, list_insert_id by done. by rewrite set_heap_same. }
  rewrite <- Ed in *. clear Ed kv d0.
  rewrite (bind_ok _ _ _ _ _ (dict_get_none_run _ "search_like_string" _ _ Hfl)).
  unfold eq_clauses, popped, search_stmt, equality_filters, search_token in *.
  destruct (dict_get d "search_like_string") as [v|] eqn:Eg.
  - change (default VNone (Some v)) with v. destruct (truthy v) eqn:Et.
    + set (w2 := set_heap (<[fl := ODict (dict_del d "search_like_string")]> (w_heap w)) w).
      assert ((search_like_string ← dict_pop fl "search_like_string";
               if truthy search_like_string
               then _build_search_like_string_stmt cls select_cls search_like_string
               else mret select_cls) w
              = (inr (where_ select_cls
                        (COr ((λ f, CILike f (search_pattern v))
                                <$> elements (cls_search_like_fields cls)))), w2)) as Hpop.
      { rewrite (bind_ok _ _ _ _ _ (dict_pop_run _ "search_like_string" _ _ Hfl)).
        rewrite Eg. change (default VNone (Some v)) with v. rewrite Et.
        apply _build_search_like_string_stmt_run. apply Hsearch. by eexists. }
      rewrite (bind_ok _ _ _ _ _ Hpop).
      assert (w_heap w2 !! fl = Some (ODict (dict_del d "search_like_string"))) as Hfl2.
      { by apply list_lookup_insert_eq. }
      assert (w_heap w2 !! c = Some (OList cs)) as Hc2.
      { unfold w2. simpl. by rewrite list_lookup_insert_ne. }
      rewrite (bind_ok _ _ _ _ _ (read_dict_ok _ _ _ Hfl2)).
      rewrite (bind_ok _ _ _ _ _ (_build_conditions_ok _ _ _ Hcols)).
      by rewrite (bind_ok _ _ _ _ _ (list_extend_run _ _ _ _ Hc2)).
    + rewrite ret_bind.
      rewrite (bind_ok _ _ _ _ _ (read_dict_ok _ _ _ Hfl)).
      rewrite (bind_ok _ _ _ _ _ (_build_conditions_ok _ _ _ Hcols)).
      by rewrite (bind_ok _ _ _ _ _ (list_extend_run _ _ _ _ Hc)).
  - change (truthy (default VNone None)) with false. cbv iota. rewrite ret_bind.
    rewrite (bind_ok _ _ _ _ _ (read_dict_ok _ _ _ Hfl)).
    rewrite (bind_ok _ _ _ _ _ (_build_conditions_ok _ _ _ Hcols)).
    by rewrite (bind_ok _ _ _ _ _ (list_extend_run _ _ _ _ Hc)).
Qed.

Lemma order_by_nil q : order_by q [] = q.
Proof. destruct q. unfold order_by. simpl. by rewrite app_nil_r. Qed.

Definition sorting_ok (cls : model) (sorting : option sorting_arg) : Prop :=
  match sorting with
  | Some s => Forall (λ kv, kv.1 ∈ columns cls ∧ is_Some (direction_of kv.2))
                     (sort_entries s)
  | None => True
  end.

Lemma sorting_block_run cls sorting stmt w :
  sorting_ok cls sorting →
  sorting_block cls sorting stmt w = (inr (order_by stmt (sort_clauses sorting)), w).
Proof.
  unfold sorting_block, sort_clauses, sorting_ok.
  destruct sorting as [s|]; intros H.
  - destruct (sorting_truthy s) eqn:Et.
    + by rewrite (bind_ok _ _ _ _ _ (_build_sorting_ok _ _ _ H)).
    + destruct s as [b|[|kv d]]; try done. simpl. by rewrite order_by_nil.
  - by rewrite order_by_nil.
Qed.

(** What the last part of [filter] returns for a statement and the
    gathered conditions, on a table. *)
Definition filter_outcome (pagination : option Pagination) (stmt : Select)
    (cs : list clause) (rows : list row) : filter_result :=
  let query := where_ stmt (CAnd cs) in
  match pagination with
  | Some p =>
      Page (unique (run_query (offset (limit query (pg_limit p)) (pg_offset p)) rows))
           (count_query query rows)
  | None => Results (unique (run_query query rows))
  end.

Lemma run_block_run pagination stmt c cs w :
  w_heap w !! c = Some (OList cs) →
  run_block pagination stmt c w
  = (inr (filter_outcome pagination stmt cs (w_rows w)), w).
Proof.
  intros Hc. unfold run_block, filter_outcome.
  rewrite (bind_ok _ _ _ _ _ (read_list_ok _ _ _ Hc)).
  destruct pagination as [p|]; [|done].
  unfold scalar_count, execute, get_world. rewrite !bind_run. simpl.
  unfold mret, M_ret. by destruct (count_query _ _).
Qed.

(** The heap [filter] leaves behind. *)
Definition final_heap (h : list pyobj) (filters conditions : option loc)
    (d : pydict value) (cs : list clause) : list pyobj :=
  let wl := working_list h conditions cs in
  match filters with
  | Some fl => <[wl.1 := OList (cs ++ eq_clauses d)]> (popped wl.2 fl d)
  | None => wl.2
  end.

(** The statement [filter] sends to the backend, before pagination. *)
Definition filter_query (cls : model) (d : pydict value) (cs : list clause)
    (sorting : option sorting_arg) : Select :=
  where_ (order_by (search_stmt cls d) (sort_clauses sorting))
         (CAnd (cs ++ eq_clauses d)).

(** The arguments of a call: [d] is the filters mapping and [cs] the
    conditions list the caller passes (empty when it passes none). *)
Definition filter_args (w : World) (filters conditions : option loc)
    (d : pydict value) (cs : list clause) : Prop :=
  match filters with
  | Some fl => w_heap w !! fl = Some (ODict d)
  | None => d = []
  end ∧
  match conditions with
  | Some cl => w_heap w !! cl = Some (OList cs)
  | None => cs = []
  end.

(** Every name the request mentions is an attribute of the class. *)
Definition names_ok (cls : model) (d : pydict value) (sorting : option sorting_arg) : Prop :=
  Forall (λ kv, kv.1 ∈ columns cls) (equality_filters d) ∧
  (is_Some (search_token d) →
   Forall (λ f, f ∈ columns cls) (elements (cls_search_like_fields cls))) ∧
  sorting_ok cls sorting.

Lemma popped_length h fl d : length (popped h fl d) = length h.
Proof. unfold popped. destruct (search_token d); [apply length_insert|done]. Qed.

Lemma filter_run cls filters conditions pagination sorting d cs w :
  filter_args w filters conditions d cs →
  names_ok cls d sorting →
  filter cls filters conditions pagination sorting w
  = (inr (filter_outcome pagination
            (order_by (search_stmt cls d) (sort_clauses sorting))
            (cs ++ eq_clauses d) (w_rows w)),
     set_heap (final_heap (w_heap w) filters conditions d cs) w).
Proof.
  intros [Hf Hc] (Hcols & Hsearch & Hsort).
  rewrite filter_blocks.
  destruct (conditions_or_new_run conditions cs w Hc) as [Hnew Hwl].
  rewrite (bind_ok _ _ _ _ _ Hnew). unfold final_heap.
  set (wl := working_list (w_heap w) conditions cs) in *.
  set (w1 := set_heap wl.2 w).
  assert (wl.1 < length wl.2)%nat as Hlt by by eapply lookup_lt_Some.
  destruct filters as [fl|].
  - assert (w_heap w1 !! fl = Some (ODict d)) as Hf1.
    { unfold w1, wl, working_list. simpl.
      destruct conditions as [cl|]; [destruct cs|]; simpl; try done;
        by apply lookup_app_l_Some. }
    rewrite (bind_ok _ _ _ _ _ (filters_block_run cls fl wl.1 d cs w1 Hf1 Hwl Hcols Hsearch)).
    rewrite (bind_ok _ _ _ _ _ (sorting_block_run _ _ _ _ Hsort)).
    rewrite (run_block_run _ _ wl.1 (cs ++ eq_clauses d)); [done|].
    simpl. apply list_lookup_insert_eq. by rewrite popped_length.
  - subst d. unfold filters_block. rewrite ret_bind.
    rewrite (bind_ok _ _ _ _ _ (sorting_block_run _ _ _ _ Hsort)).
    rewrite (run_block_run _ _ wl.1 cs); [|done].
    unfold eq_clauses. simpl. by rewrite app_nil_r.
Qed.

(** ** What the request asks for

    The reading of a request as a predicate on rows: the row passes the
    search, when one is asked for; it passes each condition of the
    caller; and it has, in each filtered field, the value asked for. *)
Definition search_matches (cls : model) (d : pydict value) (r : row) : bool :=
  match search_token d with
  | Some tok =>
      holds r (COr ((λ f, CILike f (search_pattern tok))
                      <$> elements (cls_search_like_fields cls)))
  | None => true
  end.

Definition request_matches (cls : model) (d : pydict value) (cs : list clause)
    (r : row) : bool :=
  search_matches cls d r
  && (forallb (holds r) cs
      && forallb (λ kv, bool_decide (cell r kv.1 = kv.2)) (equality_filters d)).

Lemma filter_query_where cls d cs sorting r :
  forallb (holds r) (sel_where (filter_query cls d cs sorting))
  = request_matches cls d cs r.
Proof.
  unfold filter_query, request_matches, search_matches, search_stmt, eq_clauses.
  cbn [sel_where where_ order_by]. rewrite forallb_snoc, holds_and, forallb_app.
  f_equal.
  - destruct (search_token d); [|done]. simpl. by rewrite andb_true_r.
  - f_equal. induction (equality_filters d) as [|kv l IH]; [done|].
    simpl. rewrite holds_eq. f_equal. apply IH.
Qed.

Lemma filter_query_order cls d cs sorting :
  sel_order (filter_query cls d cs sorting) = sort_clauses sorting.
Proof. unfold filter_query, search_stmt. by destruct (search_token d). Qed.

Lemma filter_query_matching cls d cs sorting rows :
  matching (filter_query cls d cs sorting) rows
  = List.filter (request_matches cls d cs) rows.
Proof. unfold matching. apply filter_ext. intros r. apply filter_query_where. Qed.

Lemma filter_query_run cls d cs sorting rows :
  run_query (filter_query cls d cs sorting) rows
  = sort_rows (sort_clauses sorting) (List.filter (request_matches cls d cs) rows).
Proof.
  unfold run_query. rewrite filter_query_matching, filter_query_order.
  unfold filter_query, search_stmt. by destruct (search_token d).
Qed.

Lemma filter_query_page cls d cs sorting n o rows :
  run_query (offset (limit (filter_query cls d cs sorting) n) o) rows
  = take n (drop o (sort_rows (sort_clauses sorting)
                      (List.filter (request_matches cls d cs) rows))).
Proof.
  transitivity (take n (drop o (sort_rows (sel_order (filter_query cls d cs sorting))
                                  (matching (filter_query cls d cs sorting) rows))));
    [reflexivity|].
  by rewrite filter_query_matching, filter_query_order.
Qed.

Lemma filter_query_count cls d cs sorting rows :
  count_query (filter_query cls d cs sorting) rows
  = length (List.filter (request_matches cls d cs) rows).
Proof. unfold count_query. by rewrite filter_query_run, length_sort_rows. Qed.

Lemma length_unique_from seen (l : list row) :
  (length (unique_from seen l) ≤ length l)%nat.
Proof.
  revert seen. induction l as [|r l IH]; intros seen; simpl; [done|].
  destruct (bool_decide _); simpl; [|apply le_n_S]; etrans; try apply IH; lia.
Qed.

(** C2: when every name of the request is an attribute of the class, a
    call with a pagination argument returns the pair of a page and a
    total, and the total is the number of rows of the table that match
    the filters, the conditions and the search, whatever the limit and the
    offset; the page is cut from the sorted matching rows by offset and
    limit and holds at most limit rows. A call without pagination returns
    the sequence of all matching rows, sorted, and no count. *)
Theorem pagination_total (cls : model) (filters conditions : option loc)
    (sorting : option sorting_arg) (d : pydict value) (cs : list clause) (w : World) :
  filter_args w filters conditions d cs →
  names_ok cls d sorting →
  let matched := List.filter (request_matches cls d cs) (w_rows w) in
  let sorted := sort_rows (sort_clauses sorting) matched in
  let w' := set_heap (final_heap (w_heap w) filters conditions d cs) w in
  (∀ p, ∃ page,
     filter cls filters conditions (Some p) sorting w
     = (inr (Page page (length matched)), w') ∧
     page = unique (take (pg_limit p) (drop (pg_offset p) sorted)) ∧
     (length page ≤ pg_limit p)%nat)
  ∧ filter cls filters conditions None sorting w = (inr (Results (unique sorted)), w').
Proof.
  intros Hargs Hnames matched sorted w'. split.
  - intros p. eexists. split; [|split; [reflexivity|]].
    + rewrite (filter_run _ _ _ _ _ d cs w Hargs Hnames). unfold filter_outcome.
      fold (filter_query cls d cs sorting).
      by rewrite filter_query_page, filter_query_count.
    + etrans; [apply length_unique_from|]. rewrite length_take. lia.
  - rewrite (filter_run _ _ _ _ _ d cs w Hargs Hnames). unfold filter_outcome.
    fold (filter_query cls d cs sorting). by rewrite filter_query_run.
Qed.

Lemma pagination_total_witness :
  ∃ page w',
    filter Team (Some 0) None (Some {| pg_limit := 1; pg_offset := 0 |}) None
      (team_world [ODict status_open])
    = (inr (Page page 2), w') ∧ (length page ≤ 1)%nat.
Proof.
  destruct (pagination_total Team (Some 0) None None status_open []
              (team_world [ODict status_open])) as [Hpage _].
  - split; reflexivity.
  - split; [|split].
    + apply (bool_decide_unpack _). by vm_compute.
    + intros [tok Htok]. by vm_compute in Htok.
    + exact I.
  - destruct (Hpage {| pg_limit := 1; pg_offset := 0 |}) as (page & Hrun & _ & Hlen).
    exists page. eexists. split; [exact Hrun|exact Hlen].
Defined.

(** ** What the builders leave alone *)

Lemma map_m_world {A B} (f : A → M B) (l : list A) w :
  (∀ x w, (f x w).2 = w) → (map_m f l w).2 = w.
Proof.
  intros H. revert w. induction l as [|x l IH]; intros w; simpl; [done|].
  rewrite bind_run. pose proof (H x w) as Hx.
  destruct (f x w) as [[e|y] w1]; simpl in Hx; subst w1; [done|].
  rewrite bind_run. pose proof (IH w) as Hl.
  destruct (map_m f l w) as [[e|ys] w1]; simpl in Hl; by subst w1.
Qed.

Lemma getattr_cls_world cls name w : (getattr_cls cls name w).2 = w.
Proof. unfold getattr_cls. by destruct (decide _). Qed.

Lemma _build_conditions_world cls d w : (_build_conditions cls d w).2 = w.
Proof.
  unfold _build_conditions. apply map_m_world. intros kv w0.
  rewrite bind_run. pose proof (getattr_cls_world cls kv.1 w0) as H.
  destruct (getattr_cls cls kv.1 w0) as [[e|y] w1]; simpl in H; by subst w1.
Qed.

Lemma _build_search_like_string_stmt_world cls stmt tok w :
  (_build_search_like_string_stmt cls stmt tok w).2 = w.
Proof.
  unfold _build_search_like_string_stmt. rewrite bind_run.
  pose proof (map_m_world (getattr_cls cls) (elements (cls_search_like_fields cls)) w
                (getattr_cls_world cls)) as H.
  destruct (map_m _ _ w) as [[e|y] w1]; simpl in H; by subst w1.
Qed.

Lemma _build_sorting_world cls sorting w : (_build_sorting cls sorting w).2 = w.
Proof.
  unfold _build_sorting. apply map_m_world. intros kv w0.
  rewrite bind_run. pose proof (getattr_cls_world cls kv.1 w0) as H.
  destruct (getattr_cls cls kv.1 w0) as [[e|y] w1]; simpl in H; subst w1; [done|].
  rewrite bind_run. unfold column_ordering.
  destruct (decide (kv.2 = "asc")); [done|]. by destruct (decide (kv.2 = "desc")).
Qed.

Lemma sorting_block_world cls sorting stmt w : (sorting_block cls sorting stmt w).2 = w.
Proof.
  unfold sorting_block. destruct sorting as [s|]; [|done].
  destruct (sorting_truthy s); [|done]. rewrite bind_run.
  pose proof (_build_sorting_world cls s w) as H.
  destruct (_build_sorting cls s w) as [[e|y] w1]; simpl in H; by subst w1.
Qed.

Lemma run_block_world pagination stmt c w : (run_block pagination stmt c w).2 = w.
Proof.
  unfold run_block. rewrite bind_run. unfold read_list.
  destruct (w_heap w !! c) as [[| |]|]; try done.
  by destruct pagination.
Qed.

(** ** The reserved key *)

Lemma dict_del_keys {V} (d : pydict V) k : k ∉ dict_keys (dict_del d k).
Proof.
  unfold dict_keys. induction d as [|[k' v] d IH]; simpl.
  - apply not_elem_of_nil.
  - destruct (decide (k' = k)); [done|]. simpl.
    intros H. apply elem_of_cons in H as [H|H]; [by subst|done].
Qed.

Lemma search_token_Some d tok :
  search_token d = Some tok ↔
  dict_get d "search_like_string" = Some tok ∧ truthy tok = true.
Proof.
  unfold search_token. destruct (dict_get d "search_like_string") as [v|].
  - destruct (truthy v) eqn:E.
    + split; [by intros [= ->]|by intros [[= ->] _]].
    + split; [done|]. intros [[= ->] H]. congruence.
  - split; [done|]. by intros [? _].
Qed.

(** Once the reserved key holds a truthy value it is popped from the
    caller's mapping, whatever happens afterwards. *)
Lemma filters_block_pops cls fl c d cs tok w :
  w_heap w !! fl = Some (ODict d) →
  w_heap w !! c = Some (OList cs) →
  search_token d = Some tok →
  w_heap (filters_block cls (Some fl) c w).2 !! fl
  = Some (ODict (dict_del d "search_like_string")).
Proof.
  intros Hfl Hc Htok.
  assert (fl ≠ c) as Hne by (intros ->; congruence).
  assert (fl < length (w_heap w))%nat as Hlt by by eapply lookup_lt_Some.
  apply search_token_Some in Htok as [Hget Ht].
  unfold filters_block. rewrite (bind_ok _ _ _ _ _ (read_dict_ok _ _ _ Hfl)).
  destruct d as [|kv d0] eqn:Ed; [done|]. rewrite <- Ed in *. clear Ed kv d0.
  rewrite (bind_ok _ _ _ _ _ (dict_get_none_run _ "search_like_string" _ _ Hfl)).
  rewrite Hget. change (default VNone (Some tok)) with tok. rewrite Ht.
  set (w2 := set_heap (<[fl := ODict (dict_del d "search_like_string")]> (w_heap w)) w).
  assert (w_heap w2 !! fl = Some (ODict (dict_del d "search_like_string"))) as Hfl2.
  { by apply list_lookup_insert_eq. }
  assert (w_heap w2 !! c = Some (OList cs)) as Hc2.
  { unfold w2. simpl. by rewrite list_lookup_insert_ne. }
  rewrite bind_run.
  rewrite (bind_ok _ _ _ _ _ (dict_pop_run _ "search_like_string" _ _ Hfl)).
  rewrite Hget. change (default VNone (Some tok)) with tok. rewrite Ht.
  fold w2.
  pose proof (_build_search_like_string_stmt_world cls select_cls tok w2) as Hb.
  destruct (_build_search_like_string_stmt cls select_cls tok w2) as [[e|stmt] w3];
    simpl in Hb; subst w3; [done|].
  rewrite (bind_ok _ _ _ _ _ (read_dict_ok _ _ _ Hfl2)).
  rewrite bind_run.
  pose proof (_build_conditions_world cls (dict_del d "search_like_string") w2) as Hb.
  destruct (_build_conditions cls _ w2) as [[e|eqs] w3]; simpl in Hb; subst w3; [done|].
  rewrite (bind_ok _ _ _ _ _ (list_extend_run _ _ _ _ Hc2)).
  simpl. by rewrite list_lookup_insert_ne.
Qed.

Lemma filter_pops cls fl conditions pagination sorting d cs tok w :
  filter_args w (Some fl) conditions d cs →
  search_token d = Some tok →
  w_heap (filter cls (Some fl) conditions pagination sorting w).2 !! fl
  = Some (ODict (dict_del d "search_like_string")).
Proof.
  intros [Hf Hc] Htok. rewrite filter_blocks.
  destruct (conditions_or_new_run conditions cs w Hc) as [Hnew Hwl].
  rewrite (bind_ok _ _ _ _ _ Hnew).
  set (wl := working_list (w_heap w) conditions cs) in *.
  set (w1 := set_heap wl.2 w).
  assert (w_heap w1 !! fl = Some (ODict d)) as Hf1.
  { unfold w1, wl, working_list. simpl.
    destruct conditions as [cl|]; [destruct cs|]; simpl; try done;
      by apply lookup_app_l_Some. }
  pose proof (filters_block_pops cls fl wl.1 d cs tok w1 Hf1 Hwl Htok) as Hpop.
  rewrite bind_run.
  destruct (filters_block cls (Some fl) wl.1 w1) as [[e|stmt] w2]; simpl in Hpop; [done|].
  rewrite bind_run.
  pose proof (sorting_block_world cls sorting stmt w2) as Hs.
  destruct (sorting_block cls sorting stmt w2) as [[e|stmt'] w3];
    simpl in Hs; subst w3; [done|].
  by rewrite run_block_world.
Qed.

Definition result_rows (fr : filter_result) : list row :=
  match fr with
  | Results rows => rows
  | Page rows _ => rows
  end.

Lemma unique_from_subset seen (l : list row) r :
  r ∈ unique_from seen l → r ∈ l.
Proof.
  revert seen. induction l as [|x l IH]; intros seen; simpl; [done|].
  destruct (bool_decide _).
  - intros H. apply list_elem_of_further. by eapply IH.
  - intros H. apply elem_of_cons in H as [->|H]; [apply list_elem_of_here|].
    apply list_elem_of_further. by eapply IH.
Qed.

(** Every row that [filter] returns is a row of the table that matches
    the request. *)
Lemma filter_outcome_rows cls d cs sorting pagination rows r :
  r ∈ result_rows (filter_outcome pagination
                     (order_by (search_stmt cls d) (sort_clauses sorting))
                     (cs ++ eq_clauses d) rows) →
  r ∈ rows ∧ request_matches cls d cs r = true.
Proof.
  unfold filter_outcome. fold (filter_query cls d cs sorting).
  assert (r ∈ sort_rows (sort_clauses sorting)
                (List.filter (request_matches cls d cs) rows) →
          r ∈ rows ∧ request_matches cls d cs r = true) as Hsorted.
  { rewrite sort_rows_perm, list_elem_of_In, filter_In, <- list_elem_of_In. done. }
  destruct pagination as [p|]; simpl; intros H; apply unique_from_subset in H.
  - rewrite filter_query_page in H.
    apply Hsorted. by eapply subseteq_drop, subseteq_take.
  - rewrite filter_query_run in H. by apply Hsorted.
Qed.

(** C5 (as amended): when the filters mapping holds a truthy value under
    the reserved substring-search key, the key is removed from the
    mapping (whatever the outcome of the call); and, every name of the
    request being an attribute of the class, the value is applied as the
    search predicate on the base query, the equality conditions are built
    from the other entries only, none of them on the reserved key, and
    every row returned passes the search. *)
Theorem search_key_extracted (cls : model) (fl : loc) (conditions : option loc)
    (pagination : option Pagination) (sorting : option sorting_arg)
    (d : pydict value) (cs : list clause) (tok : value) (w : World) :
  filter_args w (Some fl) conditions d cs →
  dict_get d "search_like_string" = Some tok →
  truthy tok = true →
  let out := filter cls (Some fl) conditions pagination sorting w in
  let others := dict_del d "search_like_string" in
  let search := COr ((λ f, CILike f (search_pattern tok))
                       <$> elements (cls_search_like_fields cls)) in
  w_heap out.2 !! fl = Some (ODict others)
  ∧ ("search_like_string" ∉ dict_keys others)
  ∧ (names_ok cls d sorting →
     out.1 = inr (filter_outcome pagination
                    (order_by (where_ select_cls search) (sort_clauses sorting))
                    (cs ++ ((λ kv, CEq kv.1 kv.2) <$> others)) (w_rows w))
     ∧ (∀ v, ¬ (CEq "search_like_string" v ∈ (λ kv, CEq kv.1 kv.2) <$> others))
     ∧ ∀ fr r, out.1 = inr fr → r ∈ result_rows fr → holds r search = true).
Proof.
  intros Hargs Hget Ht out others search.
  assert (search_token d = Some tok) as Htok by by apply search_token_Some.
  split; [by eapply filter_pops|]. split; [apply dict_del_keys|].
  intros Hnames. unfold out. rewrite (filter_run _ _ _ _ _ d cs w Hargs Hnames).
  unfold eq_clauses, equality_filters, search_stmt. rewrite Htok.
  split; [done|]. split.
  - intros v Hin. apply list_elem_of_fmap in Hin as ([k v'] & [= <- <-] & Hin).
    apply (dict_del_keys d "search_like_string").
    unfold dict_keys. apply list_elem_of_fmap. by exists ("search_like_string", v).
  - intros fr r [= <-] Hr.
    pose proof (filter_outcome_rows cls d cs sorting pagination (w_rows w) r) as H.
    unfold eq_clauses, equality_filters, search_stmt in H. rewrite Htok in H.
    destruct (H Hr) as [_ Hm]. unfold request_matches, search_matches in Hm.
    rewrite Htok in Hm. by apply andb_true_iff in Hm as [Hm _].
Qed.

Lemma search_key_extracted_witness :
  let out := filter Team (Some 0) None None None (team_world [ODict search_alpha_open]) in
  w_heap out.2 !! 0 = Some (ODict status_open)
  ∧ out.1 = inr (Results [team_row 1 "Alpha Team" (VStr "open") true]).
Proof.
  destruct (search_key_extracted Team 0 None None None search_alpha_open []
              (VStr "alpha team") (team_world [ODict search_alpha_open]))
    as (Hpop & _ & Hrun).
  - split; reflexivity.
  - reflexivity.
  - reflexivity.
  - split; [exact Hpop|]. destruct Hrun as [Hout _].
    + split; [|split].
      * apply (bool_decide_unpack _). by vm_compute.
      * intros _. apply (bool_decide_unpack _). by vm_compute.
      * exact I.
    + rewrite Hout. by vm_compute.
Defined.

(** C5 as the specification states it, for every value under the
    reserved key, fails: an empty token stays in the mapping and goes to
    the equality builder, which looks the key up as a field of the
    class. *)
Lemma search_key_falsy_counterexample :
  ¬ (∀ (cls : model) (fl : loc) (conditions : option loc)
       (pagination : option Pagination) (sorting : option sorting_arg)
       (d : pydict value) (cs : list clause) (v : value) (w : World),
       filter_args w (Some fl) conditions d cs →
       dict_get d "search_like_string" = Some v →
       let out := filter cls (Some fl) conditions pagination sorting w in
       w_heap out.2 !! fl = Some (ODict (dict_del d "search_like_string"))
       ∧ out.1 ≠ inl (AttributeError "search_like_string")).
Proof.
  intros H.
  destruct (H Team 0 None None None search_empty [] (VStr "")
              (team_world [ODict search_empty])) as [Hpop Herr].
  - split; reflexivity.
  - reflexivity.
  - apply Herr. by vm_compute.
Qed.

(** ** The caller's objects after the call *)


Lemma popped_lookup h fl d :
  h !! fl = Some (ODict d) → popped h fl d !! fl = Some (ODict (equality_filters d)).
Proof.
  intros H. unfold popped, equality_filters. destruct (search_token d); [|done].
  apply list_lookup_insert_eq. by eapply lookup_lt_Some.
Qed.






(** * Further properties *)

(** ** Where a text occurs in a message *)

(** [needle] occurs in [msg]. *)
Definition occurs_in (needle msg : string) : Prop :=
  ∃ p z : string, msg = p +:+ needle +:+ z.

(** The positions of [s] at which [needle] starts. *)
Fixpoint occurrences (needle s : list ascii) : list nat :=
  (if bool_decide (needle `prefix_of` s) then [0%nat] else [])
  ++ match s with
     | [] => []
     | _ :: t => S <$> occurrences needle t
     end.

Lemma occurrences_spec needle s n :
  n ∈ occurrences needle s ↔ ∃ p z, s = p ++ needle ++ z ∧ length p = n.
Proof.
  revert n. induction s as [|c t IH]; intros n; simpl.
  - rewrite app_nil_r. case_bool_decide as Hp.
    + rewrite list_elem_of_singleton. split.
      * intros ->. destruct Hp as [k Hk]. by exists [], k.
      * intros (p & z & E & <-). symmetry in E. by apply app_eq_nil in E as [-> _].
    + split; [by intros ?%elem_of_nil|].
      intros (p & z & E & _). symmetry in E. apply app_eq_nil in E as [-> E].
      destruct Hp. by exists z.
  - rewrite elem_of_app, list_elem_of_fmap. split.
    + intros [H|(m & -> & H)].
      * case_bool_decide as Hp; [|by apply elem_of_nil in H].
        apply list_elem_of_singleton in H as ->. destruct Hp as [k Hk]. by exists [], k.
      * apply IH in H as (p & z & -> & <-). by exists (c :: p), z.
    + intros (p & z & E & <-). destruct p as [|c' p]; simpl in E.
      * left. rewrite bool_decide_eq_true_2; [apply list_elem_of_here|]. by exists z.
      * injection E as -> ->. right. exists (length p). split; [done|].
        apply IH. by exists p, z.
Qed.

Lemma occurs_in_chars needle msg :
  occurs_in needle msg ↔ ∃ p z, chars msg = p ++ chars needle ++ z.
Proof.
  split.
  - intros (p & z & ->). exists (chars p), (chars z). by rewrite !chars_app.
  - intros (p & z & E). exists (text p), (text z).
    rewrite <- (text_chars msg), E, !text_app. by rewrite text_chars.
Qed.

Lemma not_occurs_in needle msg :
  occurrences (chars needle) (chars msg) = [] → ¬ occurs_in needle msg.
Proof.
  intros H Ho. apply occurs_in_chars in Ho as (p & z & E).
  assert (length p ∈ occurrences (chars needle) (chars msg)) as Hin.
  { apply occurrences_spec. by exists p, z. }
  rewrite H in Hin. by apply elem_of_nil in Hin.
Qed.

Lemma leftmost_key_check pre msg :
  Forall (λ i, String.length pre ≤ i)%nat (occurrences (chars "Key (") (chars msg)) →
  leftmost_key pre msg.
Proof.
  intros H p z E. rewrite Forall_forall in H. apply H.
  apply occurrences_spec. exists (chars p), (chars z).
  split; [by rewrite E, !chars_app|apply chars_length].
Qed.

(** The only place of [s] at which [needle] starts is the end of [p]. *)
Definition only_after (needle p s : string) : Prop :=
  ∀ q z : string, s = q +:+ needle +:+ z → q = p.

Lemma only_after_check needle p s :
  Forall (λ i, i = String.length p) (occurrences (chars needle) (chars s)) →
  (∃ z, s = p +:+ z) →
  only_after needle p s.
Proof.
  intros H [z0 Hs] q z E. rewrite Forall_forall in H.
  assert (String.length q = String.length p) as Hlen.
  { rewrite <- (chars_length q). apply H. apply occurrences_spec.
    exists (chars q), (chars z). by rewrite E, !chars_app. }
  rewrite Hs in E. apply (f_equal chars) in E. rewrite !chars_app in E.
  rewrite <- !chars_length in Hlen.
  apply app_inj_1 in E as [E _]; [|done].
  by rewrite <- (text_chars q), <- (text_chars p), E.
Qed.

(** ** More on the classifier *)

(** The greedy group, with what follows it: the group ends where a
    [)=(] of the message starts. *)
Lemma match_at_key_greedy_split tail a v post :
  no_newline a → no_newline v →
  ∃ more v' post' n,
    match_at false (RAlt (key_re tail) REnd)
      (chars "Key (" ++ a ++ chars ")=(" ++ v ++ chars tail ++ post)
    = Some (Some (a ++ more), n) ∧
    a ++ chars ")=(" ++ v ++ chars tail ++ post
    = (a ++ more) ++ chars ")=(" ++ v' ++ chars tail ++ post'.
Proof.
  intros Ha Hv. unfold match_at, key_re.
  set (s' := chars ")=(" ++ v ++ chars tail ++ post).
  set (k0 := λ (s1 : list ascii) (g : option (list ascii)), _).
  set (R := RSeq (rstr (chars ")=(")) (RSeq RDotStar (rstr (chars tail)))).
  cbn [rmatch]. rewrite rmatch_rstr.
  assert (is_Some (rmatch R s' (Some a) k0)) as [x Hx].
  { apply (rmatch_complete R s' (Some a) post (Some a))
      with (x := (Some a, length (chars "Key (" ++ a ++ s') - length post)).
    - apply matches_key_tail. by exists v.
    - done. }
  destruct (rmatch_group_star_greedy (λ s g, rmatch R s g k0) a s' None x Ha Hx)
    as (more & s'' & y & E & Hb & Hy & Hd).
  apply rmatch_sound in Hy as (s3 & g3 & Hm & Hy).
  apply matches_key_tail in Hm as (v' & -> & _ & ->).
  exists more, v', s3, (length (chars "Key (" ++ a ++ s') - length s3).
  split; [|done].
  cbn [rmatch] in Hd. rewrite Hd. by rewrite <- Hy.
Qed.

Lemma append_nil_inv (s t : string) : s +:+ t = s → t = "".
Proof.
  intros H. apply (f_equal chars) in H. rewrite chars_app in H.
  rewrite <- (app_nil_r (chars s)) in H at 2. apply app_inv_head in H.
  by rewrite <- (text_chars t), H.
Qed.

(** When the leftmost [Key (] of the message opens a detail with a
    non-empty column list and no other [)=(] follows, the group is that
    column list. *)
Lemma first_group_exact tail (msg pre cols v post : string) rest :
  msg = pre +:+ "Key (" +:+ cols +:+ ")=(" +:+ v +:+ tail +:+ post →
  cols ≠ "" → no_newline (chars cols) → no_newline (chars v) →
  leftmost_key pre msg →
  only_after ")=(" cols (cols +:+ ")=(" +:+ v +:+ tail +:+ post) →
  first_group (RAlt (key_re tail) REnd) (msg :: rest) = Some cols.
Proof.
  intros Hmsg Hne Hc Hv Hleft Honly.
  set (re := RAlt (key_re tail) REnd).
  set (s1 := chars "Key (" ++ chars cols ++ chars ")=(" ++ chars v ++ chars tail ++ chars post).
  assert (chars msg = chars pre ++ s1) as Hchars.
  { rewrite Hmsg. by rewrite !chars_app. }
  destruct (match_at_key_greedy_split tail (chars cols) (chars v) (chars post) Hc Hv)
    as (more & v' & post' & n & Hm & Hsplit). fold s1 re in Hm.
  assert (more = []) as ->.
  { assert (text (chars cols ++ more) = cols) as Hp.
    { apply (Honly _ (text (v' ++ chars tail ++ post'))).
      rewrite <- (text_chars (cols +:+ _)), !chars_app, Hsplit.
      rewrite !text_app. by rewrite !text_chars. }
    rewrite text_app, text_chars in Hp. apply append_nil_inv in Hp.
    by destruct more. }
  rewrite app_nil_r in Hm.
  assert (search re (chars msg) = Some (Some (chars cols))) as Hs.
  { rewrite Hchars, search_skip; [by apply (search_here _ _ _ n)|].
    intros p q Hpre Hq.
    destruct (match_at false re (q ++ s1)) as [[og k]|] eqn:E; [exfalso|done].
    apply match_at_key_inv in E as [(a & v0 & post0 & E & _)|[_ E]].
    - assert (String.length pre ≤ String.length (text p))%nat as Hlen.
      { apply (Hleft (text p) (text (a ++ chars ")=(" ++ v0 ++ chars tail ++ post0))).
        rewrite <- (text_chars msg), Hchars, Hpre, <- app_assoc, E.
        by rewrite !text_app. }
      rewrite <- !chars_length, chars_text, Hpre, length_app in Hlen.
      destruct q; [done|]. simpl in Hlen. lia.
    - destruct q as [|c [|c' q]]; [done|..]; by simpl in E. }
  unfold first_group.
  pose proof (head_scan re (chars msg)) as Hh. rewrite Hs in Hh. simpl in Hh.
  fold (findall re msg) in Hh.
  destruct (findall re msg) as [|g gs]; [done|]. injection Hh as ->.
  unfold group_text. simpl. rewrite text_chars.
  by rewrite decide_False.
Qed.



Lemma first_group_none_key tail info :
  (∀ msg rest, info = msg :: rest → ¬ occurs_in "Key (" msg) →
  first_group (RAlt (key_re tail) REnd) info = None.
Proof.
  intros H. destruct (first_group _ info) as [cols|] eqn:E; [exfalso|done].
  apply first_group_sound in E as (msg & rest & Hinfo & (pre & v & post & Hmsg & _) & _).
  apply (H msg rest Hinfo). by exists pre, (cols +:+ ")=(" +:+ v +:+ tail +:+ post).
Qed.

(** X1: A constraint violation whose message holds no [Key (] at all, or
    that has no message, is classified as the generic integrity error,
    and the full error is logged. *)
Theorem no_key_detail_is_generic (cls : model) (exc : IntegrityError) (w : World) :
  (∀ msg rest, orig_args exc = msg :: rest → ¬ occurs_in "Key (" msg) →
  _raise_validation_exception (A := ()) cls exc w
  = (inl (integrity_violation cls exc), add_log (integrity_log cls exc) w).
Proof.
  intros H. unfold _raise_validation_exception.
  rewrite RE_ALREADY_EXIST_COMPILED_eq, RE_NOT_PRESENT_COMPILED_eq.
  by rewrite !first_group_none_key.
Qed.

Definition null_name : IntegrityError :=
  {| orig_args := ["null value in column name violates not-null constraint"];
     exc_str := "(IntegrityError) null value in column name" |}.

Lemma no_key_detail_is_generic_witness :
  _raise_validation_exception (A := ()) Team null_name empty_world
  = (inl (integrity_violation Team null_name),
     add_log (integrity_log Team null_name) empty_world).
Proof.
  apply no_key_detail_is_generic.
  intros msg rest [= <- <-]. apply not_occurs_in. by vm_compute.
Defined.

(** X2: A save whose flush meets a violation with the detail
    [Key (cols)=(v) already exists] at the leftmost [Key (] of the
    message, no other [)=(] following, raises the uniqueness violation
    that carries exactly [cols]; nothing is written and nothing is
    logged. *)
Theorem save_unique_violation (cls : model) (self : loc) (o : instance)
    (exc : IntegrityError) (w : World) (msg pre cols v post : string) (rest : list string) :
  w_heap w !! self = Some (OInst o) →
  w_check w (w_rows w) (flushed_rows cls o w) = Some exc →
  orig_args exc = msg :: rest →
  msg = pre +:+ "Key (" +:+ cols +:+ ")=(" +:+ v +:+ ") already exists" +:+ post →
  cols ≠ "" → no_newline (chars cols) → no_newline (chars v) →
  leftmost_key pre msg →
  only_after ")=(" cols (cols +:+ ")=(" +:+ v +:+ ") already exists" +:+ post) →
  save cls self w = (inl (unique_violation cls cols exc), w).
Proof.
  intros Hself Hc Hargs Hmsg Hne Hcols Hv Hleft Honly.
  rewrite (save_violation cls self o exc w Hself Hc).
  unfold _raise_validation_exception. rewrite Hargs, RE_ALREADY_EXIST_COMPILED_eq.
  by rewrite (first_group_exact _ msg pre cols v post rest Hmsg Hne Hcols Hv Hleft Honly).
Qed.

Definition second_alpha : instance :=
  {| inst_attrs := {[ "name" := VStr "Alpha Team" ]}; inst_persistent := false |}.

Definition duplicate_alpha : IntegrityError :=
  {| orig_args := ["duplicate key value violates unique constraint: Key (name)=(Alpha Team) already exists."];
     exc_str := "(IntegrityError) duplicate key value violates unique constraint" |}.

Lemma save_unique_violation_witness :
  save Team 0 (team_world [OInst second_alpha])
  = (inl (unique_violation Team "name" duplicate_alpha), team_world [OInst second_alpha]).
Proof.
  apply (save_unique_violation Team 0 second_alpha duplicate_alpha
           (team_world [OInst second_alpha])
           "duplicate key value violates unique constraint: Key (name)=(Alpha Team) already exists."
           "duplicate key value violates unique constraint: " "name" "Alpha Team" "." []).
  - reflexivity.
  - by vm_compute.
  - reflexivity.
  - reflexivity.
  - done.
  - apply (bool_decide_unpack _). by vm_compute.
  - apply (bool_decide_unpack _). by vm_compute.
  - apply leftmost_key_check. apply (bool_decide_unpack _). by vm_compute.
  - apply only_after_check; [|by eexists].
    apply (bool_decide_unpack _). by vm_compute.
Defined.






(** ** Saving a new record *)

Lemma with_default_lookup_ne col d (r : row) k :
  k ≠ col → with_default col d r !! k = r !! k.
Proof.
  intros H. unfold with_default. destruct (r !! col); [done|].
  by apply lookup_insert_ne.
Qed.

Lemma with_default_lookup_Some col d (r : row) k v :
  r !! k = Some v → with_default col d r !! k = Some v.
Proof.
  intros H. unfold with_default. destruct (r !! col) eqn:E; [done|].
  rewrite lookup_insert_ne; [done|]. intros <-. congruence.
Qed.

Lemma with_default_lookup_None col d (r : row) :
  r !! col = None → with_default col d r !! col = Some d.
Proof. intros H. unfold with_default. rewrite H. apply lookup_insert_eq. Qed.

(** The identifier of an inserted row comes from the sequence when the
    instance has none. *)
Lemma insert_values_id cls o seq now :
  attr o "id" = VNone → insert_values cls o seq now !! "id" = Some (VInt seq).
Proof.
  intros H. unfold insert_values. rewrite H.
  assert (∀ r : row, r !! "id" = Some (VInt seq) →
            (if cls_soft_delete cls then with_default "is_active" (VBool true) r else r)
            !! "id" = Some (VInt seq)) as Hsoft.
  { intros r Hr. destruct (cls_soft_delete cls); [|done].
    by apply with_default_lookup_Some. }
  apply Hsoft. do 2 apply with_default_lookup_Some. apply lookup_insert_eq.
Qed.

(** The cells the instance has set are written as they are. *)
Lemma insert_values_lookup cls o seq now k v :
  k ∈ columns cls → k ≠ "id" → inst_attrs o !! k = Some v →
  insert_values cls o seq now !! k = Some v.
Proof.
  intros Hk Hid Hv. unfold insert_values.
  assert (column_values cls o !! k = Some v) as H0
    by by rewrite column_values_lookup.
  assert ((match attr o "id" with
           | VNone => <["id" := VInt seq]> (column_values cls o)
           | _ => column_values cls o
           end) !! k = Some v) as H1.
  { destruct (attr o "id"); try done. by rewrite lookup_insert_ne. }
  destruct (cls_soft_delete cls); by repeat apply with_default_lookup_Some.
Qed.

Lemma find_app_r {A} (p : A → bool) (l1 l2 : list A) :
  (∀ x, x ∈ l1 → p x = false) → List.find p (l1 ++ l2) = List.find p l2.
Proof.
  induction l1 as [|x l1 IH]; intros H; [done|]. simpl.
  rewrite (H x) by apply list_elem_of_here. apply IH.
  intros y Hy. apply H. by apply list_elem_of_further.
Qed.

(** The world after the successful save of a new record. *)
Definition inserted_world (cls : model) (self : loc) (o : instance) (w : World) : World :=
  let r := insert_values cls o (w_seq w) (w_clock w) in
  {| w_heap := <[self := OInst {| inst_attrs := r ∪ inst_attrs o;
                                  inst_persistent := true |}]> (w_heap w);
     w_rows := w_rows w ++ [r];
     w_seq := (w_seq w + 1)%Z; w_clock := w_clock w; w_check := w_check w;
     w_log := w_log w ++ [{| log_level := INFO;
                             log_msg := cls_name cls +:+ " with id=" +:+
                                        pretty (w_seq w) +:+ " is created" |}] |}.

Lemma save_new_run cls self o w :
  w_heap w !! self = Some (OInst o) →
  inst_persistent o = false →
  attr o "id" = VNone →
  w_check w (w_rows w)
    (w_rows w ++ [insert_values cls o (w_seq w) (w_clock w)]) = None →
  (∀ x, x ∈ w_rows w → cell x "id" ≠ VInt (w_seq w)) →
  save cls self w = (inr (), inserted_world cls self o w).
Proof.
  intros Hself Hp Hid Hc Hfresh.
  set (r := insert_values cls o (w_seq w) (w_clock w)) in *.
  assert (self < length (w_heap w))%nat as Hlt by by eapply lookup_lt_Some.
  assert (r !! "id" = Some (VInt (w_seq w))) as Hrid by by apply insert_values_id.
  set (o1 := {| inst_attrs := r ∪ inst_attrs o; inst_persistent := true |}).
  assert (attr o1 "id" = VInt (w_seq w)) as Hid1.
  { unfold attr, o1. simpl. by rewrite (lookup_union_Some_l _ _ _ _ Hrid). }
  unfold save.
  rewrite (bind_ok _ _ _ _ _ (read_inst_ok _ _ _ Hself)).
  set (w1 := set_heap (<[self := OInst o1]> (w_heap w))
               (set_seq (w_seq w + 1) (set_rows (w_rows w ++ [r]) w))).
  assert (flush cls self w = (inr None, w1)) as Hflush.
  { unfold flush. rewrite (bind_ok _ _ _ _ _ (read_inst_ok _ _ _ Hself)).
    rewrite bind_run. unfold get_world at 1. unfold flushed_rows. rewrite Hp.
    fold r. rewrite Hc. done. }
  rewrite (bind_ok _ _ _ _ _ Hflush). rewrite ret_bind.
  assert (w_heap w1 !! self = Some (OInst o1)) as Hself1
    by by apply list_lookup_insert_eq.
  rewrite (bind_ok _ _ _ _ _ (read_inst_ok _ _ _ Hself1)).
  rewrite Hid, decide_True by done.
  rewrite (bind_ok _ _ _ _ _ (logger_run _ _ _)).
  unfold refresh.
  rewrite (bind_ok _ _ _ _ _ (read_inst_ok self o1 (add_log _ w1) Hself1)).
  rewrite bind_run. unfold get_world. simpl. rewrite Hid1.
  rewrite find_app_r.
  2:{ intros x Hx. unfold has_id. apply bool_decide_eq_false_2. by apply Hfresh. }
  simpl. unfold has_id at 1. rewrite bool_decide_eq_true_2.
  2:{ unfold cell. by rewrite Hrid. }
  unfold store, modify, inserted_world. simpl. fold r.
  rewrite list_insert_insert_eq.
  by rewrite (assoc_L (∪)), (idemp_L (∪)).
Qed.

Lemma find_app {A} (p : A → bool) (l1 l2 : list A) :
  List.find p (l1 ++ l2)
  = match List.find p l1 with Some x => Some x | None => List.find p l2 end.
Proof. induction l1 as [|x l1 IH]; [done|]. simpl. by destruct (p x). Qed.

Lemma get_by_id_run cls item_id w :
  get_by_id cls item_id w = (inr (List.find (has_id item_id) (w_rows w)), w).
Proof.
  unfold get_by_id. rewrite get_one_by_filter_run. f_equal. f_equal.
  apply find_ext. intros r. simpl. by rewrite holds_eq, andb_true_r.
Qed.

(** X4: Saving a record that has no row yet and no identifier, on a table
    whose identifiers the sequence has not reached and with the backend
    accepting the row: the row is appended with the next identifier of
    the sequence and the cells the record has set, the creation is logged
    with that identifier, the record is found by it, and every other
    lookup by identifier answers as before. *)
Theorem save_new_record (cls : model) (self : loc) (o : instance) (w : World) :
  w_heap w !! self = Some (OInst o) →
  inst_persistent o = false →
  attr o "id" = VNone →
  w_check w (w_rows w)
    (w_rows w ++ [insert_values cls o (w_seq w) (w_clock w)]) = None →
  (∀ x, x ∈ w_rows w → cell x "id" ≠ VInt (w_seq w)) →
  let r := insert_values cls o (w_seq w) (w_clock w) in
  ∃ w', save cls self w = (inr (), w') ∧
        w_rows w' = w_rows w ++ [r] ∧
        w_seq w' = (w_seq w + 1)%Z ∧
        cell r "id" = VInt (w_seq w) ∧
        (∀ k v, k ∈ columns cls → k ≠ "id" → inst_attrs o !! k = Some v → cell r k = v) ∧
        w_log w' = w_log w ++ [{| log_level := INFO;
                                  log_msg := cls_name cls +:+ " with id=" +:+
                                             pretty (w_seq w) +:+ " is created" |}] ∧
        get_by_id cls (VInt (w_seq w)) w' = (inr (Some r), w') ∧
        ∀ i, i ≠ VInt (w_seq w) → (get_by_id cls i w').1 = (get_by_id cls i w).1.
Proof.
  intros Hself Hp Hid Hc Hfresh r.
  assert (cell r "id" = VInt (w_seq w)) as Hrid.
  { unfold cell, r. by rewrite insert_values_id. }
  exists (inserted_world cls self o w).
  split; [by apply save_new_run|]. split; [done|]. split; [done|]. split; [done|].
  split; [|split; [done|split]].
  - intros k v Hk Hne Hv. unfold cell, r. by rewrite (insert_values_lookup _ _ _ _ k v).
  - rewrite get_by_id_run. simpl. fold r. rewrite find_app_r.
    + simpl. unfold has_id. by rewrite bool_decide_eq_true_2.
    + intros x Hx. apply bool_decide_eq_false_2. by apply Hfresh.
  - intros i Hi. rewrite !get_by_id_run. simpl. fold r. rewrite find_app.
    destruct (List.find (has_id i) (w_rows w)); [done|]. simpl.
    unfold has_id. rewrite bool_decide_eq_false_2; [done|]. by rewrite Hrid.
Qed.

Definition delta : instance :=
  {| inst_attrs := {[ "name" := VStr "Delta" ]}; inst_persistent := false |}.

Lemma save_new_record_witness :
  let w := team_world [OInst delta] in
  let r := insert_values Team delta (w_seq w) (w_clock w) in
  ∃ w', save Team 0 w = (inr (), w') ∧
        w_rows w' = w_rows w ++ [r] ∧
        get_by_id Team (VInt (w_seq w)) w' = (inr (Some r), w').
Proof.
  intros w r.
  destruct (save_new_record Team 0 delta w)
    as (w' & Hsave & Hrows & _ & _ & _ & _ & Hget & _).
  - reflexivity.
  - reflexivity.
  - reflexivity.
  - vm_compute. reflexivity.
  - apply Forall_forall. apply (bool_decide_unpack _). vm_compute. exact I.
  - exists w'. split; [exact Hsave|]. split; [exact Hrows|exact Hget].
Defined.

(** ** Creating a record *)

Lemma NoDup_filter_keys {V} (p : string * V → bool) (d : pydict V) :
  NoDup (dict_keys d) → NoDup (dict_keys (List.filter p d)).
Proof.
  unfold dict_keys. induction d as [|kv d IH]; simpl; [done|].
  intros [Hk Hd]%NoDup_cons. destruct (p kv); simpl; [|by apply IH].
  apply NoDup_cons. split; [|by apply IH].
  intros H. apply Hk. apply list_elem_of_fmap in H as (kv' & -> & H).
  apply list_elem_of_fmap. exists kv'. split; [done|].
  apply list_elem_of_In, filter_In in H as [H _]. by apply list_elem_of_In.
Qed.

Lemma column_values_unknown cls o k :
  k ∉ columns cls → column_values cls o !! k = None.
Proof.
  intros H. unfold column_values. apply map_lookup_filter_None. right.
  intros v _ Hk. by apply H.
Qed.

(** An inserted row has no cell outside the columns of the class. *)
Lemma insert_values_unknown cls o seq now k :
  k ∉ columns cls → insert_values cls o seq now !! k = None.
Proof.
  intros H. unfold insert_values.
  assert (k ≠ "id") as H1 by (intros ->; apply H, id_column).
  assert (k ≠ "created_at") as H2.
  { intros ->. apply H. unfold columns, base_columns. apply elem_of_app. left.
    do 2 apply list_elem_of_further. apply list_elem_of_here. }
  assert (k ≠ "updated_at") as H3.
  { intros ->. apply H. unfold columns, base_columns. apply elem_of_app. left.
    do 3 apply list_elem_of_further. apply list_elem_of_here. }
  assert ((match attr o "id" with
           | VNone => <["id" := VInt seq]> (column_values cls o)
           | _ => column_values cls o
           end) !! k = None) as H0.
  { destruct (attr o "id"); try by apply column_values_unknown.
    rewrite lookup_insert_ne by done. by apply column_values_unknown. }
  destruct (cls_soft_delete cls) eqn:Es.
  - rewrite with_default_lookup_ne.
    + by rewrite !with_default_lookup_ne.
    + intros ->. by apply H, is_active_column.
  - by rewrite !with_default_lookup_ne.
Qed.

(** The entries of [data] the constructor receives. *)
Definition known_entries (cls : model) (data : pydict value) : pydict value :=
  List.filter (λ kv, bool_decide (kv.1 ∈ columns cls)) data.

Definition new_instance (cls : model) (data : pydict value) : instance :=
  {| inst_attrs := assign_all (known_entries cls data) ∅; inst_persistent := false |}.

(** X5: Creating a record from a mapping that gives no identifier, on a
    table whose identifiers the sequence has not reached and with the
    backend accepting the row: exactly one row is appended; it carries the
    next identifier of the sequence and every entry of the mapping whose
    key is a column of the class; a key that is no column leaves no cell
    in the row; the instance returned is a new object, persistent and
    carrying the identifier, the objects that were there are untouched,
    and the record is found by its identifier. *)
Theorem create_inserts_known_entries (cls : model) (data : pydict value) (w : World) :
  NoDup (dict_keys data) →
  "id" ∉ dict_keys data →
  let r := insert_values cls (new_instance cls data) (w_seq w) (w_clock w) in
  w_check w (w_rows w) (w_rows w ++ [r]) = None →
  (∀ x, x ∈ w_rows w → cell x "id" ≠ VInt (w_seq w)) →
  ∃ w' i,
    create cls data w = (inr (length (w_heap w)), w') ∧
    w_rows w' = w_rows w ++ [r] ∧
    cell r "id" = VInt (w_seq w) ∧
    (∀ k v, (k, v) ∈ data → k ∈ columns cls → cell r k = v) ∧
    (∀ k, k ∉ columns cls → r !! k = None) ∧
    w_heap w' = w_heap w ++ [OInst i] ∧
    inst_persistent i = true ∧
    attr i "id" = VInt (w_seq w) ∧
    get_by_id cls (VInt (w_seq w)) w' = (inr (Some r), w').
Proof.
  intros Hnd Hnoid r Hc Hfresh.
  set (o := new_instance cls data) in *.
  set (wa := set_heap (w_heap w ++ [OInst o]) w).
  assert (w_heap wa !! length (w_heap w) = Some (OInst o)) as Hself.
  { unfold wa. simpl. by rewrite lookup_app_r, Nat.sub_diag. }
  assert (∀ k, k ∉ dict_keys (known_entries cls data) →
               inst_attrs o !! k = None) as Hother.
  { intros k Hk. unfold o, new_instance. simpl.
    by rewrite assign_all_lookup_other. }
  assert (∀ k, k ∈ dict_keys (known_entries cls data) → k ∈ dict_keys data ∧ k ∈ columns cls)
    as Hkeys.
  { intros k Hk. unfold dict_keys in *. apply list_elem_of_fmap in Hk as (kv & -> & Hk).
    apply list_elem_of_In, filter_In in Hk as [Hin Hp].
    split; [|by apply bool_decide_eq_true_1 in Hp].
    apply list_elem_of_fmap. exists kv. split; [done|]. by apply list_elem_of_In. }
  assert (attr o "id" = VNone) as Hid.
  { unfold attr. rewrite Hother; [done|]. intros H. by apply Hkeys in H as [H _]. }
  assert (cell r "id" = VInt (w_seq w)) as Hrid.
  { unfold cell, r. by rewrite insert_values_id. }
  pose proof (save_new_run cls (length (w_heap w)) o wa Hself eq_refl Hid Hc Hfresh) as Hsave.
  exists (inserted_world cls (length (w_heap w)) o wa),
         {| inst_attrs := r ∪ inst_attrs o; inst_persistent := true |}.
  split; [|split; [done|split; [done|split; [|split; [|split; [|split; [done|split]]]]]]].
  - unfold create. fold (known_entries cls data).
    assert (alloc (OInst o) w = (inr (length (w_heap w)), wa)) as Halloc by done.
    change (foldl (λ a kv, <[kv.1 := kv.2]> a) ∅ (known_entries cls data))
      with (assign_all (known_entries cls data) ∅).
    fold (new_instance cls data). fold o.
    rewrite (bind_ok _ _ _ _ _ Halloc). by rewrite (bind_ok _ _ _ _ _ Hsave).
  - intros k v Hin Hk. unfold cell, r.
    destruct (decide (k = "id")) as [->|Hne].
    { exfalso. apply Hnoid. unfold dict_keys. apply list_elem_of_fmap.
      by exists ("id", v). }
    rewrite (insert_values_lookup _ _ _ _ k v); [done..|].
    unfold o, new_instance. simpl. apply assign_all_lookup.
    + by apply NoDup_filter_keys.
    + apply list_elem_of_In, filter_In. split; [by apply list_elem_of_In|].
      by apply bool_decide_eq_true_2.
  - intros k Hk. by apply insert_values_unknown.
  - simpl. fold r. rewrite insert_app_r_alt by done.
    by rewrite Nat.sub_diag.
  - unfold attr. simpl. unfold cell in Hrid.
    destruct (r !! "id") as [x|] eqn:E; [|done].
    by rewrite (lookup_union_Some_l _ _ _ _ E).
  - rewrite get_by_id_run. simpl. fold r. rewrite find_app_r.
    + simpl. unfold has_id. by rewrite bool_decide_eq_true_2.
    + intros x Hx. apply bool_decide_eq_false_2. by apply Hfresh.
Qed.

Definition delta_data : pydict value :=
  [("name", VStr "Delta"); ("nickname", VStr "D"); ("status", VStr "open")].

Lemma create_inserts_known_entries_witness :
  let w := team_world [] in
  let r := insert_values Team (new_instance Team delta_data) (w_seq w) (w_clock w) in
  ∃ w' i,
    create Team delta_data w = (inr (length (w_heap w)), w') ∧
    w_rows w' = w_rows w ++ [r] ∧
    (∀ k v, (k, v) ∈ delta_data → k ∈ columns Team → cell r k = v) ∧
    (∀ k, k ∉ columns Team → r !! k = None) ∧
    inst_persistent i = true.
Proof.
  intros w r.
  destruct (create_inserts_known_entries Team delta_data w)
    as (w' & i & Hrun & Hrows & _ & Hcells & Hunknown & _ & Hp & _).
  - apply (bool_decide_unpack _). vm_compute. exact I.
  - apply (bool_decide_unpack _). vm_compute. exact I.
  - vm_compute. reflexivity.
  - apply Forall_forall. apply (bool_decide_unpack _). vm_compute. exact I.
  - exists w', i. split; [exact Hrun|]. split; [exact Hrows|].
    split; [exact Hcells|]. split; [exact Hunknown|exact Hp].
Defined.

(** ** Hard delete *)

Lemma find_filter_implied {A} (p q : A → bool) (l : list A) :
  (∀ x, p x = true → q x = true) →
  List.find p (List.filter q l) = List.find p l.
Proof.
  intros H. induction l as [|x l IH]; [done|]. simpl.
  destruct (q x) eqn:Eq; simpl.
  - by rewrite IH.
  - destruct (p x) eqn:Ep; [|done]. apply H in Ep. congruence.
Qed.

Lemma find_filter_excluded {A} (p : A → bool) (l : list A) :
  List.find p (List.filter (λ x, negb (p x)) l) = None.
Proof.
  induction l as [|x l IH]; [done|]. simpl.
  destruct (p x) eqn:Ep; simpl; [done|]. by rewrite Ep.
Qed.

(** X6: The base delete of a persistent record. When the backend accepts it,
    every row with the identifier of the record is removed and no other,
    the deletion is logged, the record is not found by its identifier any
    more, and every other lookup by identifier answers as before. When
    the backend refuses it, the integrity error goes to the caller as it
    is, unclassified, and nothing is removed or logged. *)
Theorem hard_delete_removes_row (cls : model) (self : loc) (o : instance) (w : World) :
  w_heap w !! self = Some (OInst o) →
  inst_persistent o = true →
  let rows' := List.filter (λ r, negb (has_id (attr o "id") r)) (w_rows w) in
  (w_check w (w_rows w) rows' = None →
   ∃ w', delete cls self w = (inr (), w') ∧
         w_rows w' = rows' ∧
         (∀ r, r ∈ w_rows w' ↔ r ∈ w_rows w ∧ cell r "id" ≠ attr o "id") ∧
         get_by_id cls (attr o "id") w' = (inr None, w') ∧
         (∀ i, i ≠ attr o "id" → (get_by_id cls i w').1 = (get_by_id cls i w).1) ∧
         w_log w' = w_log w ++
           [{| log_level := DEBUG;
               log_msg := cls_name cls +:+ " with id=" +:+ py_str (attr o "id")
                          +:+ " was deleted" |}])
  ∧ (∀ exc, w_check w (w_rows w) rows' = Some exc →
            delete cls self w = (inl (RawIntegrityError exc), w)).
Proof.
  intros Hself Hp rows'.
  assert (delete cls self w
          = match w_check w (w_rows w) rows' with
            | Some exc => (inl (RawIntegrityError exc), w)
            | None =>
                (inr (),
                 add_log {| log_level := DEBUG;
                            log_msg := cls_name cls +:+ " with id=" +:+
                                       py_str (attr o "id") +:+ " was deleted" |}
                   (set_heap (<[self := OInst {| inst_attrs := inst_attrs o;
                                                 inst_persistent := false |}]> (w_heap w))
                      (set_rows rows' w)))
            end) as Hrun.
  { unfold delete. rewrite (bind_ok _ _ _ _ _ (read_inst_ok _ _ _ Hself)).
    rewrite bind_run. unfold get_world at 1. rewrite Hp, ret_bind.
    fold rows'. by destruct (w_check w (w_rows w) rows'). }
  split.
  - intros Hc. rewrite Hc in Hrun. eexists. split; [exact Hrun|].
    split; [done|]. split; [|split; [|split; [|done]]].
    + intros r. simpl. unfold rows'.
      rewrite list_elem_of_In, filter_In, <- list_elem_of_In.
      unfold has_id. rewrite negb_true_iff, bool_decide_eq_false. tauto.
    + rewrite get_by_id_run. simpl. unfold rows'. by rewrite find_filter_excluded.
    + intros i Hi. rewrite !get_by_id_run. simpl. unfold rows'.
      rewrite find_filter_implied; [done|].
      intros x Hx. unfold has_id in *. apply bool_decide_eq_true_1 in Hx.
      apply negb_true_iff, bool_decide_eq_false_2. congruence.
  - intros exc Hc. by rewrite Hc in Hrun.
Qed.

Lemma hard_delete_removes_row_witness :
  let w := team_world [OInst alpha] in
  ∃ w', delete Team 0 w = (inr (), w') ∧
        get_by_id Team (attr alpha "id") w' = (inr None, w').
Proof.
  intros w.
  destruct (hard_delete_removes_row Team 0 alpha w) as [Hok _].
  - reflexivity.
  - reflexivity.
  - destruct Hok as (w' & Hrun & _ & _ & Hget & _).
    + vm_compute. reflexivity.
    + exists w'. split; [exact Hrun|exact Hget].
Defined.

(** ** Updating a persisted record *)





(** ** Delete and undelete of a soft-deletable record *)

(** A successful save of a persistent record whose row is [old]: the row
    is rewritten in place, and the record reads it back. *)
Lemma save_persistent_ok cls self o old w :
  w_heap w !! self = Some (OInst o) →
  inst_persistent o = true →
  attr o "id" ≠ VNone →
  List.find (has_id (attr o "id")) (w_rows w) = Some old →
  w_check w (w_rows w) (flushed_rows cls o w) = None →
  save cls self w
  = (inr (), saved_world cls self o (flushed_rows cls o w)
               (update_values cls o old (w_clock w)) w)
  ∧ List.find (has_id (attr o "id")) (flushed_rows cls o w)
    = Some (update_values cls o old (w_clock w)).
Proof.
  intros Hself Hp Hid Hold Hc.
  rewrite (save_persistent_run cls self o w Hself Hp Hid), Hc.
  rewrite (flushed_rows_persistent cls o w Hp).
  set (f := λ r, if has_id (attr o "id") r
                 then update_values cls o r (w_clock w) else r).
  assert (∀ r, has_id (attr o "id") (f r) = has_id (attr o "id") r) as Hf.
  { intros r. unfold f. destruct (has_id (attr o "id") r) eqn:E; [|done].
    by apply update_values_id. }
  assert (has_id (attr o "id") old = true) as Hhas
    by by apply find_some_elem in Hold as [_ ?].
  rewrite (find_fmap_preserved _ f _ Hf), Hold. simpl.
  unfold f at 2 4. by rewrite Hhas.
Qed.

(** A cell the record has not changed is written back as it was. *)
Lemma update_values_keeps cls o old now k :
  k ≠ "updated_at" →
  (∀ v, k ∈ columns cls → inst_attrs o !! k = Some v → cell old k = v) →
  cell (update_values cls o old now) k = cell old k.
Proof.
  intros Hk H. rewrite update_values_cell by done.
  destruct (column_values cls o !! k) as [v|] eqn:E.
  - rewrite (cell_union_l _ _ _ v E). symmetry.
    unfold column_values in E. apply map_lookup_filter_Some in E as [E Hcol].
    by apply H.
  - by apply cell_union_r.
Qed.

Lemma cell_Some (r : row) k v : r !! k = Some v → cell r k = v.
Proof. intros H. unfold cell. by rewrite H. Qed.

(** X8: Delete followed by undelete, on a persisted soft-deletable record
    that has no pending change and with a backend that accepts every
    write: both succeed, the table keeps its number of rows, and the
    record is found by its identifier with the active flag true and every
    other cell, the update time aside, as it was before the delete. *)
Theorem undelete_restores (cls : model) (self : loc) (o : instance) (old : row)
    (w : World) :
  cls_soft_delete cls = true →
  w_heap w !! self = Some (OInst o) →
  inst_persistent o = true →
  attr o "id" ≠ VNone →
  List.find (has_id (attr o "id")) (w_rows w) = Some old →
  (∀ k v, k ∈ columns cls → inst_attrs o !! k = Some v → cell old k = v) →
  (∀ rows rows', w_check w rows rows' = None) →
  ∃ w1 w2 r,
    BaseModelSoftDelete.delete cls self w = (inr (), w1) ∧
    BaseModelSoftDelete.undelete cls self w1 = (inr (), w2) ∧
    length (w_rows w2) = length (w_rows w) ∧
    get_by_id cls (attr o "id") w2 = (inr (Some r), w2) ∧
    cell r "is_active" = VBool true ∧
    (∀ k, k ≠ "is_active" → k ≠ "updated_at" → cell r k = cell old k).
Proof.
  intros Hsoft Hself Hp Hid Hold Hclean Hopen.
  assert (self < length (w_heap w))%nat as Hlt by by eapply lookup_lt_Some.
  (* the delete *)
  set (o1 := with_attrs o (<["is_active" := VBool false]> (inst_attrs o))).
  set (w1 := set_heap (<[self := OInst o1]> (w_heap w)) w).
  assert (w_heap w1 !! self = Some (OInst o1)) as Hself1
    by by apply list_lookup_insert_eq.
  assert (attr o1 "id" = attr o "id") as Hid1.
  { unfold attr, o1. simpl. by rewrite lookup_insert_ne. }
  destruct (save_persistent_ok cls self o1 old w1 Hself1 Hp) as [Hsave1 Hfind1].
  { by rewrite Hid1. } { by rewrite Hid1. } { apply Hopen. }
  set (r1 := update_values cls o1 old (w_clock w1)) in *.
  set (rows1 := flushed_rows cls o1 w1) in *.
  set (w2 := saved_world cls self o1 rows1 r1 w1) in *.
  assert (cell r1 "id" = attr o "id") as Hr1id.
  { apply find_some_elem in Hfind1 as [_ H]. unfold has_id in H.
    apply bool_decide_eq_true_1 in H. by rewrite <- Hid1. }
  assert (∀ k, k ≠ "is_active" → k ≠ "updated_at" → cell r1 k = cell old k) as Hr1.
  { intros k Hk1 Hk2. apply update_values_keeps; [done|].
    intros v Hcol Hv. apply Hclean; [done|].
    unfold o1 in Hv. simpl in Hv. by rewrite lookup_insert_ne in Hv. }
  (* the undelete *)
  set (o2 := {| inst_attrs := r1 ∪ inst_attrs o1; inst_persistent := true |}).
  assert (w_heap w2 !! self = Some (OInst o2)) as Hself2.
  { unfold w2, saved_world. simpl. apply list_lookup_insert_eq.
    by rewrite length_insert. }
  set (o3 := with_attrs o2 (<["is_active" := VBool true]> (inst_attrs o2))).
  set (w3 := set_heap (<[self := OInst o3]> (w_heap w2)) w2).
  assert (w_heap w3 !! self = Some (OInst o3)) as Hself3.
  { apply list_lookup_insert_eq. by eapply lookup_lt_Some. }
  assert (attr o3 "id" = attr o "id") as Hid3.
  { unfold attr, o3, o2. simpl. rewrite lookup_insert_ne by done.
    unfold cell in Hr1id. destruct (r1 !! "id") as [x|] eqn:E.
    - rewrite (lookup_union_Some_l _ _ _ _ E). by simpl in *.
    - simpl in Hr1id. by rewrite <- Hr1id in Hid. }
  destruct (save_persistent_ok cls self o3 r1 w3 Hself3 eq_refl) as [Hsave3 Hfind3].
  { by rewrite Hid3. } { rewrite Hid3, <- Hid1. exact Hfind1. } { apply Hopen. }
  set (r3 := update_values cls o3 r1 (w_clock w3)) in *.
  exists w2, (saved_world cls self o3 (flushed_rows cls o3 w3) r3 w3), r3.
  split; [|split; [|split; [|split; [|split]]]].
  - unfold BaseModelSoftDelete.delete.
    by rewrite (bind_ok _ _ _ _ _ (setattr_run _ _ _ _ _ Hself)).
  - unfold BaseModelSoftDelete.undelete.
    by rewrite (bind_ok _ _ _ _ _ (setattr_run _ _ _ _ _ Hself2)).
  - simpl. rewrite (flushed_rows_persistent cls o3 w3 eq_refl), length_fmap.
    simpl. unfold rows1. by rewrite (flushed_rows_persistent cls o1 w1 Hp), length_fmap.
  - rewrite get_by_id_run. simpl. by rewrite <- Hid3, Hfind3.
  - unfold r3. rewrite update_values_cell by done. apply cell_union_l.
    rewrite column_values_lookup by by apply is_active_column.
    apply lookup_insert_eq.
  - intros k Hk1 Hk2. rewrite <- (Hr1 k Hk1 Hk2).
    apply update_values_keeps; [done|]. intros v Hcol Hv.
    unfold o3, o2 in Hv. simpl in Hv. rewrite lookup_insert_ne in Hv by done.
    apply lookup_union_Some_raw in Hv as [Hv|[Hnone Hv]]; [by apply cell_Some|].
    rewrite (Hr1 k Hk1 Hk2). apply Hclean; [done|].
    unfold o1 in Hv. simpl in Hv. by rewrite lookup_insert_ne in Hv.
Qed.

(** The sample table behind a backend without constraints. *)
Definition open_world (heap : list pyobj) : World :=
  {| w_heap := heap; w_rows := team_rows; w_seq := 4; w_clock := 100;
     w_check := no_constraints; w_log := [] |}.

Lemma undelete_restores_witness :
  let w := open_world [OInst alpha] in
  ∃ w1 w2 r,
    BaseModelSoftDelete.delete Team 0 w = (inr (), w1) ∧
    BaseModelSoftDelete.undelete Team 0 w1 = (inr (), w2) ∧
    get_by_id Team (attr alpha "id") w2 = (inr (Some r), w2) ∧
    cell r "is_active" = VBool true.
Proof.
  intros w.
  destruct (undelete_restores Team 0 alpha (team_row 1 "Alpha Team" (VStr "open") true) w)
    as (w1 & w2 & r & Hdel & Hundel & _ & Hget & Hact & _).
  - reflexivity.
  - reflexivity.
  - reflexivity.
  - vm_compute. discriminate.
  - vm_compute. reflexivity.
  - intros k v _ Hv. by apply cell_Some.
  - reflexivity.
  - exists w1, w2, r. split; [exact Hdel|]. split; [exact Hundel|].
    split; [exact Hget|exact Hact].
Defined.

(** ** The rows a query returns *)

(** The identifiers of a list of rows. *)
Definition ids (l : list row) : list value := (λ r, cell r "id") <$> l.

Lemma filter_sublist {A} (p : A → bool) (l : list A) : List.filter p l `sublist_of` l.
Proof.
  induction l as [|x l IH]; simpl; [done|].
  destruct (p x); by constructor.
Qed.

Lemma unique_from_sublist seen (l : list row) : unique_from seen l `sublist_of` l.
Proof.
  revert seen. induction l as [|r l IH]; intros seen; simpl; [done|].
  destruct (bool_decide _); constructor; apply IH.
Qed.

Lemma ids_sublist (l k : list row) : l `sublist_of` k → NoDup (ids k) → NoDup (ids l).
Proof.
  intros H Hnd. eapply sublist_NoDup; [exact Hnd|]. unfold ids. by apply fmap_sublist.
Qed.

(** After [unique] no identifier comes twice. *)
Lemma unique_from_ids seen (l : list row) :
  NoDup (ids (unique_from seen l))
  ∧ ∀ r, r ∈ unique_from seen l → cell r "id" ∉ seen.
Proof.
  revert seen. induction l as [|r l IH]; intros seen; simpl.
  - split; [constructor|]. by intros r ?%elem_of_nil.
  - case_bool_decide as Hin; [apply IH|].
    destruct (IH (cell r "id" :: seen)) as [Hnd Hout]. split.
    + unfold ids. simpl. apply NoDup_cons. split; [|done].
      intros (r' & E & Hr')%list_elem_of_fmap.
      apply (Hout r' Hr'). rewrite <- E. apply list_elem_of_here.
    + intros r' [->|Hr']%elem_of_cons; [done|].
      intros H. apply (Hout r' Hr'). by apply list_elem_of_further.
Qed.

(** On rows with distinct identifiers [unique] removes nothing. *)
Lemma unique_from_id seen (l : list row) :
  NoDup (ids l) → (∀ r, r ∈ l → cell r "id" ∉ seen) → unique_from seen l = l.
Proof.
  revert seen. induction l as [|r l IH]; intros seen Hnd Hout; simpl; [done|].
  apply NoDup_cons in Hnd as [Hr Hnd].
  rewrite bool_decide_eq_false_2 by (apply Hout, list_elem_of_here).
  f_equal. apply IH; [done|]. intros r' Hr' [E|H]%elem_of_cons.
  - apply Hr. rewrite <- E. unfold ids. apply list_elem_of_fmap. by exists r'.
  - by apply (Hout r' (list_elem_of_further _ _ _ Hr')).
Qed.

Lemma unique_id (l : list row) : NoDup (ids l) → unique l = l.
Proof. intros H. apply unique_from_id; [done|]. intros r _ ?%elem_of_nil. done. Qed.

Lemma ids_sort_rows ocs (l : list row) : NoDup (ids l) → NoDup (ids (sort_rows ocs l)).
Proof. unfold ids. by rewrite sort_rows_perm. Qed.

(** X13: A call of [filter] whose names are all attributes of the class, on a
    table whose rows have distinct identifiers. Without pagination it
    returns every row of the table that matches the request, each once,
    and no other. With pagination the page is the window of that same
    sequence that the offset and the limit cut out, and the total is the
    length of the sequence. *)
Theorem filter_returns_matching (cls : model) (filters conditions : option loc)
    (sorting : option sorting_arg) (d : pydict value) (cs : list clause) (w : World) :
  filter_args w filters conditions d cs →
  names_ok cls d sorting →
  NoDup (ids (w_rows w)) →
  ∃ rs w',
    filter cls filters conditions None sorting w = (inr (Results rs), w') ∧
    rs ≡ₚ List.filter (request_matches cls d cs) (w_rows w) ∧
    (∀ r, r ∈ rs ↔ r ∈ w_rows w ∧ request_matches cls d cs r = true) ∧
    ∀ p, filter cls filters conditions (Some p) sorting w
         = (inr (Page (take (pg_limit p) (drop (pg_offset p) rs)) (length rs)), w').
Proof.
  intros Hargs Hnames Hnd.
  set (matched := List.filter (request_matches cls d cs) (w_rows w)).
  set (sorted := sort_rows (sort_clauses sorting) matched).
  assert (NoDup (ids sorted)) as Hsorted.
  { apply ids_sort_rows. eapply ids_sublist; [apply filter_sublist|done]. }
  exists sorted, (set_heap (final_heap (w_heap w) filters conditions d cs) w).
  split; [|split; [|split]].
  - rewrite (filter_run _ _ _ _ _ d cs w Hargs Hnames). unfold filter_outcome.
    fold (filter_query cls d cs sorting). rewrite filter_query_run.
    fold matched sorted. by rewrite unique_id.
  - apply sort_rows_perm.
  - intros r. unfold sorted. rewrite sort_rows_perm. unfold matched.
    by rewrite list_elem_of_In, filter_In, <- list_elem_of_In.
  - intros p. rewrite (filter_run _ _ _ _ _ d cs w Hargs Hnames). unfold filter_outcome.
    fold (filter_query cls d cs sorting).
    rewrite filter_query_page, filter_query_count. fold matched sorted.
    rewrite unique_id.
    + unfold sorted. by rewrite length_sort_rows.
    + eapply ids_sublist; [|exact Hsorted].
      etrans; [apply sublist_take|apply sublist_drop].
Qed.

Lemma filter_returns_matching_witness :
  let w := team_world [ODict status_open] in
  ∃ rs w',
    filter Team (Some 0) None None None w = (inr (Results rs), w') ∧
    (∀ r, r ∈ rs ↔ r ∈ w_rows w ∧ request_matches Team status_open [] r = true) ∧
    ∀ p, filter Team (Some 0) None (Some p) None w
         = (inr (Page (take (pg_limit p) (drop (pg_offset p) rs)) (length rs)), w').
Proof.
  intros w.
  destruct (filter_returns_matching Team (Some 0) None None status_open [] w)
    as (rs & w' & Hrun & _ & Hrows & Hpage).
  - split; reflexivity.
  - split; [|split].
    + apply (bool_decide_unpack _). vm_compute. exact I.
    + intros [tok Htok]. vm_compute in Htok. discriminate Htok.
    + exact I.
  - apply (bool_decide_unpack _). vm_compute. exact I.
  - exists rs, w'. split; [exact Hrun|]. split; [exact Hrows|exact Hpage].
Defined.

(** ** What a call can and cannot return *)

Lemma bind_inv {A B} (m : M A) (f : A → M B) w y w' :
  (x ← m; f x) w = (inr y, w') →
  ∃ x w1, m w = (inr x, w1) ∧ f x w1 = (inr y, w').
Proof.
  rewrite bind_run. destruct (m w) as [[e|x] w1]; [done|]. intros H. by exists x, w1.
Qed.

Lemma run_block_inv pagination stmt c w fr w' :
  run_block pagination stmt c w = (inr fr, w') →
  ∃ cs, w_heap w !! c = Some (OList cs) ∧
        fr = filter_outcome pagination stmt cs (w_rows w).
Proof.
  intros H. unfold run_block, read_list in H. rewrite bind_run in H.
  destruct (w_heap w !! c) as [[| cs |]|] eqn:E; try done.
  exists cs. split; [done|].
  pose proof (run_block_run pagination stmt c cs w E) as Hrun.
  unfold run_block, read_list in Hrun. rewrite bind_run, E in Hrun.
  rewrite Hrun in H. by injection H as <- _.
Qed.

Lemma run_query_subset q rows r : r ∈ run_query q rows → r ∈ rows.
Proof.
  unfold run_query. intros H.
  assert (r ∈ sort_rows (sel_order q) (matching q rows)) as Hs.
  { destruct (sel_limit q) as [n|], (sel_offset q) as [o|].
    - by apply subseteq_take, subseteq_drop in H.
    - by apply subseteq_take in H.
    - by apply subseteq_drop in H.
    - done. }
  rewrite sort_rows_perm in Hs. unfold matching in Hs.
  by apply list_elem_of_In, filter_In in Hs as [?%list_elem_of_In _].
Qed.

(** X14: Whatever the request, a call of [filter] that returns does not
    return two rows with one identifier, and every row it returns is a
    row of the table. *)
Theorem filter_distinct_ids (cls : model) (filters conditions : option loc)
    (pagination : option Pagination) (sorting : option sorting_arg)
    (w w' : World) (fr : filter_result) :
  filter cls filters conditions pagination sorting w = (inr fr, w') →
  NoDup (ids (result_rows fr)) ∧ ∀ r, r ∈ result_rows fr → r ∈ w_rows w.
Proof.
  rewrite filter_blocks. intros H.
  apply bind_inv in H as (c & w1 & Hc & H).
  apply bind_inv in H as (stmt & w2 & Hf & H).
  apply bind_inv in H as (stmt' & w3 & Hs & H).
  apply run_block_inv in H as (cs & _ & ->).
  assert (w_rows w3 = w_rows w) as ->.
  { pose proof (sorting_block_world cls sorting stmt w2) as E. rewrite Hs in E.
    simpl in E. subst w3.
    assert (w_rows w1 = w_rows w) as <-.
    { unfold conditions_or_new in Hc. destruct conditions as [cl|].
      - apply bind_inv in Hc as (l & w0 & Hl & Hc). unfold read_list in Hl.
        destruct (w_heap w !! cl) as [[| l0 |]|]; try done. injection Hl as <- <-.
        destruct l0; by injection Hc as <- <-.
      - by injection Hc as <- <-. }
    unfold filters_block in Hf. destruct filters as [fl|]; [|by injection Hf as <- <-].
    apply bind_inv in Hf as (d & w0 & Hd & Hf). unfold read_dict in Hd.
    destruct (w_heap w1 !! fl) as [[d1| |]|]; try done. injection Hd as <- <-.
    destruct d1 as [|kv d0] eqn:Ed; [by injection Hf as <- <-|]. clear Ed.
    apply bind_inv in Hf as (v & w0 & Hv & Hf).
    apply bind_inv in Hf as (st & w4 & Hst & Hf).
    apply bind_inv in Hf as (d' & w5 & Hd' & Hf).
    apply bind_inv in Hf as (eqs & w6 & Heqs & Hf).
    apply bind_inv in Hf as ([] & w7 & Hext & Hf). injection Hf as <- <-.
    assert (w_rows w0 = w_rows w1) as E0.
    { unfold dict_get_none in Hv. apply bind_inv in Hv as (? & ? & Hv & Hv').
      unfold read_dict in Hv. destruct (w_heap w1 !! fl) as [[| |]|]; try done.
      injection Hv as <- <-. by injection Hv' as _ <-. }
    assert (w_rows w4 = w_rows w0) as E4.
    { destruct (truthy v); [|by injection Hst as _ <-].
      apply bind_inv in Hst as (tok & w8 & Hpop & Hst).
      assert (w_rows w8 = w_rows w0) as <-.
      { unfold dict_pop in Hpop. apply bind_inv in Hpop as (? & ? & Hr & Hpop).
        unfold read_dict in Hr. destruct (w_heap w0 !! fl) as [[| |]|]; try done.
        injection Hr as <- <-. by injection Hpop as _ <-. }
      destruct (truthy tok); [|by injection Hst as _ <-].
      pose proof (_build_search_like_string_stmt_world cls select_cls tok w8) as E.
      rewrite Hst in E. simpl in E. by subst. }
    assert (w5 = w4) as ->.
    { unfold read_dict in Hd'. destruct (w_heap w4 !! fl) as [[| |]|]; try done.
      by injection Hd' as _ <-. }
    assert (w6 = w4) as ->.
    { pose proof (_build_conditions_world cls d' w4) as E. by rewrite Heqs in E. }
    assert (w_rows w7 = w_rows w4) as E7.
    { unfold list_extend in Hext. apply bind_inv in Hext as (? & ? & Hr & Hext).
      unfold read_list in Hr. destruct (w_heap w4 !! c) as [[| |]|]; try done.
      injection Hr as <- <-. by injection Hext as <-. }
    congruence. }
  unfold filter_outcome.
  destruct pagination as [p|]; simpl; (split; [apply unique_from_ids|]);
    intros r Hr%unique_from_subset; by apply run_query_subset in Hr.
Qed.

(** Two rows that came to share the identifier 1. *)
Definition twin_rows : list row :=
  [team_row 1 "Alpha Team" (VStr "open") true;
   team_row 1 "Alpha Team" (VStr "closed") true;
   team_row 2 "Beta Squad" (VStr "open") true].

Definition twin_world : World :=
  {| w_heap := []; w_rows := twin_rows; w_seq := 4; w_clock := 100;
     w_check := no_constraints; w_log := [] |}.

Lemma filter_distinct_ids_witness :
  ∃ fr w', filter Team None None None None twin_world = (inr fr, w') ∧
           NoDup (ids (result_rows fr)) ∧ length (result_rows fr) = 2%nat.
Proof.
  assert (filter Team None None None None twin_world
          = (inr (Results [team_row 1 "Alpha Team" (VStr "open") true;
                           team_row 2 "Beta Squad" (VStr "open") true]),
             set_heap [OList []] twin_world)) as Hrun.
  { vm_compute. reflexivity. }
  eexists _, _. split; [exact Hrun|]. split; [|reflexivity].
  exact (proj1 (filter_distinct_ids _ _ _ _ _ _ _ _ Hrun)).
Defined.

(** ** A filter on an unknown field *)






(** ** What a query never does *)

(** [w'] differs from [w] in the heap only, and there in no record. *)
Definition reads_only (w w' : World) : Prop :=
  w_rows w' = w_rows w ∧ w_seq w' = w_seq w ∧ w_clock w' = w_clock w ∧
  w_check w' = w_check w ∧ w_log w' = w_log w ∧
  ∀ l o, w_heap w !! l = Some (OInst o) → w_heap w' !! l = Some (OInst o).

Definition quiet {A} (m : M A) : Prop := ∀ w, reads_only w (m w).2.

Lemma reads_only_refl w : reads_only w w.
Proof. by repeat split. Qed.

Lemma reads_only_trans w1 w2 w3 :
  reads_only w1 w2 → reads_only w2 w3 → reads_only w1 w3.
Proof.
  intros (H1 & H2 & H3 & H4 & H5 & H6) (K1 & K2 & K3 & K4 & K5 & K6).
  repeat split; try congruence. intros l o Hl. by apply K6, H6.
Qed.

Lemma quiet_same {A} (m : M A) : (∀ w, (m w).2 = w) → quiet m.
Proof. intros H w. rewrite H. apply reads_only_refl. Qed.

Lemma quiet_bind {A B} (m : M A) (f : A → M B) :
  quiet m → (∀ x, quiet (f x)) → quiet (x ← m; f x).
Proof.
  intros Hm Hf w. rewrite bind_run. specialize (Hm w).
  destruct (m w) as [[e|x] w1]; simpl in *; [done|].
  eapply reads_only_trans; [exact Hm|apply Hf].
Qed.

Lemma quiet_ret {A} (x : A) : quiet (mret x).
Proof. intros w. apply reads_only_refl. Qed.

Lemma quiet_alloc_list cs : quiet (alloc (OList cs)).
Proof.
  intros w. unfold alloc. simpl. repeat split; try done.
  intros l o Hl. by apply lookup_app_l_Some.
Qed.

Lemma quiet_read_dict l : quiet (read_dict l).
Proof. apply quiet_same. intros w. unfold read_dict. by destruct (w_heap w !! l) as [[| |]|]. Qed.

Lemma quiet_read_list l : quiet (read_list l).
Proof. apply quiet_same. intros w. unfold read_list. by destruct (w_heap w !! l) as [[| |]|]. Qed.

Lemma quiet_dict_get_none l k : quiet (dict_get_none l k).
Proof.
  apply quiet_same. intros w. unfold dict_get_none, read_dict. rewrite bind_run.
  by destruct (w_heap w !! l) as [[| |]|].
Qed.

(** Writing back a dictionary or a list where one was read. *)
Lemma quiet_dict_pop l k : quiet (dict_pop l k).
Proof.
  intros w. destruct (w_heap w !! l) as [[d| |]|] eqn:E.
  - rewrite (dict_pop_run _ _ _ _ E). simpl. repeat split; try done.
    intros l' o Hl'. simpl. rewrite list_lookup_insert_ne; [done|]. intros ->. congruence.
  - unfold dict_pop, read_dict. rewrite bind_run, E. apply reads_only_refl.
  - unfold dict_pop, read_dict. rewrite bind_run, E. apply reads_only_refl.
  - unfold dict_pop, read_dict. rewrite bind_run, E. apply reads_only_refl.
Qed.

Lemma quiet_list_extend l xs : quiet (list_extend l xs).
Proof.
  intros w. destruct (w_heap w !! l) as [[|cs|]|] eqn:E.
  - unfold list_extend, read_list. rewrite bind_run, E. apply reads_only_refl.
  - rewrite (list_extend_run _ _ _ _ E). simpl. repeat split; try done.
    intros l' o Hl'. simpl. rewrite list_lookup_insert_ne; [done|]. intros ->. congruence.
  - unfold list_extend, read_list. rewrite bind_run, E. apply reads_only_refl.
  - unfold list_extend, read_list. rewrite bind_run, E. apply reads_only_refl.
Qed.

Lemma quiet_conditions_or_new conditions : quiet (conditions_or_new conditions).
Proof.
  unfold conditions_or_new. destruct conditions as [cl|]; [|apply quiet_alloc_list].
  apply quiet_bind; [apply quiet_read_list|]. intros [|c cs].
  - apply quiet_alloc_list.
  - apply quiet_ret.
Qed.

Lemma quiet_filters_block cls filters c : quiet (filters_block cls filters c).
Proof.
  unfold filters_block. destruct filters as [fl|]; [|apply quiet_ret].
  apply quiet_bind; [apply quiet_read_dict|]. intros [|kv d]; [apply quiet_ret|].
  apply quiet_bind; [apply quiet_dict_get_none|]. intros v.
  apply quiet_bind.
  - destruct (truthy v); [|apply quiet_ret].
    apply quiet_bind; [apply quiet_dict_pop|]. intros tok.
    destruct (truthy tok); [|apply quiet_ret].
    apply quiet_same. apply _build_search_like_string_stmt_world.
  - intros stmt. apply quiet_bind; [apply quiet_read_dict|]. intros d'.
    apply quiet_bind; [apply quiet_same, _build_conditions_world|]. intros eqs.
    apply quiet_bind; [apply quiet_list_extend|]. intros _. apply quiet_ret.
Qed.

(** X17: Whatever its arguments, and whether it returns or raises, [filter]
    writes no row, takes no identifier from the sequence, logs nothing,
    and touches no record: all it changes in the world of its caller are
    dictionaries and lists. *)
Theorem filter_reads_only (cls : model) (filters conditions : option loc)
    (pagination : option Pagination) (sorting : option sorting_arg) (w : World) :
  let w' := (filter cls filters conditions pagination sorting w).2 in
  w_rows w' = w_rows w ∧ w_seq w' = w_seq w ∧ w_clock w' = w_clock w ∧
  w_check w' = w_check w ∧ w_log w' = w_log w ∧
  ∀ l o, w_heap w !! l = Some (OInst o) → w_heap w' !! l = Some (OInst o).
Proof.
  rewrite filter_blocks.
  apply (quiet_bind _ _ (quiet_conditions_or_new conditions)). intros c.
  apply quiet_bind; [apply quiet_filters_block|]. intros stmt.
  apply quiet_bind; [apply quiet_same, sorting_block_world|]. intros stmt'.
  apply quiet_same, run_block_world.
Qed.

(** ** The order of the rows returned *)

(** The laws of a three-way comparison that orders a type totally, equal
    elements being interchangeable. *)
Record order_laws {A} (c : A → A → comparison) : Prop := {
  ol_antisym x y : c y x = CompOpp (c x y);
  ol_lt_trans x y z : c x y = Lt → c y z = Lt → c x z = Lt;
  ol_eq_l x y z : c x y = Eq → c x z = c y z
}.

Lemma ol_eq_r {A} (c : A → A → comparison) x y z :
  order_laws c → c y z = Eq → c x y = c x z.
Proof.
  intros L H. rewrite (ol_antisym c L y x), (ol_antisym c L z x). f_equal.
  apply (ol_eq_l c L). done.
Qed.

(** What the laws give: not being greater is transitive. *)
Lemma ol_le_trans {A} (c : A → A → comparison) x y z :
  order_laws c → c x y ≠ Gt → c y z ≠ Gt → c x z ≠ Gt.
Proof.
  intros L H1 H2. destruct (c x y) eqn:E1; [| |done].
  - by rewrite (ol_eq_l c L x y z E1).
  - destruct (c y z) eqn:E2; [| |done].
    + by rewrite <- (ol_eq_r c x y z L E2), E1.
    + by rewrite (ol_lt_trans c L x y z E1 E2).
Qed.

Lemma ol_gt_le {A} (c : A → A → comparison) x y :
  order_laws c → c x y = Gt → c y x ≠ Gt.
Proof. intros L H. by rewrite (ol_antisym c L x y), H. Qed.

(** The laws go through the ways comparisons are put together: reading
    them backwards, reading them on a key, and breaking the ties of one
    by another. *)
Lemma order_laws_flip {A} (c : A → A → comparison) :
  order_laws c → order_laws (λ x y, c y x).
Proof.
  intros L. split.
  - intros x y. apply (ol_antisym c L).
  - intros x y z H1 H2. by apply (ol_lt_trans c L z y x).
  - intros x y z H. symmetry. apply (ol_eq_r c z y x L H).
Qed.

Lemma order_laws_on {A B} (f : A → B) (c : B → B → comparison) :
  order_laws c → order_laws (λ x y, c (f x) (f y)).
Proof.
  intros L. split.
  - intros x y. apply (ol_antisym c L).
  - intros x y z. apply (ol_lt_trans c L).
  - intros x y z. apply (ol_eq_l c L).
Qed.

Definition lex {A} (c1 c2 : A → A → comparison) (x y : A) : comparison :=
  match c1 x y with
  | Eq => c2 x y
  | o => o
  end.

Lemma order_laws_lex {A} (c1 c2 : A → A → comparison) :
  order_laws c1 → order_laws c2 → order_laws (lex c1 c2).
Proof.
  intros L1 L2. unfold lex. split.
  - intros x y. rewrite (ol_antisym c1 L1 x y).
    destruct (c1 x y); simpl; [apply (ol_antisym c2 L2)|done|done].
  - intros x y z.
    destruct (c1 x y) eqn:E1; [| |done]; destruct (c1 y z) eqn:E2; try done.
    + rewrite (ol_eq_l c1 L1 x y z E1), E2. apply (ol_lt_trans c2 L2).
    + by rewrite (ol_eq_l c1 L1 x y z E1), E2.
    + by rewrite <- (ol_eq_r c1 x y z L1 E2), E1.
    + by rewrite (ol_lt_trans c1 L1 x y z E1 E2).
  - intros x y z. destruct (c1 x y) eqn:E1; [|done|done]. intros E2.
    rewrite (ol_eq_l c1 L1 x y z E1). destruct (c1 y z); [|done|done].
    by apply (ol_eq_l c2 L2).
Qed.

Lemma order_laws_ext {A} (c c' : A → A → comparison) :
  (∀ x y, c' x y = c x y) → order_laws c → order_laws c'.
Proof.
  intros E L. split.
  - intros x y. rewrite !E. apply (ol_antisym c L).
  - intros x y z. rewrite !E. apply (ol_lt_trans c L).
  - intros x y z. rewrite !E. apply (ol_eq_l c L).
Qed.

(** The orders of the column types. *)
Lemma Z_order_laws : order_laws Z.compare.
Proof.
  split.
  - intros x y. apply Z.compare_antisym.
  - intros x y z. rewrite !Z.compare_lt_iff. lia.
  - intros x y z H. apply Z.compare_eq in H. by subst.
Qed.

Lemma bool_order_laws : order_laws Bool.compare.
Proof. split; by intros [] [] ; try intros []. Qed.

Lemma ascii_order_laws : order_laws Ascii.compare.
Proof.
  split.
  - intros x y. apply Ascii.compare_antisym.
  - intros x y z. unfold Ascii.compare. rewrite !N.compare_lt_iff. lia.
  - intros x y z H. apply Ascii.compare_eq_iff in H. by subst.
Qed.

Lemma string_order_laws : order_laws String.compare.
Proof.
  split.
  - intros x y. apply String.compare_antisym.
  - intros x. induction x as [|a x IH]; intros [|b y] [|c z]; simpl; try done.
    destruct (Ascii.compare a b) eqn:E1; [| |done];
      destruct (Ascii.compare b c) eqn:E2; try done; intros H1 H2.
    + rewrite (ol_eq_l _ ascii_order_laws a b c E1), E2. by apply (IH y z).
    + by rewrite (ol_eq_l _ ascii_order_laws a b c E1), E2.
    + by rewrite <- (ol_eq_r _ a b c ascii_order_laws E2), E1.
    + by rewrite (ol_lt_trans _ ascii_order_laws a b c E1 E2).
  - intros x y z H. apply String.compare_eq_iff in H. by subst.
Qed.

Lemma value_order_laws : order_laws value_compare.
Proof.
  split.
  - intros [|a|a|a] [|b|b|b]; simpl; try done.
    + apply (ol_antisym _ bool_order_laws).
    + apply (ol_antisym _ Z_order_laws).
    + apply (ol_antisym _ string_order_laws).
  - intros [|a|a|a] [|b|b|b] [|c|c|c]; simpl; try done.
    + apply (ol_lt_trans _ bool_order_laws).
    + apply (ol_lt_trans _ Z_order_laws).
    + apply (ol_lt_trans _ string_order_laws).
  - intros [|a|a|a] [|b|b|b] [|c|c|c]; simpl; try done.
    + apply (ol_eq_l _ bool_order_laws).
    + apply (ol_eq_l _ Z_order_laws).
    + apply (ol_eq_l _ string_order_laws).
Qed.

(** An ordering element compares two cells: first by which of them is
    NULL, then in its direction. *)
Definition null_compare (after : bool) (x y : value) : comparison :=
  match x, y with
  | VNone, VNone => Eq
  | VNone, _ => if after then Gt else Lt
  | _, VNone => if after then Lt else Gt
  | _, _ => Eq
  end.

Definition directed (dir : direction) (x y : value) : comparison :=
  match dir with
  | Asc => value_compare x y
  | Desc => value_compare y x
  end.

Lemma clause_compare_lex oc r1 r2 :
  clause_compare oc r1 r2
  = lex (null_compare (nulls_after oc)) (directed (oc_dir oc))
        (cell r1 (oc_field oc)) (cell r2 (oc_field oc)).
Proof.
  unfold clause_compare, lex, null_compare, directed.
  destruct (cell r1 (oc_field oc)), (cell r2 (oc_field oc)), (nulls_after oc), (oc_dir oc);
    reflexivity.
Qed.

Lemma null_order_laws after : order_laws (null_compare after).
Proof.
  split.
  - by intros [] []; destruct after.
  - by intros [] [] []; destruct after.
  - by intros [] [] []; destruct after.
Qed.

Lemma directed_order_laws dir : order_laws (directed dir).
Proof.
  destruct dir; simpl.
  - apply value_order_laws.
  - apply (order_laws_flip _ value_order_laws).
Qed.

Lemma clause_order_laws oc : order_laws (clause_compare oc).
Proof.
  eapply order_laws_ext; [apply clause_compare_lex|].
  apply (order_laws_on (λ r, cell r (oc_field oc))).
  apply order_laws_lex; [apply null_order_laws|apply directed_order_laws].
Qed.

Lemma rows_order_laws ocs : order_laws (rows_compare ocs).
Proof.
  induction ocs as [|oc ocs IH].
  - by split.
  - apply (order_laws_ext (lex (clause_compare oc) (rows_compare ocs))).
    + intros x y. unfold lex. simpl. by destruct (clause_compare oc x y).
    + apply order_laws_lex; [apply clause_order_laws|done].
Qed.

(** [x] may stand before [y] under the ORDER BY elements [ocs]. *)
Definition in_order (ocs : list order_clause) (x y : row) : Prop :=
  rows_compare ocs x y ≠ Gt.

Lemma insert_row_sorted ocs r l :
  StronglySorted (in_order ocs) l → StronglySorted (in_order ocs) (insert_row ocs r l).
Proof.
  induction 1 as [|y l Hl IH Hy]; simpl.
  - repeat constructor.
  - destruct (rows_compare ocs r y) eqn:E.
    + constructor; [by constructor|]. constructor; [unfold in_order; by rewrite E|].
      eapply Forall_impl; [exact Hy|]. intros z Hz.
      apply (ol_le_trans _ r y z (rows_order_laws ocs)); [by rewrite E|done].
    + constructor; [by constructor|]. constructor; [unfold in_order; by rewrite E|].
      eapply Forall_impl; [exact Hy|]. intros z Hz.
      apply (ol_le_trans _ r y z (rows_order_laws ocs)); [by rewrite E|done].
    + constructor; [done|]. rewrite insert_row_perm. constructor; [|done].
      by apply (ol_gt_le _ r y (rows_order_laws ocs)).
Qed.

Lemma sort_rows_sorted ocs l : StronglySorted (in_order ocs) (sort_rows ocs l).
Proof.
  unfold sort_rows. induction l as [|r l IH]; simpl; [constructor|].
  by apply insert_row_sorted.
Qed.

Lemma sorted_sublist {A} (R : A → A → Prop) (l k : list A) :
  l `sublist_of` k → StronglySorted R k → StronglySorted R l.
Proof.
  induction 1 as [|x l k Hs IH|x l k Hs IH]; intros Hk; [done|..].
  - apply StronglySorted_inv in Hk as [Hk Hx]. constructor; [by apply IH|].
    rewrite Forall_forall in Hx. apply Forall_forall. intros z Hz.
    apply Hx. by eapply elem_of_sublist.
  - apply StronglySorted_inv in Hk as [Hk _]. by apply IH.
Qed.

Lemma sorted_lookup {A} (R : A → A → Prop) (l : list A) i j x y :
  StronglySorted R l → (i < j)%nat → l !! i = Some x → l !! j = Some y → R x y.
Proof.
  intros Hl. revert i j. induction Hl as [|z l Hl IH Hz]; intros i j Hij Hi Hj; [done|].
  destruct j as [|j]; [lia|]. destruct i as [|i]; simpl in *.
  - injection Hi as ->. rewrite Forall_forall in Hz. apply Hz.
    by eapply list_elem_of_lookup_2.
  - apply (IH i j); [lia|done..].
Qed.

(** The rows [filter] returns are a part of the sorted matching rows, in
    their order. *)
Lemma filter_outcome_sublist pagination stmt cs rows :
  result_rows (filter_outcome pagination stmt cs rows)
  `sublist_of` sort_rows (sel_order stmt) (matching (where_ stmt (CAnd cs)) rows).
Proof.
  unfold filter_outcome.
  destruct pagination as [p|]; simpl; (etrans; [apply unique_from_sublist|]).
  - unfold run_query. simpl. etrans; [apply sublist_take|apply sublist_drop].
  - unfold run_query. simpl.
    destruct (sel_limit stmt) as [n|], (sel_offset stmt) as [o|]; try done.
    + etrans; [apply sublist_take|apply sublist_drop].
    + apply sublist_take.
    + apply sublist_drop.
Qed.

(** X15: A call of [filter] with a sorting whose first entry is the field [f]
    and the direction [dir], every name of the request being an attribute
    of the class: of two rows returned, the earlier one never sorts after
    the later one under the requested fields and directions, taken in the
    order of the mapping. On the first field this reads: a row whose [f]
    is NULL is only followed by rows whose [f] is NULL, in both
    directions, and two values of [f] stand in ascending order for [asc]
    and in descending order for [desc]. Pagination cuts a page out of
    this order. *)
Theorem filter_sorted (cls : model) (filters conditions : option loc)
    (pagination : option Pagination) (s : sorting_arg)
    (d : pydict value) (cs : list clause) (f dir : string) (rest : pydict string)
    (w : World) :
  filter_args w filters conditions d cs →
  names_ok cls d (Some s) →
  sort_entries s = (f, dir) :: rest →
  ∃ fr w',
    filter cls filters conditions pagination (Some s) w = (inr fr, w') ∧
    ∀ i j x y, (i < j)%nat →
      result_rows fr !! i = Some x → result_rows fr !! j = Some y →
      rows_compare (ordering_of <$> sort_entries s) x y ≠ Gt ∧
      (cell x f = VNone → cell y f = VNone) ∧
      (cell x f ≠ VNone → cell y f ≠ VNone →
       (dir = "asc" → value_compare (cell x f) (cell y f) ≠ Gt) ∧
       (dir = "desc" → value_compare (cell x f) (cell y f) ≠ Lt)).
Proof.
  intros Hargs Hnames Hs.
  eexists _, _. split; [apply (filter_run _ _ _ _ _ d cs w Hargs Hnames)|].
  intros i j x y Hij Hi Hj.
  assert (in_order (ordering_of <$> sort_entries s) x y) as Hxy.
  { eapply (sorted_lookup _ _ i j x y); [|done..].
    eapply sorted_sublist; [apply filter_outcome_sublist|].
    assert (sel_order (order_by (search_stmt cls d) (sort_clauses (Some s)))
            = ordering_of <$> sort_entries s) as ->.
    { unfold search_stmt. by destruct (search_token d). }
    apply sort_rows_sorted. }
  split; [exact Hxy|].
  unfold in_order in Hxy. rewrite Hs in Hxy. simpl in Hxy.
  assert (clause_compare (ordering_of (f, dir)) x y ≠ Gt) as Hc.
  { intros E. by rewrite E in Hxy. }
  clear Hxy. rewrite clause_compare_lex in Hc.
  destruct Hnames as (_ & _ & Hsort). simpl in Hsort. rewrite Hs in Hsort.
  apply Forall_cons in Hsort as [[_ [dr Hdir]] _]. simpl in Hdir, Hc.
  rewrite Hdir in Hc. simpl in Hc. unfold lex, null_compare in Hc.
  split.
  - intros Hx. rewrite Hx in Hc. by destruct (cell y f).
  - intros Hx Hy. unfold direction_of in Hdir.
    assert (directed dr (cell x f) (cell y f) ≠ Gt) as Hd.
    { by destruct (cell x f), (cell y f). }
    clear Hc. split; intros ->; simpl in Hdir; injection Hdir as <-; simpl in Hd.
    + done.
    + by rewrite (ol_antisym _ value_order_laws), CompOpp_iff.
Qed.

Definition by_status_desc : sorting_arg := SortingDict [("status", "desc"); ("name", "asc")].

Lemma filter_sorted_witness :
  let w := team_world [] in
  ∃ fr w',
    filter Team None None None (Some by_status_desc) w = (inr fr, w') ∧
    ∀ i j x y, (i < j)%nat →
      result_rows fr !! i = Some x → result_rows fr !! j = Some y →
      (cell x "status" = VNone → cell y "status" = VNone).
Proof.
  intros w.
  destruct (filter_sorted Team None None None by_status_desc [] []
              "status" "desc" [("name", "asc")] w)
    as (fr & w' & Hrun & Hord).
  - split; reflexivity.
  - split; [apply List.Forall_nil|]. split.
    + intros [tok Htok]. vm_compute in Htok. discriminate Htok.
    + apply (bool_decide_unpack _). vm_compute. exact I.
  - reflexivity.
  - exists fr, w'. split; [exact Hrun|]. intros i j x y Hij Hi Hj.
    exact (proj1 (proj2 (Hord i j x y Hij Hi Hj))).
Defined.

(** ** A soft-deleted record and the queries *)

Lemma ids_flushed cls o w :
  inst_persistent o = true → ids (flushed_rows cls o w) = ids (w_rows w).
Proof.
  intros Hp. rewrite (flushed_rows_persistent cls o w Hp). unfold ids.
  rewrite <- list_fmap_compose. apply list_fmap_ext. intros _ r _. simpl.
  destruct (has_id (attr o "id") r) eqn:E; [|done].
  pose proof (update_values_id cls o r (w_clock w) E) as E'.
  unfold has_id in *. apply bool_decide_eq_true_1 in E, E'. congruence.
Qed.

(** A call of [filter] without any argument returns the table. *)
Lemma filter_no_arguments cls w :
  NoDup (ids (w_rows w)) →
  filter cls None None None None w
  = (inr (Results (w_rows w)), set_heap (w_heap w ++ [OList []]) w).
Proof.
  intros Hnd.
  rewrite (filter_run cls None None None None [] [] w).
  - unfold filter_outcome. fold (filter_query cls [] [] None).
    rewrite filter_query_run. simpl. rewrite sort_rows_nil.
    rewrite (filter_ext _ (λ _, true)), filter_true by done.
    by rewrite unique_id.
  - done.
  - split; [apply List.Forall_nil|]. split; [|done]. by intros [? ?].
Qed.

(** X9: The soft delete hides nothing by itself: after it, on a table whose
    rows have distinct identifiers, a call of [filter] without arguments
    still returns the row of the record, now with the active flag false,
    among as many rows as the table had. *)
Theorem soft_deleted_still_listed (cls : model) (self : loc) (o : instance) (old : row)
    (w : World) :
  cls_soft_delete cls = true →
  w_heap w !! self = Some (OInst o) →
  inst_persistent o = true →
  attr o "id" ≠ VNone →
  List.find (has_id (attr o "id")) (w_rows w) = Some old →
  NoDup (ids (w_rows w)) →
  let o1 := with_attrs o (<["is_active" := VBool false]> (inst_attrs o)) in
  let w1 := set_heap (<[self := OInst o1]> (w_heap w)) w in
  w_check w (w_rows w) (flushed_rows cls o1 w1) = None →
  ∃ w2 w3 rs r,
    BaseModelSoftDelete.delete cls self w = (inr (), w2) ∧
    filter cls None None None None w2 = (inr (Results rs), w3) ∧
    r ∈ rs ∧ cell r "id" = attr o "id" ∧ cell r "is_active" = VBool false ∧
    length rs = length (w_rows w).
Proof.
  intros Hsoft Hself Hp Hid Hold Hnd o1 w1 Hc.
  assert (w_heap w1 !! self = Some (OInst o1)) as Hself1.
  { apply list_lookup_insert_eq. by eapply lookup_lt_Some. }
  assert (attr o1 "id" = attr o "id") as Hid1.
  { unfold attr, o1. simpl. by rewrite lookup_insert_ne. }
  destruct (save_persistent_ok cls self o1 old w1 Hself1 Hp) as [Hsave Hfind].
  { by rewrite Hid1. } { by rewrite Hid1. } { exact Hc. }
  set (r := update_values cls o1 old (w_clock w1)) in *.
  set (w2 := saved_world cls self o1 (flushed_rows cls o1 w1) r w1) in *.
  apply find_some_elem in Hfind as [Hin Hhas].
  exists w2, (set_heap (w_heap w2 ++ [OList []]) w2), (flushed_rows cls o1 w1), r.
  split; [|split; [|split; [done|split; [|split]]]].
  - unfold BaseModelSoftDelete.delete.
    by rewrite (bind_ok _ _ _ _ _ (setattr_run _ _ _ _ _ Hself)).
  - apply (filter_no_arguments cls w2). simpl.
    by rewrite (ids_flushed cls o1 w1 Hp).
  - unfold has_id in Hhas. apply bool_decide_eq_true_1 in Hhas. by rewrite <- Hid1.
  - unfold r. rewrite update_values_cell by done. apply cell_union_l.
    rewrite column_values_lookup by by apply is_active_column.
    apply lookup_insert_eq.
  - rewrite (flushed_rows_persistent cls o1 w1 Hp). by rewrite length_fmap.
Qed.

Lemma soft_deleted_still_listed_witness :
  let w := team_world [OInst alpha] in
  ∃ w2 w3 rs r,
    BaseModelSoftDelete.delete Team 0 w = (inr (), w2) ∧
    filter Team None None None None w2 = (inr (Results rs), w3) ∧
    r ∈ rs ∧ cell r "id" = attr alpha "id" ∧ cell r "is_active" = VBool false.
Proof.
  intros w.
  destruct (soft_deleted_still_listed Team 0 alpha
              (team_row 1 "Alpha Team" (VStr "open") true) w)
    as (w2 & w3 & rs & r & Hdel & Hrun & Hin & Hrid & Hact & _).
  - reflexivity.
  - reflexivity.
  - reflexivity.
  - vm_compute. discriminate.
  - vm_compute. reflexivity.
  - apply (bool_decide_unpack _). vm_compute. exact I.
  - vm_compute. reflexivity.
  - exists w2, w3, rs, r. split; [exact Hdel|]. split; [exact Hrun|].
    split; [exact Hin|]. split; [exact Hrid|exact Hact].
Defined.

(** ** A lookup by conditions *)



(** ** Create, then look up by name *)

Lemma create_run cls data w :
  "id" ∉ dict_keys data →
  let o := new_instance cls data in
  let wa := set_heap (w_heap w ++ [OInst o]) w in
  w_check w (w_rows w) (w_rows w ++ [insert_values cls o (w_seq w) (w_clock w)]) = None →
  (∀ x, x ∈ w_rows w → cell x "id" ≠ VInt (w_seq w)) →
  create cls data w
  = (inr (length (w_heap w)), inserted_world cls (length (w_heap w)) o wa).
Proof.
  intros Hnoid o wa Hc Hfresh.
  assert (w_heap wa !! length (w_heap w) = Some (OInst o)) as Hself.
  { unfold wa. simpl. by rewrite lookup_app_r, Nat.sub_diag. }
  assert (attr o "id" = VNone) as Hid.
  { unfold attr, o, new_instance. simpl. rewrite assign_all_lookup_other; [done|].
    intros H. apply Hnoid. unfold dict_keys, known_entries in *.
    apply list_elem_of_fmap in H as (kv & -> & H).
    apply list_elem_of_In, filter_In in H as [H _].
    apply list_elem_of_fmap. exists kv. split; [done|]. by apply list_elem_of_In. }
  pose proof (save_new_run cls (length (w_heap w)) o wa Hself eq_refl Hid Hc Hfresh) as Hsave.
  unfold create. fold (known_entries cls data).
  assert (alloc (OInst o) w = (inr (length (w_heap w)), wa)) as Halloc by done.
  change (foldl (λ a kv, <[kv.1 := kv.2]> a) ∅ (known_entries cls data))
    with (assign_all (known_entries cls data) ∅).
  fold (new_instance cls data). fold o.
  rewrite (bind_ok _ _ _ _ _ Halloc). by rewrite (bind_ok _ _ _ _ _ Hsave).
Qed.

(** X11: A record of a named type created under a name no row has is found
    by that name right after: the lookup returns the row the creation
    wrote, which carries the name and the new identifier. *)
Theorem create_then_get_by_name (cls : model) (data : pydict value) (name : string)
    (w : World) :
  cls_has_name cls = true →
  NoDup (dict_keys data) →
  "id" ∉ dict_keys data →
  ("name", VStr name) ∈ data →
  (∀ x, x ∈ w_rows w → cell x "name" ≠ VStr name) →
  let r := insert_values cls (new_instance cls data) (w_seq w) (w_clock w) in
  w_check w (w_rows w) (w_rows w ++ [r]) = None →
  (∀ x, x ∈ w_rows w → cell x "id" ≠ VInt (w_seq w)) →
  ∃ w',
    create cls data w = (inr (length (w_heap w)), w') ∧
    BaseModelWithName.get_by_name cls name w' = (inr (Some r), w') ∧
    cell r "name" = VStr name ∧ cell r "id" = VInt (w_seq w).
Proof.
  intros Hname Hnd Hnoid Hin Hnew r Hc Hfresh.
  assert ("name" ∈ columns cls) as Hcol.
  { unfold columns. rewrite Hname. apply elem_of_app. right. apply list_elem_of_here. }
  assert (cell r "name" = VStr name) as Hrname.
  { apply cell_Some. apply insert_values_lookup; [done|done|].
    unfold new_instance. simpl. apply assign_all_lookup; [by apply NoDup_filter_keys|].
    apply list_elem_of_In, filter_In. split; [by apply list_elem_of_In|].
    by apply bool_decide_eq_true_2. }
  eexists. split; [by apply create_run|]. split; [|split; [done|]].
  - unfold BaseModelWithName.get_by_name. rewrite Hname.
    rewrite get_one_by_filter_run. simpl. f_equal. f_equal. fold r.
    rewrite find_app_r.
    + simpl. by rewrite holds_eq, bool_decide_eq_true_2.
    + intros x Hx. rewrite holds_eq, andb_true_r.
      apply bool_decide_eq_false_2. by apply Hnew.
  - apply cell_Some. apply insert_values_id.
    unfold attr, new_instance. simpl. rewrite assign_all_lookup_other; [done|].
    intros H. apply Hnoid. unfold dict_keys, known_entries in *.
    apply list_elem_of_fmap in H as (kv & -> & H).
    apply list_elem_of_In, filter_In in H as [H _].
    apply list_elem_of_fmap. exists kv. split; [done|]. by apply list_elem_of_In.
Qed.

Lemma create_then_get_by_name_witness :
  let w := team_world [] in
  let r := insert_values Team (new_instance Team delta_data) (w_seq w) (w_clock w) in
  ∃ w',
    create Team delta_data w = (inr (length (w_heap w)), w') ∧
    BaseModelWithName.get_by_name Team "Delta" w' = (inr (Some r), w').
Proof.
  intros w r.
  destruct (create_then_get_by_name Team delta_data "Delta" w)
    as (w' & Hrun & Hget & _).
  - reflexivity.
  - apply (bool_decide_unpack _). vm_compute. exact I.
  - apply (bool_decide_unpack _). vm_compute. exact I.
  - apply list_elem_of_here.
  - apply Forall_forall. apply (bool_decide_unpack _). vm_compute. exact I.
  - vm_compute. reflexivity.
  - apply Forall_forall. apply (bool_decide_unpack _). vm_compute. exact I.
  - exists w'. split; [exact Hrun|exact Hget].
Defined.

(** ** A failed update *)




(** ** Calling filter again with the same objects *)

Lemma dict_get_del {V} (d : pydict V) k : dict_get (dict_del d k) k = None.
Proof.
  induction d as [|[k' v] d IH]; simpl; [done|].
  destruct (decide (k' = k)) as [->|Hne]; [done|]. simpl. by rewrite decide_False.
Qed.

Lemma search_token_equality_filters d : search_token (equality_filters d) = None.
Proof.
  unfold equality_filters. destruct (search_token d) eqn:E; [|done].
  unfold search_token. by rewrite dict_get_del.
Qed.

Lemma equality_filters_idemp d : equality_filters (equality_filters d) = equality_filters d.
Proof.
  unfold equality_filters at 1. by rewrite search_token_equality_filters.
Qed.

Lemma eq_clauses_equality_filters d : eq_clauses (equality_filters d) = eq_clauses d.
Proof. unfold eq_clauses. by rewrite equality_filters_idemp. Qed.

Lemma holds_eq_clauses r d :
  forallb (holds r) (eq_clauses d)
  = forallb (λ kv, bool_decide (cell r kv.1 = kv.2)) (equality_filters d).
Proof.
  unfold eq_clauses. induction (equality_filters d) as [|kv l IH]; [done|].
  simpl. rewrite holds_eq. f_equal. apply IH.
Qed.

(** What a request asks for apart from its search. *)
Definition plain_matches (d : pydict value) (cs : list clause) (r : row) : bool :=
  forallb (holds r) cs
  && forallb (λ kv, bool_decide (cell r kv.1 = kv.2)) (equality_filters d).

Lemma request_matches_again cls d cs r :
  request_matches cls (equality_filters d) (cs ++ eq_clauses d) r = plain_matches d cs r.
Proof.
  unfold request_matches, search_matches, plain_matches.
  rewrite search_token_equality_filters, equality_filters_idemp.
  rewrite forallb_app, holds_eq_clauses. simpl.
  destruct (forallb (holds r) cs); simpl; [|done]. by destruct (forallb _ _).
Qed.

Lemma request_matches_plain cls d cs r :
  request_matches cls d cs r = search_matches cls d r && plain_matches d cs r.
Proof. done. Qed.

Lemma final_heap_given h fl cl d cs :
  cs ≠ [] →
  final_heap h (Some fl) (Some cl) d cs
  = <[cl := OList (cs ++ eq_clauses d)]> (popped h fl d).
Proof. intros H. unfold final_heap, working_list. by destruct cs. Qed.

(** X18: Two calls of [filter], one after the other, with the same filters
    mapping and the same non-empty conditions list, on a table whose rows
    have distinct identifiers. The second call finds the mapping without
    its search key and the list already extended: it appends the
    equality conditions once more, it does not search, and it returns
    the rows that satisfy the conditions and the equality filters. These
    include the rows of the first call, and are exactly those when the
    mapping asked for no search. *)
Theorem filter_second_call (cls : model) (fl cl : loc) (sorting : option sorting_arg)
    (d : pydict value) (cs : list clause) (w : World) :
  filter_args w (Some fl) (Some cl) d cs →
  cs ≠ [] →
  names_ok cls d sorting →
  NoDup (ids (w_rows w)) →
  ∃ rs1 w1 rs2 w2,
    filter cls (Some fl) (Some cl) None sorting w = (inr (Results rs1), w1) ∧
    filter cls (Some fl) (Some cl) None sorting w1 = (inr (Results rs2), w2) ∧
    w_heap w2 !! cl = Some (OList ((cs ++ eq_clauses d) ++ eq_clauses d)) ∧
    w_heap w2 !! fl = Some (ODict (equality_filters d)) ∧
    (∀ r, r ∈ rs2 ↔ r ∈ w_rows w ∧ plain_matches d cs r = true) ∧
    (∀ r, r ∈ rs1 → r ∈ rs2) ∧
    (search_token d = None → rs2 = rs1).
Proof.
  intros Hargs Hne Hnames Hnd.
  pose proof Hargs as [Hf Hc]. simpl in Hf, Hc.
  assert (fl ≠ cl) as Hdiff by (intros ->; congruence).
  assert (cl < length (w_heap w))%nat as Hlt by by eapply lookup_lt_Some.
  set (h1 := final_heap (w_heap w) (Some fl) (Some cl) d cs).
  set (w1 := set_heap h1 w).
  assert (h1 = <[cl := OList (cs ++ eq_clauses d)]> (popped (w_heap w) fl d)) as Hh1
    by by apply final_heap_given.
  assert (filter_args w1 (Some fl) (Some cl) (equality_filters d) (cs ++ eq_clauses d))
    as Hargs1.
  { split; simpl; rewrite Hh1.
    - rewrite list_lookup_insert_ne by done. by apply popped_lookup.
    - apply list_lookup_insert_eq. by rewrite popped_length. }
  assert (names_ok cls (equality_filters d) sorting) as Hnames1.
  { destruct Hnames as (H1 & H2 & H3). split; [|split; [|done]].
    - by rewrite equality_filters_idemp.
    - rewrite search_token_equality_filters. by intros [? ?]. }
  assert (∀ m, NoDup (ids (sort_rows (sort_clauses sorting) (List.filter m (w_rows w)))))
    as Hsorted.
  { intros m. apply ids_sort_rows. eapply ids_sublist; [apply filter_sublist|done]. }
  set (rs1 := sort_rows (sort_clauses sorting)
                (List.filter (request_matches cls d cs) (w_rows w))).
  set (rs2 := sort_rows (sort_clauses sorting)
                (List.filter (plain_matches d cs) (w_rows w))).
  assert (cs ++ eq_clauses d ≠ []) as Hne1 by by destruct cs.
  exists rs1, w1, rs2,
    (set_heap (final_heap (w_heap w1) (Some fl) (Some cl) (equality_filters d)
                 (cs ++ eq_clauses d)) w1).
  split; [|split; [|split; [|split; [|split; [|split]]]]].
  - rewrite (filter_run _ _ _ _ _ d cs w Hargs Hnames). unfold filter_outcome.
    fold (filter_query cls d cs sorting). rewrite filter_query_run.
    fold rs1. by rewrite unique_id by apply Hsorted.
  - rewrite (filter_run _ _ _ _ _ _ _ w1 Hargs1 Hnames1). unfold filter_outcome.
    fold (filter_query cls (equality_filters d) (cs ++ eq_clauses d) sorting).
    rewrite filter_query_run.
    rewrite (filter_ext _ (plain_matches d cs))
      by (intros r; apply request_matches_again).
    fold rs2. by rewrite unique_id by apply Hsorted.
  - cbn [w_heap set_heap]. rewrite final_heap_given by done.
    rewrite eq_clauses_equality_filters.
    apply list_lookup_insert_eq. rewrite popped_length.
    change (w_heap w1) with h1. by rewrite Hh1, length_insert, popped_length.
  - cbn [w_heap set_heap]. rewrite final_heap_given by done.
    rewrite list_lookup_insert_ne by done.
    destruct Hargs1 as [H _]. rewrite (popped_lookup _ _ _ H).
    by rewrite equality_filters_idemp.
  - intros r. unfold rs2. rewrite sort_rows_perm.
    by rewrite list_elem_of_In, filter_In, <- list_elem_of_In.
  - intros r. unfold rs1, rs2. rewrite !sort_rows_perm.
    rewrite !list_elem_of_In, !filter_In, request_matches_plain.
    intros [? [_ ?]%andb_true_iff]. done.
  - intros Hnone. unfold rs1, rs2. f_equal. apply filter_ext. intros r.
    rewrite request_matches_plain. unfold search_matches. by rewrite Hnone.
Qed.

Lemma filter_second_call_witness :
  let w := team_world [ODict search_alpha_open; OList name_is_alpha] in
  ∃ rs1 w1 rs2 w2,
    filter Team (Some 0) (Some 1) None None w = (inr (Results rs1), w1) ∧
    filter Team (Some 0) (Some 1) None None w1 = (inr (Results rs2), w2) ∧
    w_heap w2 !! 1
    = Some (OList ((name_is_alpha ++ eq_clauses search_alpha_open)
                   ++ eq_clauses search_alpha_open)) ∧
    (∀ r, r ∈ rs1 → r ∈ rs2).
Proof.
  intros w.
  destruct (filter_second_call Team 0 1 None search_alpha_open name_is_alpha w)
    as (rs1 & w1 & rs2 & w2 & Hrun1 & Hrun2 & Hcl & _ & _ & Hsub & _).
  - split; reflexivity.
  - discriminate.
  - split; [|split].
    + apply (bool_decide_unpack _). vm_compute. exact I.
    + intros _. apply (bool_decide_unpack _). vm_compute. exact I.
    + exact I.
  - apply (bool_decide_unpack _). vm_compute. exact I.
  - exists rs1, w1, rs2, w2. split; [exact Hrun1|]. split; [exact Hrun2|].
    split; [exact Hcl|exact Hsub].
Defined.

(** ** What the text of a record tells *)

Lemma app_pivot_inj {A} (x : A) (l1 r1 l2 r2 : list A) :
  x ∉ l1 → x ∉ l2 → l1 ++ x :: r1 = l2 ++ x :: r2 → l1 = l2 ∧ r1 = r2.
Proof.
  revert l2. induction l1 as [|a l1 IH]; intros [|b l2] H1 H2 E; simpl in E.
  - by injection E as ->.
  - injection E as -> _. exfalso. apply H2. apply list_elem_of_here.
  - injection E as -> _. exfalso. apply H1. apply list_elem_of_here.
  - injection E as -> E. destruct (IH l2) as [-> ->]; [| |done|done].
    + intros H. apply H1. by apply list_elem_of_further.
    + intros H. apply H2. by apply list_elem_of_further.
Qed.

(** X19: The text of a record tells its type and its identifier: two records
    with integer identifiers, of types whose names hold no parenthesis,
    that read the same have the same type name and the same identifier. *)
Theorem str_identifies_record (c1 c2 : model) (o1 o2 : instance) (a b : Z) :
  "("%char ∉ chars (cls_name c1) →
  "("%char ∉ chars (cls_name c2) →
  attr o1 "id" = VInt a →
  attr o2 "id" = VInt b →
  __str__ c1 o1 = __str__ c2 o2 →
  cls_name c1 = cls_name c2 ∧ a = b.
Proof.
  intros H1 H2 Ha Hb E. unfold __str__ in E. rewrite Ha, Hb in E. simpl in E.
  injection E as E. apply (f_equal chars) in E. rewrite !chars_app in E.
  change (chars "(") with ["("%char] in E. simpl in E.
  apply app_pivot_inj in E as [E1 E2]; [|done..].
  split.
  - by rewrite <- (text_chars (cls_name c1)), E1, text_chars.
  - apply (app_inv_head (chars "self.id=")) in E2.
    apply app_inv_tail in E2.
    apply (f_equal text) in E2. rewrite !text_chars in E2.
    by apply (inj pretty).
Qed.

Definition beta : instance :=
  {| inst_attrs := team_row 2 "Beta Squad" (VStr "open") true; inst_persistent := true |}.

Lemma str_identifies_record_witness :
  __str__ Team alpha = "<Team(self.id=1)>" ∧ __str__ Team alpha ≠ __str__ Team beta.
Proof.
  split; [vm_compute; reflexivity|]. intros E.
  destruct (str_identifies_record Team Team alpha beta 1 2) as [_ H].
  - apply (bool_decide_unpack _). vm_compute. exact I.
  - apply (bool_decide_unpack _). vm_compute. exact I.
  - vm_compute. reflexivity.
  - vm_compute. reflexivity.
  - exact E.
  - discriminate H.
Defined.
